(** * AlphaTeeko: a shallow embedding of [alphateeko.py] and its properties

    The development follows the class [TeekoPlayer]: the board model, the
    heuristic evaluator, the terminal detector, the successor generator, the
    depth-limited minimax search, the opponent-move validator and the move
    applicator, and then the functions [get_human_move] and [main] that play
    the game at the keyboard.  Part I gives the functions on board values;
    Part II gives the search over an explicit store of row objects (Python
    lists are mutable and shared by reference), so that the claim "the
    search works on deep copies only" has a meaning; Part III holds the
    specification-side definitions; Part IV the lemmas; Part V the claims C1
    to C10; Part VI further properties, X1 and following. *)

From Stdlib Require Import ZArith QArith Lia List.
From Stdlib Require Strings.String Strings.Ascii DecimalString.
From stdpp Require Import base list gmap.
Import String.StringSyntax Ascii.AsciiSyntax.
Delimit Scope char_scope with char.
Delimit Scope string_scope with string.
Bind Scope char_scope with Ascii.ascii.
Bind Scope string_scope with String.string.

Close Scope Q_scope.
Local Open Scope Z_scope.

(* ===================================================================== *)
(** * Part I.  The program on board values                                *)
(* ===================================================================== *)

(** ** Data model *)

(** The two piece values of [pieces = ['X', 'O']]. *)
Inductive piece := X | O.

(** A cell of the board: the string [' '] or one of the two pieces. *)
Inductive cell := Empty | Piece (p : piece).

(** [state]: a list of rows, each a list of cells (5 x 5 in the game). *)
Abbreviation board := (list (list cell)).

(** Coordinates are Python integers [(row, col)]; a move is a list of one or
    two coordinates, destination first. *)
Abbreviation coord := (Z * Z)%type.
Abbreviation move := (list coord).

Definition piece_eqb (a b : piece) : bool :=
  match a, b with
  | X, X | O, O => true
  | _, _ => false
  end.

Definition cell_eqb (a b : cell) : bool :=
  match a, b with
  | Empty, Empty => true
  | Piece p, Piece q => piece_eqb p q
  | _, _ => false
  end.

(** The object [self]: the agent's piece, the opponent's piece and the search
    depth. *)
Record TeekoPlayer := {
  my_piece : piece;
  opp : piece;
  AI_SEARCH_DEPTH : nat
}.

Definition pieces : list piece := [X; O].

(** [random.choice(self.pieces)] is the argument [choice]; the opponent gets
    the other element of [pieces].  [player] leaves the depth free; the
    constructor of the source fixes it to 3. *)
Definition player (choice : piece) (depth : nat) : TeekoPlayer :=
  {| my_piece := choice;
     opp := if piece_eqb choice (default O (pieces !! 1%nat))
            then default X (pieces !! 0%nat)
            else default O (pieces !! 1%nat);
     AI_SEARCH_DEPTH := depth |}.

Definition __init__ (choice : piece) : TeekoPlayer := player choice 3.

(** ** Indexing

    [row[i]] and [state[r][c]].  The source only indexes with values it has
    checked or that its loops keep in range; outside the list Python raises
    [IndexError] (or wraps a negative index), which the model does not follow:
    it reads [Empty] there and leaves a write without effect.  The theorems
    about 5 x 5 boards ([wf_board]) never reach these cases. *)

Definition item (row : list cell) (i : Z) : cell :=
  default Empty (row !! Z.to_nat i).

Definition cell_at (state : board) (r c : Z) : cell :=
  item (default [] (state !! Z.to_nat r)) c.

(** [state[r][c] = v] on a board value. *)
Definition set_cell (state : board) (r c : Z) (v : cell) : board :=
  alter (fun row => <[Z.to_nat c := v]> row) (Z.to_nat r) state.

(** [range(n)]. *)
Definition range (n : nat) : list Z := Z.of_nat <$> seq 0 n.

(** [range(a, b)]. *)
Definition range_from (a : Z) (n : nat) : list Z := (fun k => a + Z.of_nat k) <$> seq 0 n.

(** [row.count(x)]. *)
Definition count (x : cell) (row : list cell) : Z :=
  Z.of_nat (length (filter (fun y => cell_eqb y x = true) row)).

(** A [for] loop whose body may [return]: the body maps the loop state to
    either the next state ([inl]) or the returned value ([inr]). *)
Fixpoint for_loop {A S R : Type} (xs : list A) (body : A -> S -> S + R) (s : S) : S + R :=
  match xs with
  | [] => inl s
  | x :: rest =>
      match body x s with
      | inl s' => for_loop rest body s'
      | inr r => inr r
      end
  end.

(** What a function returns when the loop is followed by [return f(state)]. *)
Definition returning {S R : Type} (after : S -> R) (res : S + R) : R :=
  match res with
  | inl s => after s
  | inr r => r
  end.

(** ** Heuristic evaluator *)

(** [_count_line]: pieces of [p] on the four cells from [(r, c)] in direction
    [(dr, dc)]; 0 as soon as a cell holds something else than [p] or [' ']. *)
Definition _count_line (state : board) (r c dr dc : Z) (p : piece) : Z :=
  returning (fun cnt => cnt)
    (for_loop (range 4)
       (fun i cnt =>
          if cell_eqb (cell_at state (r + i * dr) (c + i * dc)) (Piece p)
          then inl (cnt + 1)
          else if negb (cell_eqb (cell_at state (r + i * dr) (c + i * dc)) Empty)
               then inr 0
               else inl cnt)
       0).

(** [_count_box]: the same on the 2 x 2 box whose top-left corner is [(r, c)]. *)
Definition _count_box (state : board) (r c : Z) (p : piece) : Z :=
  returning (fun cnt => cnt)
    (for_loop (range 2)
       (fun i cnt =>
          for_loop (range 2)
            (fun j cnt =>
               if cell_eqb (cell_at state (r + i) (c + j)) (Piece p)
               then inl (cnt + 1)
               else if negb (cell_eqb (cell_at state (r + i) (c + j)) Empty)
                    then inr 0
                    else inl cnt)
            cnt)
       0).

(** One iteration of the double loop of [heuristic_game_value]: the five
    guarded updates of [(my_val, opp_val)] at position [(i, j)]. *)
Definition heuristic_step (self : TeekoPlayer) (state : board) (i j : Z)
    (acc : Z * Z) : Z * Z :=
  let upd (guard : bool) (cnt : piece -> Z) (acc : Z * Z) : Z * Z :=
    if guard
    then (Z.max (fst acc) (cnt (my_piece self)), Z.max (snd acc) (cnt (opp self)))
    else acc in
  let acc := upd (j <=? 1) (_count_line state i j 0 1) acc in
  let acc := upd (i <=? 1) (_count_line state i j 1 0) acc in
  let acc := upd ((i <=? 1) && (j <=? 1)) (_count_line state i j 1 1) acc in
  let acc := upd ((i <=? 1) && (3 <=? j)) (_count_line state i j 1 (-1)) acc in
  let acc := upd ((i <? 4) && (j <? 4)) (_count_box state i j) acc in
  acc.

(** The pair [(my_val, opp_val)] after the loops. *)
Definition heuristic_counts (self : TeekoPlayer) (state : board) : Z * Z :=
  fold_left
    (fun acc i => fold_left (fun acc j => heuristic_step self state i j acc) (range 5) acc)
    (range 5) (0, 0).

(** [heuristic_game_value(state, piece)]: the argument [piece] is not used by
    the source, which always scores for [self.my_piece].  The division [/ 4]
    is Python's true division; its results here are multiples of 1/4, which
    binary floating point represents exactly, so a rational is the value. *)
Definition heuristic_game_value (self : TeekoPlayer) (state : board) (_ : piece) : Q :=
  let '(my_val, opp_val) := heuristic_counts self state in
  (my_val - opp_val) # 4.

(** ** Terminal detector *)

(** [return 1 if x == self.my_piece else -1]. *)
Definition winner_value (self : TeekoPlayer) (x : cell) : Z :=
  if cell_eqb x (Piece (my_piece self)) then 1 else -1.

(** [a != ' ' and a == b == c == d]. *)
Definition four_equal (a b c d : cell) : bool :=
  negb (cell_eqb a Empty) && cell_eqb a b && cell_eqb b c && cell_eqb c d.

(** The box test compares each of the three other cells with the first. *)
Definition box_equal (a b c d : cell) : bool :=
  negb (cell_eqb a Empty) && cell_eqb a b && cell_eqb a c && cell_eqb a d.

Definition check_horizontal (self : TeekoPlayer) (state : board) : unit + Z :=
  for_loop state
    (fun row s =>
       for_loop (range 2)
         (fun i s =>
            if four_equal (item row i) (item row (i + 1)) (item row (i + 2)) (item row (i + 3))
            then inr (winner_value self (item row i))
            else inl s)
         s)
    tt.

Definition check_vertical (self : TeekoPlayer) (state : board) : unit + Z :=
  for_loop (range 5)
    (fun col s =>
       for_loop (range 2)
         (fun i s =>
            if four_equal (cell_at state i col) (cell_at state (i + 1) col)
                          (cell_at state (i + 2) col) (cell_at state (i + 3) col)
            then inr (winner_value self (cell_at state i col))
            else inl s)
         s)
    tt.

Definition check_diagonal (self : TeekoPlayer) (state : board) : unit + Z :=
  for_loop (range 2)
    (fun i s =>
       for_loop (range 2)
         (fun j s =>
            if four_equal (cell_at state i j) (cell_at state (i + 1) (j + 1))
                          (cell_at state (i + 2) (j + 2)) (cell_at state (i + 3) (j + 3))
            then inr (winner_value self (cell_at state i j))
            else inl s)
         s)
    tt.

Definition check_antidiagonal (self : TeekoPlayer) (state : board) : unit + Z :=
  for_loop (range 2)
    (fun i s =>
       for_loop (range_from 3 2)
         (fun j s =>
            if four_equal (cell_at state i j) (cell_at state (i + 1) (j - 1))
                          (cell_at state (i + 2) (j - 2)) (cell_at state (i + 3) (j - 3))
            then inr (winner_value self (cell_at state i j))
            else inl s)
         s)
    tt.

Definition check_box (self : TeekoPlayer) (state : board) : unit + Z :=
  for_loop (range 4)
    (fun i s =>
       for_loop (range 4)
         (fun j s =>
            if box_equal (cell_at state i j) (cell_at state (i + 1) j)
                         (cell_at state i (j + 1)) (cell_at state (i + 1) (j + 1))
            then inr (winner_value self (cell_at state i j))
            else inl s)
         s)
    tt.

(** [game_value]: 1 if the agent has a winning pattern, -1 if the opponent
    has one, 0 otherwise; the five families are scanned in the source's order
    and the first match decides. *)
Definition game_value (self : TeekoPlayer) (state : board) : Z :=
  match check_horizontal self state with
  | inr v => v
  | inl _ =>
  match check_vertical self state with
  | inr v => v
  | inl _ =>
  match check_diagonal self state with
  | inr v => v
  | inl _ =>
  match check_antidiagonal self state with
  | inr v => v
  | inl _ =>
  match check_box self state with
  | inr v => v
  | inl _ => 0
  end end end end end.

(** ** Successor generator *)

(** [sum(row.count(self.my_piece) + row.count(self.opp) for row in state)]. *)
Definition num_pieces (self : TeekoPlayer) (state : board) : Z :=
  fold_left
    (fun acc row => acc + (count (Piece (my_piece self)) row + count (Piece (opp self)) row))
    state 0.

Definition drop_phase (self : TeekoPlayer) (state : board) : bool :=
  num_pieces self state <? 8.

(** On board values [copy.deepcopy] is the identity; Part II gives it on the
    store, where it allocates new rows. *)
Definition deepcopy (state : board) : board := state.

(** The drop-phase loops: [succs.append] for each empty cell. *)
Definition drop_successors (state : board) (p : piece) : list (board * move) :=
  fold_left
    (fun succs r =>
       fold_left
         (fun succs c =>
            if cell_eqb (cell_at state r c) Empty
            then
              let state_new := deepcopy state in
              let state_new := set_cell state_new r c (Piece p) in
              succs ++ [(state_new, [(r, c)])]
            else succs)
         (range 5) succs)
    (range 5) [].

(** The inner loops of the move phase for the piece on [(r, c)]. *)
Definition relocations (state : board) (p : piece) (r c : Z)
    (succs : list (board * move)) : list (board * move) :=
  fold_left
    (fun succs dr =>
       fold_left
         (fun succs dc =>
            if (dr =? 0) && (dc =? 0) then succs
            else
              let r_new := r + dr in
              let c_new := c + dc in
              if (0 <=? r_new) && (r_new <? 5) && (0 <=? c_new) && (c_new <? 5)
                 && cell_eqb (cell_at state r_new c_new) Empty
              then
                let state_new := deepcopy state in
                let state_new := set_cell state_new r c Empty in
                let state_new := set_cell state_new r_new c_new (Piece p) in
                succs ++ [(state_new, [(r_new, c_new); (r, c)])]
              else succs)
         [-1; 0; 1] succs)
    [-1; 0; 1] succs.

Definition move_successors (state : board) (p : piece) : list (board * move) :=
  fold_left
    (fun succs r =>
       fold_left
         (fun succs c =>
            if cell_eqb (cell_at state r c) (Piece p)
            then relocations state p r c succs
            else succs)
         (range 5) succs)
    (range 5) [].

Definition _generate_successors (self : TeekoPlayer) (state : board) (p : piece)
    : list (board * move) :=
  if drop_phase self state then drop_successors state p else move_successors state p.

(** ** Minimax *)

(** Scores: Python numbers together with [float('-inf')] and [float('inf')]. *)
Inductive score := NegInf | Fin (q : Q) | PosInf.

(** [a < b] on scores. *)
Definition score_ltb (a b : score) : bool :=
  match a, b with
  | NegInf, NegInf => false
  | NegInf, _ => true
  | Fin _, NegInf => false
  | Fin x, Fin y => negb (Qle_bool y x)
  | Fin _, PosInf => true
  | PosInf, _ => false
  end.

(** The loop of the maximizing player over the scored successors:
    [if evaluation > max_eval: max_eval, best_move = evaluation, move]. *)
Definition max_loop (eval : board -> score) (successors : list (board * move))
    : score * option move :=
  fold_left
    (fun '(max_eval, best_move) '(succ_state, mv) =>
       let evaluation := eval succ_state in
       if score_ltb max_eval evaluation then (evaluation, Some mv)
       else (max_eval, best_move))
    successors (NegInf, None).

(** The loop of the minimizing player:
    [if evaluation < min_eval: min_eval, best_move = evaluation, move]. *)
Definition min_loop (eval : board -> score) (successors : list (board * move))
    : score * option move :=
  fold_left
    (fun '(min_eval, best_move) '(succ_state, mv) =>
       let evaluation := eval succ_state in
       if score_ltb evaluation min_eval then (evaluation, Some mv)
       else (min_eval, best_move))
    successors (PosInf, None).

(** [_minimax] by recursion on the number [n] of plies left before the depth
    cutoff, [n = AI_SEARCH_DEPTH - depth].  The source recurses on [depth]
    upwards and stops at [depth == AI_SEARCH_DEPTH]; [_minimax] below restates
    it with [depth], and [_minimax_unfold] (Part IV) shows that it satisfies
    the source's recursive equation for every [depth <= AI_SEARCH_DEPTH]
    (the root call has depth 0; above the cutoff the source would not stop at
    it again, and the model says nothing). *)
Fixpoint minimax_plies (self : TeekoPlayer) (n : nat) (state : board)
    (is_maximizing_player : bool) : score * option move :=
  let game_val := game_value self state in
  if negb (game_val =? 0) then (Fin (inject_Z game_val), None)
  else
    match n with
    | 0%nat => (Fin (heuristic_game_value self state (my_piece self)), None)
    | S n' =>
        let successors :=
          _generate_successors self state
            (if is_maximizing_player then my_piece self else opp self) in
        if is_maximizing_player
        then max_loop (fun succ_state => fst (minimax_plies self n' succ_state false)) successors
        else min_loop (fun succ_state => fst (minimax_plies self n' succ_state true)) successors
    end.

Definition _minimax (self : TeekoPlayer) (state : board) (depth : nat)
    (is_maximizing_player : bool) : score * option move :=
  minimax_plies self (AI_SEARCH_DEPTH self - depth) state is_maximizing_player.

(** [random.choice(seq)] returns [seq[k]] for an index [k] drawn below
    [len(seq)]; the draw is the argument [rnd], reduced modulo the length. *)
Definition random_choice {A : Type} (rnd : nat) (xs : list A) : option A :=
  xs !! (rnd `mod` length xs)%nat.

(** [make_move]: the best move of the search from depth 0, or, when the
    search returns no move, a random successor, or [[]] when there is none. *)
Definition make_move (self : TeekoPlayer) (state : board) (rnd : nat) : move :=
  let state_copy := deepcopy state in
  let best_move := snd (_minimax self state_copy 0 true) in
  match best_move with
  | Some mv => mv
  | None =>
      let successors := _generate_successors self state (my_piece self) in
      match random_choice rnd successors with
      | Some (_, mv) => mv
      | None => []
      end
  end.

(** ** Move applicator and validator

    [opponent_move] and [place_piece] work on [self.board], the board owned
    by the player object, and [opponent_move] raises [ValueError].  A command
    takes the board and returns its result, or the error raised, with the
    board as it is at that moment. *)

(** The six [raise ValueError(...)] of [opponent_move], by their message. *)
Inductive ValueError :=
  | Invalid_move_format          (* "Invalid move format. Move should have 1 or 2 tuples." *)
  | Move_outside_board           (* "Move is outside the board." *)
  | Destination_occupied         (* "Illegal move: destination is already occupied." *)
  | Source_outside_board         (* "Source of move is outside the board." *)
  | No_piece_at_source (src_r src_c : Z)
                                 (* "You don't have a piece at the source location (..)." *)
  | Not_adjacent.                (* "Illegal move: can only move to an adjacent space." *)

Definition cmd (A : Type) : Type := board -> (A + ValueError) * board.

Definition ret {A : Type} (a : A) : cmd A := fun b => (inl a, b).

Definition raise {A : Type} (e : ValueError) : cmd A := fun b => (inr e, b).

Definition bind {A B : Type} (c : cmd A) (k : A -> cmd B) : cmd B :=
  fun b =>
    match c b with
    | (inl a, b') => k a b'
    | (inr e, b') => (inr e, b')
    end.

Declare Scope cmd_scope.
Notation "x <- c ;; k" := (bind c (fun x => k))
  (at level 100, c at next level, right associativity) : cmd_scope.
Notation "c ;;; k" := (bind c (fun _ => k))
  (at level 100, right associativity) : cmd_scope.
Open Scope cmd_scope.

(** [self.board[r][c]]. *)
Definition read_board (r c : Z) : cmd cell := fun b => (inl (cell_at b r c), b).

(** [self.board[r][c] = v]. *)
Definition write_board (r c : Z) (v : cell) : cmd unit :=
  fun b => (inl tt, set_cell b r c v).

(** [if cond: raise ValueError(e)]. *)
Definition raise_if (cond : bool) (e : ValueError) : cmd unit :=
  if cond then raise e else ret tt.

(** [move[i]]; the callers have checked the length. *)
Definition move_item (mv : move) (i : nat) : coord := default (0, 0) (mv !! i).

Definition len (mv : move) : Z := Z.of_nat (length mv).

(** [place_piece]: clear the source when the move has one, then write the
    piece on the destination. *)
Definition place_piece (mv : move) (p : piece) : cmd unit :=
  (if 1 <? len mv
   then write_board (fst (move_item mv 1)) (snd (move_item mv 1)) Empty
   else ret tt) ;;;
  write_board (fst (move_item mv 0)) (snd (move_item mv 0)) (Piece p).

(** [opponent_move]: the checks in the order of the source, then
    [self.place_piece(move, self.opp)]. *)
Definition opponent_move (self : TeekoPlayer) (mv : move) : cmd unit :=
  raise_if (negb ((1 <=? len mv) && (len mv <=? 2))) Invalid_move_format ;;;
  let '(dest_r, dest_c) := move_item mv 0 in
  raise_if (negb ((0 <=? dest_r) && (dest_r <? 5) && (0 <=? dest_c) && (dest_c <? 5)))
    Move_outside_board ;;;
  d <- read_board dest_r dest_c ;;
  raise_if (negb (cell_eqb d Empty)) Destination_occupied ;;;
  (if 1 <? len mv
   then
     let '(src_r, src_c) := move_item mv 1 in
     raise_if (negb ((0 <=? src_r) && (src_r <? 5) && (0 <=? src_c) && (src_c <? 5)))
       Source_outside_board ;;;
     s <- read_board src_r src_c ;;
     raise_if (negb (cell_eqb s (Piece (opp self)))) (No_piece_at_source src_r src_c) ;;;
     raise_if ((1 <? Z.abs (src_r - dest_r)) || (1 <? Z.abs (src_c - dest_c))) Not_adjacent
   else ret tt) ;;;
  place_piece mv (opp self).

(** ** The game at the keyboard

    [get_human_move] and [main] read lines with [input] and print.  The
    lines that [input] will return are an argument, the list [inputs], and a
    function returns the lines it has not read.  What is printed is not part
    of the model, except the lines of [print_board], the final message of
    [main] and the text that names a cell.  A line is a string of one-byte
    characters, read as ASCII text: on it [str.upper] and [str.lower] change
    the 26 letters only. *)

Abbreviation str := String.string.

(** [ord(c)] and [chr(n)] for a one-character string. *)
Definition ord (c : Ascii.ascii) : Z := Z.of_N (Ascii.N_of_ascii c).

Definition chr (n : Z) : Ascii.ascii := Ascii.ascii_of_N (Z.to_N n).

(** [a <= c <= b] on one-character strings. *)
Definition between (a c b : Ascii.ascii) : bool := (ord a <=? ord c) && (ord c <=? ord b).

Definition upper_char (c : Ascii.ascii) : Ascii.ascii :=
  if between "a" c "z" then chr (ord c - 32) else c.

Definition lower_char (c : Ascii.ascii) : Ascii.ascii :=
  if between "A" c "Z" then chr (ord c + 32) else c.

(** [s.upper()] and [s.lower()]. *)
Fixpoint upper (s : str) : str :=
  match s with
  | String.EmptyString => String.EmptyString
  | String.String c rest => String.String (upper_char c) (upper rest)
  end.

Fixpoint lower (s : str) : str :=
  match s with
  | String.EmptyString => String.EmptyString
  | String.String c rest => String.String (lower_char c) (lower rest)
  end.

(** [s[i]]; the callers have checked the length. *)
Definition char_at (s : str) (i : nat) : Ascii.ascii :=
  default Ascii.zero (String.get i s).

(** The test of the three [if] of [get_human_move]:
    [len(s) != 2 or not ('A' <= s[0] <= 'E') or not ('0' <= s[1] <= '4')]. *)
Definition invalid_location (s : str) : bool :=
  negb (Z.of_nat (String.length s) =? 2)
  || negb (between "A" (char_at s 0) "E")
  || negb (between "0" (char_at s 1) "4").

(** [ord(s[0]) - ord('A')]. *)
Definition col_of (s : str) : Z := ord (char_at s 0) - ord "A".

(** [int(s[1])], for a character that is a decimal digit. *)
Definition row_of (s : str) : Z := ord (char_at s 1) - ord "0".

(** [get_human_move(player, is_drop_phase)], with the board of the player
    as [b].  Each round of the [while True] loop reads one line in the drop
    phase, and one or two lines in the move phase; [continue] starts the
    next round.  On a board of five rows of five cells the body raises no
    exception on any line (the characters are read after the length test,
    [int] after the digit test, and the cell after both).  When the
    input is exhausted [input] raises [EOFError], which the last [except]
    clause catches, and the loop goes on for ever: the function does not
    return, which is [None]. *)
Fixpoint get_human_move (b : board) (is_drop_phase : bool) (inputs : list str)
    : option (move * list str) :=
  match inputs with
  | [] => None
  | line :: rest =>
      if is_drop_phase
      then
        let move_str := upper line in
        if invalid_location move_str
        then get_human_move b is_drop_phase rest
        else
          let col := col_of move_str in
          let row := row_of move_str in
          let mv := [(row, col)] in
          if negb (cell_eqb (cell_at b row col) Empty)
          then get_human_move b is_drop_phase rest
          else Some (mv, rest)
      else
        let move_from_str := upper line in
        if invalid_location move_from_str
        then get_human_move b is_drop_phase rest
        else
          match rest with
          | [] => None
          | line' :: rest' =>
              let move_to_str := upper line' in
              if invalid_location move_to_str
              then get_human_move b is_drop_phase rest'
              else
                let from_col := col_of move_from_str in
                let from_row := row_of move_from_str in
                let to_col := col_of move_to_str in
                let to_row := row_of move_to_str in
                let mv := [(to_row, to_col); (from_row, from_col)] in
                Some (mv, rest')
          end
  end.

(** [f"{i}"] for an integer. *)
Definition str_of_int (i : Z) : str := DecimalString.NilZero.string_of_int (Z.to_int i).

(** The text with which [main] and the error message of [opponent_move]
    name the cell [(r, c)]: [f"{chr(c + ord('A'))}{r}"]. *)
Definition location_str (q : coord) : str :=
  String.String (chr (snd q + ord "A")) (str_of_int (fst q)).

(** ** The board on the screen *)

(** The cells of the board are the one-character strings [' '], ['X'] and
    ['O']. *)
Definition cell_char (v : cell) : Ascii.ascii :=
  match v with
  | Empty => " "
  | Piece X => "X"
  | Piece O => "O"
  end.

Definition cell_str (v : cell) : str := String.String (cell_char v) String.EmptyString.

(** [sep.join(xs)]. *)
Fixpoint join (sep : str) (xs : list str) : str :=
  match xs with
  | [] => String.EmptyString
  | [y] => y
  | y :: rest => String.append y (String.append sep (join sep rest))
  end.

(** [print_board]: the lines it prints, in order.  The loop prints the line
    of row [i], [f"{i} | {' | '.join(row)} |"], and a rule after it when
    [i < 4]. *)
Definition print_board (b : board) : list str :=
  let rule := "  +---+---+---+---+---+"%string in
  fold_left
    (fun out '(i, row) =>
       let out :=
         out ++ [String.append (str_of_int (Z.of_nat i))
                   (String.append " | "
                      (String.append (join " | " (cell_str <$> row)) " |"))] in
       if Z.of_nat i <? 4 then out ++ [rule] else out)
    (imap (fun i row => (i, row)) b)
    ["    A   B   C   D   E"%string; rule]
  ++ [rule].

(** ** The main loop *)

(** The class attribute [board], as the class statement builds it:
    [[[' ' for j in range(5)] for i in range(5)]].  All players share this
    list, and [main] never resets it. *)
Definition TeekoPlayer_board : board :=
  (fun _ => (fun _ => Empty) <$> range 5) <$> range 5.

(** The question about the instructions: lines are read until one of them
    is, in lower case, [y], [yes], [n] or [no].  Here the end of the input
    is not caught: [None] stands for the [EOFError] that leaves [main]. *)
Fixpoint show_help_loop (inputs : list str) : option (list str) :=
  match inputs with
  | [] => None
  | line :: rest =>
      let show_help := lower line in
      if String.eqb show_help "y" || String.eqb show_help "yes" then Some rest
      else if String.eqb show_help "n" || String.eqb show_help "no" then Some rest
      else show_help_loop rest
  end.

(** The variables of the loop: the board of the player, [piece_count] and
    [turn]. *)
Record game := {
  the_board : board;
  piece_count : Z;
  turn : Z
}.

(** How a turn ends. *)
Inductive turn_result :=
  | Turn_done (b : board) (inputs : list str)
      (* the move is on the board; the lines not read yet *)
  | Cannot_move
      (* [if not move: ... break] *)
  | Raises_IndexError
      (* [move[1]] in the message about a move of one coordinate *)
  | Never_returns.
      (* [get_human_move] does not return *)

(** The turn of the agent: [make_move], [place_piece], and the message,
    which reads [move[0]] in the drop phase and also [move[1]] otherwise. *)
Definition ai_turn (ai : TeekoPlayer) (is_drop_phase : bool) (rnd : nat)
    (inputs : list str) (b : board) : turn_result :=
  let mv := make_move ai b rnd in
  if len mv =? 0 then Cannot_move
  else
    let b' := snd (place_piece mv (my_piece ai) b) in
    if is_drop_phase then Turn_done b' inputs
    else if len mv <? 2 then Raises_IndexError
    else Turn_done b' inputs.

(** The turn of the human player: [get_human_move] and [opponent_move]
    until a move is accepted.  Every round reads at least one line, so the
    loop makes at most as many rounds as there are lines, and then waits;
    [rounds] bounds the number of rounds, and [main_iteration] gives it one
    more than the number of lines. *)
Fixpoint human_turn (ai : TeekoPlayer) (is_drop_phase : bool) (rounds : nat)
    (inputs : list str) (b : board) : turn_result :=
  match rounds with
  | 0%nat => Never_returns
  | S rounds' =>
      match get_human_move b is_drop_phase inputs with
      | None => Never_returns
      | Some (human_move, rest) =>
          match opponent_move ai human_move b with
          | (inl _, b') => Turn_done b' rest
          | (inr _, b') => human_turn ai is_drop_phase rounds' rest b'
          end
      end
  end.

(** One pass through the body of [while ai.game_value(ai.board) == 0]:
    the next values of the variables and the lines left, or the way the
    turn ended otherwise.  [ai.pieces[turn]] is read with [turn] 0 or 1. *)
Definition main_iteration (ai : TeekoPlayer) (rnd : nat) (inputs : list str) (g : game)
    : game * list str + turn_result :=
  let is_drop_phase := piece_count g <? 8 in
  let current_player_piece := default X (pieces !! Z.to_nat (turn g)) in
  let res :=
    if piece_eqb (my_piece ai) current_player_piece
    then ai_turn ai is_drop_phase rnd inputs (the_board g)
    else human_turn ai is_drop_phase (S (length inputs)) inputs (the_board g) in
  match res with
  | Turn_done b' rest =>
      inl ({| the_board := b';
              piece_count := if is_drop_phase then piece_count g + 1 else piece_count g;
              turn := 1 - turn g |}, rest)
  | _ => inr res
  end.

(** The message after the loop. *)
Inductive message := AI_wins | You_win | Its_a_draw.

Definition final_message (ai : TeekoPlayer) (b : board) : message :=
  if game_value ai b =? 1 then AI_wins
  else if game_value ai b =? -1 then You_win
  else Its_a_draw.

(** What is known of a run of the loop after at most [n] passes. *)
Inductive outcome :=
  | Finished (g : game) (msg : message)
      (* the loop was left, by its condition or by [break] *)
  | IndexError_raised
  | Waiting_for_input
      (* [get_human_move] does not return *)
  | Running (g : game) (inputs : list str).
      (* the loop is about to make pass [n + 1] *)

(** The loop of [main]; [rnd k] is what [random.choice] would draw in pass
    [k]. *)
Fixpoint game_loop (n : nat) (ai : TeekoPlayer) (rnd : nat -> nat) (k : nat)
    (inputs : list str) (g : game) : outcome :=
  if negb (game_value ai (the_board g) =? 0)
  then Finished g (final_message ai (the_board g))
  else
    match n with
    | 0%nat => Running g inputs
    | S n' =>
        match main_iteration ai (rnd k) inputs g with
        | inl (g', rest) => game_loop n' ai rnd (S k) rest g'
        | inr Cannot_move => Finished g (final_message ai (the_board g))
        | inr Raises_IndexError => IndexError_raised
        | inr _ => Waiting_for_input
        end
    end.

(** [main]: the question about the instructions, the new player with the
    piece [choice] drawn by [random.choice], and the loop from
    [piece_count = 0] and [turn = 0] on the board [b] of the class.  [None]
    is the [EOFError] of the first question. *)
Definition main (choice : piece) (rnd : nat -> nat) (inputs : list str) (b : board) (n : nat)
    : option outcome :=
  match show_help_loop inputs with
  | None => None
  | Some rest =>
      let ai := __init__ choice in
      Some (game_loop n ai rnd 0 rest {| the_board := b; piece_count := 0; turn := 0 |})
  end.

(* ===================================================================== *)
(** * Part II.  The search over a store of list objects                   *)
(* ===================================================================== *)

(** In Python a board is a list object whose items are references to row
    objects, and [state_new[r][c] = piece] changes a row object in place:
    whoever holds a reference to that row sees the change.  This part gives
    [copy.deepcopy], [_generate_successors], [_minimax] and [make_move] with
    the store explicit.  The functions that only index the board
    ([game_value], [heuristic_game_value], the piece count) read the board
    out of the store and are those of Part I. *)

Module Store.

Abbreviation loc := nat.

(** A list object: a row of cells, or a board, the list of its rows. *)
Inductive obj :=
  | Row (cells : list cell)
  | Rows (rows : list loc).

Abbreviation store := (gmap loc obj).

(** A computation on the store. *)
Definition M (A : Type) : Type := store -> A * store.

Definition ret {A : Type} (a : A) : M A := fun h => (a, h).

Definition bind {A B : Type} (c : M A) (k : A -> M B) : M B :=
  fun h => let '(a, h') := c h in k a h'.

Declare Scope store_scope.
Notation "x <- c ;; k" := (bind c (fun x => k))
  (at level 100, c at next level, right associativity) : store_scope.
Notation "c ;;; k" := (bind c (fun _ => k))
  (at level 100, right associativity) : store_scope.
Local Open Scope store_scope.

(** A [for] loop that threads its state through the store. *)
Fixpoint foldM {A S : Type} (body : S -> A -> M S) (xs : list A) (s : S) : M S :=
  match xs with
  | [] => ret s
  | y :: rest => s' <- body s y ;; foldM body rest s'
  end.

(** A list built element by element, left to right. *)
Fixpoint mapM {A B : Type} (f : A -> M B) (xs : list A) : M (list B) :=
  match xs with
  | [] => ret []
  | y :: rest => z <- f y ;; zs <- mapM f rest ;; ret (z :: zs)
  end.

(** A new object at a location that the store does not use. *)
Definition alloc (o : obj) : M loc :=
  fun h => let l := fresh (dom h) in (l, <[l := o]> h).

(** The rows of the board object at [state]. *)
Definition get_rows (state : loc) : M (list loc) :=
  fun h => (match h !! state with Some (Rows ls) => ls | _ => [] end, h).

(** The cells of the row object at [l]. *)
Definition get_cells (l : loc) : M (list cell) :=
  fun h => (match h !! l with Some (Row cells) => cells | _ => [] end, h).

(** [state[r][c]]. *)
Definition getitem (state : loc) (r c : Z) : M cell :=
  ls <- get_rows state ;;
  match ls !! Z.to_nat r with
  | Some l => cells <- get_cells l ;; ret (item cells c)
  | None => ret Empty
  end.

(** [state[r][c] = v]: the row object [state[r]] is changed in place. *)
Definition setitem (state : loc) (r c : Z) (v : cell) : M unit :=
  ls <- get_rows state ;;
  match ls !! Z.to_nat r with
  | Some l =>
      cells <- get_cells l ;;
      fun h => (tt, <[l := Row (<[Z.to_nat c := v]> cells)]> h)
  | None => ret tt
  end.

(** [copy.deepcopy(state)]: a new row object for every row, and a new
    board object that lists them.  (A board whose rows are distinct
    objects, as all boards of the program are; [deepcopy] would keep
    shared rows shared.) *)
Definition deepcopy (state : loc) : M loc :=
  ls <- get_rows state ;;
  new_rows <- mapM (fun l => cells <- get_cells l ;; alloc (Row cells)) ls ;;
  alloc (Rows new_rows).

(** The board value stored at [state], for the functions that only read. *)
Definition read_state (state : loc) : M board :=
  ls <- get_rows state ;;
  mapM get_cells ls.

Definition drop_successors (state : loc) (p : piece) : M (list (loc * move)) :=
  foldM
    (fun succs r =>
       foldM
         (fun succs c =>
            v <- getitem state r c ;;
            if cell_eqb v Empty
            then
              state_new <- deepcopy state ;;
              setitem state_new r c (Piece p) ;;;
              ret (succs ++ [(state_new, [(r, c)])])
            else ret succs)
         (range 5) succs)
    (range 5) [].

Definition relocations (state : loc) (p : piece) (r c : Z)
    (succs : list (loc * move)) : M (list (loc * move)) :=
  foldM
    (fun succs dr =>
       foldM
         (fun succs dc =>
            if (dr =? 0) && (dc =? 0) then ret succs
            else
              let r_new := r + dr in
              let c_new := c + dc in
              if (0 <=? r_new) && (r_new <? 5) && (0 <=? c_new) && (c_new <? 5)
              then
                v <- getitem state r_new c_new ;;
                if cell_eqb v Empty
                then
                  state_new <- deepcopy state ;;
                  setitem state_new r c Empty ;;;
                  setitem state_new r_new c_new (Piece p) ;;;
                  ret (succs ++ [(state_new, [(r_new, c_new); (r, c)])])
                else ret succs
              else ret succs)
         [-1; 0; 1] succs)
    [-1; 0; 1] succs.

Definition move_successors (state : loc) (p : piece) : M (list (loc * move)) :=
  foldM
    (fun succs r =>
       foldM
         (fun succs c =>
            v <- getitem state r c ;;
            if cell_eqb v (Piece p)
            then relocations state p r c succs
            else ret succs)
         (range 5) succs)
    (range 5) [].

Definition _generate_successors (self : TeekoPlayer) (state : loc) (p : piece)
    : M (list (loc * move)) :=
  b <- read_state state ;;
  if drop_phase self b then drop_successors state p else move_successors state p.

Fixpoint minimax_plies (self : TeekoPlayer) (n : nat) (state : loc)
    (is_maximizing_player : bool) : M (score * option move) :=
  b <- read_state state ;;
  let game_val := game_value self b in
  if negb (game_val =? 0) then ret (Fin (inject_Z game_val), None)
  else
    match n with
    | 0%nat => ret (Fin (heuristic_game_value self b (my_piece self)), None)
    | S n' =>
        successors <- _generate_successors self state
                        (if is_maximizing_player then my_piece self else opp self) ;;
        if is_maximizing_player
        then
          foldM
            (fun '(max_eval, best_move) '(succ_state, mv) =>
               res <- minimax_plies self n' succ_state false ;;
               let evaluation := fst res in
               ret (if score_ltb max_eval evaluation then (evaluation, Some mv)
                    else (max_eval, best_move)))
            successors (NegInf, None)
        else
          foldM
            (fun '(min_eval, best_move) '(succ_state, mv) =>
               res <- minimax_plies self n' succ_state true ;;
               let evaluation := fst res in
               ret (if score_ltb evaluation min_eval then (evaluation, Some mv)
                    else (min_eval, best_move)))
            successors (PosInf, None)
    end.

Definition _minimax (self : TeekoPlayer) (state : loc) (depth : nat)
    (is_maximizing_player : bool) : M (score * option move) :=
  minimax_plies self (AI_SEARCH_DEPTH self - depth) state is_maximizing_player.

Definition make_move (self : TeekoPlayer) (state : loc) (rnd : nat) : M move :=
  state_copy <- deepcopy state ;;
  res <- _minimax self state_copy 0 true ;;
  match snd res with
  | Some mv => ret mv
  | None =>
      successors <- _generate_successors self state (my_piece self) ;;
      match random_choice rnd successors with
      | Some (_, mv) => ret mv
      | None => ret []
      end
  end.

(** ** Specification side *)

(** [state] refers to a board object whose rows are distinct row objects
    holding the rows of [b]. *)
Definition is_board (h : store) (state : loc) (b : board) : Prop :=
  exists ls, h !! state = Some (Rows ls) /\ NoDup ls
             /\ Forall2 (fun l row => h !! l = Some (Row row)) ls b.

(** The row objects of the board at [state] are not objects of [h0]. *)
Definition rows_outside (h0 h : store) (state : loc) : Prop :=
  h0 !! state = None /\
  exists ls, h !! state = Some (Rows ls) /\ Forall (fun l => h0 !! l = None) ls.

(** A result: the value and the store relate as [Q] says. *)
Definition post {A : Type} (c : M A) (h : store) (Q : A -> store -> Prop) : Prop :=
  Q (fst (c h)) (snd (c h)).

(** The successors in the store stand for the successors on values. *)
Definition same_successors (h : store) (ls : list (loc * move)) (bs : list (board * move))
    : Prop :=
  Forall2 (fun x y => is_board h (fst x) (fst y) /\ snd x = snd y) ls bs.

(** The store that holds just the board [b]: its rows at the locations
    0, 1, ... and the board object after them, at [length b]. *)
Definition load (b : board) : store :=
  list_to_map (zip (seq 0 (length b)) (Row <$> b) ++ [(length b, Rows (seq 0 (length b)))]).

End Store.

(* ===================================================================== *)
(** * Part III.  Specification-side definitions                           *)
(* ===================================================================== *)

(** ** Boards of the game *)

(** A board of the game: five rows of five cells. *)
Definition wf_board (state : board) : Prop :=
  length state = 5%nat /\ Forall (fun row => length row = 5%nat) state.

(** The other piece. *)
Definition other (p : piece) : piece :=
  match p with X => O | O => X end.

(** The 25 coordinates in row-major order. *)
Definition all_coords : list coord :=
  r ← range 5; c ← range 5; [(r, c)].

Definition in_bounds (q : coord) : bool :=
  (0 <=? fst q) && (fst q <? 5) && (0 <=? snd q) && (snd q <? 5).

Definition coord_eqb (a b : coord) : bool :=
  (fst a =? fst b) && (snd a =? snd b).

(** Number of cells of the board holding [v]. *)
Definition count_cells (state : board) (v : cell) : Z :=
  Z.of_nat
    (length (filter (fun q => cell_eqb (cell_at state (fst q) (snd q)) v = true) all_coords)).

(** The indicator of a test. *)
Definition ind (b : bool) : Z := if b then 1 else 0.

(** Total piece count: count of X plus count of O. *)
Definition total_pieces (state : board) : Z :=
  count_cells state (Piece X) + count_cells state (Piece O).

(** ** Windows of the five pattern families *)

Abbreviation window := (list coord).

(** The four cells from [(r, c)] in direction [(dr, dc)]. *)
Definition line_window (r c dr dc : Z) : window :=
  (fun i => (r + i * dr, c + i * dc)) <$> range 4.

(** The 2 x 2 box with top-left corner [(r, c)], scanned row by row. *)
Definition box_window (r c : Z) : window :=
  [(r, c); (r, c + 1); (r + 1, c); (r + 1, c + 1)].

Definition fits (w : window) : bool := forallb in_bounds w.

(** Every window of a family that lies on the board, by its first cell. *)
Definition windows_on_board (mk : Z -> Z -> window) : list window :=
  filter (fun w => fits w = true) (q ← all_coords; [mk (fst q) (snd q)]).

Definition all_windows : list window :=
  windows_on_board (fun r c => line_window r c 0 1)
  ++ windows_on_board (fun r c => line_window r c 1 0)
  ++ windows_on_board (fun r c => line_window r c 1 1)
  ++ windows_on_board (fun r c => line_window r c 1 (-1))
  ++ windows_on_board box_window.

Definition cells_of (state : board) (w : window) : list cell :=
  (fun q => cell_at state (fst q) (snd q)) <$> w.

(** A window is blocked for [p] when one of its cells holds the other piece. *)
Definition blocked (state : board) (p : piece) (w : window) : bool :=
  existsb (fun v => cell_eqb v (Piece (other p))) (cells_of state w).

(** Number of cells of the window holding [p]. *)
Definition own_cells (state : board) (p : piece) (w : window) : Z :=
  count (Piece p) (cells_of state w).

(** The count of a window as the source computes it: the number of own
    cells, or 0 when the window is blocked. *)
Definition window_count (state : board) (p : piece) (w : window) : Z :=
  if blocked state p w then 0 else own_cells state p w.

(** Maximum of a list of counts, at least 0. *)
Definition max_of (xs : list Z) : Z := foldr Z.max 0 xs.

Definition best_count (state : board) (p : piece) : Z :=
  max_of (window_count state p <$> all_windows).

(** A window is complete for [p] when all its cells hold [p]: a winning
    pattern. *)
Definition complete (state : board) (p : piece) (w : window) : bool :=
  forallb (fun v => cell_eqb v (Piece p)) (cells_of state w).

Definition has_pattern (state : board) (p : piece) : Prop :=
  exists w, w ∈ all_windows /\ complete state p w = true.

(** The run count in the words of the specification: scanning the cells of
    the window, count consecutive own-piece occupancy, i.e. the longest run
    of adjacent own cells in scan order; 0 when the window is blocked. *)
Fixpoint longest_run (p : piece) (cells : list cell) (current best : Z) : Z :=
  match cells with
  | [] => Z.max current best
  | v :: rest =>
      if cell_eqb v (Piece p)
      then longest_run p rest (current + 1) best
      else longest_run p rest 0 (Z.max current best)
  end.

Definition run_count (state : board) (p : piece) (w : window) : Z :=
  if blocked state p w then 0 else longest_run p (cells_of state w) 0 0.

Definition best_run_count (state : board) (p : piece) : Z :=
  max_of (run_count state p <$> all_windows).

(** The heuristic of the specification read with run counts. *)
Definition heuristic_by_runs (self : TeekoPlayer) (state : board) : Q :=
  (best_run_count state (my_piece self) - best_run_count state (opp self)) # 4.

(** The two values of the terminal detector that report a winner. *)
Definition is_sign (v : Z) : Prop := v = 1 \/ v = -1.

(** ** Ordering of scores *)

Definition score_lt (a b : score) : Prop := score_ltb a b = true.

(** A score that is a number between -1 and 1. *)
Definition bounded_score (v : score) : Prop :=
  match v with
  | Fin q => (-1 <= q)%Q /\ (q <= 1)%Q
  | _ => False
  end.

(** ** Successors in the words of the specification *)

(** The eight king-move offsets, in the order of the source's two loops. *)
Definition king_offsets : list coord :=
  [(-1, -1); (-1, 0); (-1, 1); (0, -1); (0, 1); (1, -1); (1, 0); (1, 1)].

Definition neighbours (q : coord) : list coord :=
  (fun d => (fst q + fst d, snd q + snd d)) <$> king_offsets.

(** King-move adjacency: both coordinate deltas at most 1, not both zero. *)
Definition king_adjacent (a b : coord) : Prop :=
  Z.abs (fst a - fst b) <= 1 /\ Z.abs (snd a - snd b) <= 1 /\ a <> b.

Definition king_adjacentb (a b : coord) : bool :=
  (Z.abs (fst a - fst b) <=? 1) && (Z.abs (snd a - snd b) <=? 1) && negb (coord_eqb a b).

(** The adjacency test as the source writes it: it only compares the two
    deltas with 1. *)
Definition deltas_within_one (src dst : coord) : bool :=
  negb ((1 <? Z.abs (fst src - fst dst)) || (1 <? Z.abs (snd src - snd dst))).

Definition is_empty (state : board) (q : coord) : bool :=
  cell_eqb (cell_at state (fst q) (snd q)) Empty.

Definition holds (state : board) (p : piece) (q : coord) : bool :=
  cell_eqb (cell_at state (fst q) (snd q)) (Piece p).

(** The successor of a drop on [q]: the cell set to the piece, and the
    descriptor with the destination only. *)
Definition place (state : board) (p : piece) (q : coord) : board * move :=
  (set_cell state (fst q) (snd q) (Piece p), [q]).

(** The successor of a relocation: the source cleared, the destination set,
    and the descriptor with destination then source. *)
Definition relocate (state : board) (p : piece) (src dst : coord) : board * move :=
  (set_cell (set_cell state (fst src) (snd src) Empty) (fst dst) (snd dst) (Piece p),
   [dst; src]).

(** One successor per empty cell, in row-major order. *)
Definition drop_spec (state : board) (p : piece) : list (board * move) :=
  place state p <$> filter (fun q => is_empty state q = true) all_coords.

(** One successor per own cell and empty in-bounds king-move neighbour. *)
Definition move_spec (state : board) (p : piece) : list (board * move) :=
  src ← filter (fun q => holds state p q = true) all_coords;
  relocate state p src
    <$> filter (fun q => in_bounds q && is_empty state q = true) (neighbours src).

(** ** Positions of alternating play *)

(** Piece counts of a position of correct play in which the side given by
    [agent_to_move] moves next: nobody has more than four pieces, and the
    side to move has as many pieces as the other side or one less. *)
Definition turn_consistent (self : TeekoPlayer) (state : board) (agent_to_move : bool) : Prop :=
  let a := count_cells state (Piece (my_piece self)) in
  let b := count_cells state (Piece (opp self)) in
  if agent_to_move
  then a <= b <= a + 1 /\ b <= 4
  else b <= a <= b + 1 /\ a <= 4.


(** The piece that moves at a node. *)
Definition mover (self : TeekoPlayer) (is_max : bool) : piece :=
  if is_max then my_piece self else opp self.

(** The successors of a node and the score the search gives to a child. *)
Definition children (self : TeekoPlayer) (state : board) (is_max : bool) : list (board * move) :=
  _generate_successors self state (mover self is_max).

Definition child_score (self : TeekoPlayer) (depth : nat) (is_max : bool) (s : board) : score :=
  fst (_minimax self s (depth + 1) (negb is_max)).

(** [b] is strictly better than [a] for the player at the node: strictly
    greater for the maximizing player, strictly smaller for the minimizing
    one. *)
Definition strictly_better (is_max : bool) (a b : score) : Prop :=
  if is_max then score_lt a b else score_lt b a.

(** The value a loop starts from: [-inf] when maximizing, [inf] when
    minimizing. *)
Definition sentinel (is_max : bool) : score :=
  if is_max then NegInf else PosInf.

(** ** Blocked groups of pieces *)

(** The sublists of [l] of length [k]. *)
Fixpoint sublists_k {A : Type} (k : nat) (l : list A) : list (list A) :=
  match k, l with
  | 0%nat, _ => [[]]
  | S _, [] => []
  | S k', y :: l' => (cons y <$> sublists_k k' l') ++ sublists_k k l'
  end.

Definition memb (q : coord) (s : list coord) : bool := existsb (coord_eqb q) s.

(** The cells of the board next to a cell of [s] and outside [s]. *)
Definition boundary (s : list coord) : list coord :=
  filter (fun q => negb (memb q s) && existsb (fun t => king_adjacentb t q) s = true) all_coords.



(** Eight groups of three cells, no cell in two groups: the first cell of a
    group is next to the other two. *)
Definition open_triples : list (coord * coord * coord) :=
  [((0, 1), (0, 0), (0, 2)); ((1, 1), (1, 0), (1, 2)); ((2, 1), (2, 0), (2, 2));
   ((3, 1), (3, 0), (3, 2)); ((4, 1), (4, 0), (4, 2));
   ((0, 4), (0, 3), (1, 4)); ((2, 3), (1, 3), (2, 4)); ((3, 4), (3, 3), (4, 4))].

Definition triple_cells (t : coord * coord * coord) : list coord :=
  [fst (fst t); snd (fst t); snd t].

(** ** The validator in the words of the specification *)

(** The conditions of [validate_and_apply], in their order. *)
Inductive condition :=
  | Coordinate_count | Destination_in_bounds | Destination_empty
  | Source_in_bounds | Source_owned | Adjacent.

Definition is_relocation (mv : move) : bool := (length mv =? 2)%nat.

(** Whether a condition holds for a move on a board. *)
Definition condition_holds (self : TeekoPlayer) (state : board) (mv : move) (c : condition)
    : bool :=
  let dst := move_item mv 0 in
  let src := move_item mv 1 in
  match c with
  | Coordinate_count => (length mv =? 1)%nat || (length mv =? 2)%nat
  | Destination_in_bounds => in_bounds dst
  | Destination_empty => is_empty state dst
  | Source_in_bounds => negb (is_relocation mv) || in_bounds src
  | Source_owned => negb (is_relocation mv) || holds state (opp self) src
  | Adjacent => negb (is_relocation mv) || king_adjacentb src dst
  end.

Definition conditions : list condition :=
  [Coordinate_count; Destination_in_bounds; Destination_empty;
   Source_in_bounds; Source_owned; Adjacent].

(** The first condition, in order, that fails. *)
Definition first_failure (self : TeekoPlayer) (state : board) (mv : move) : option condition :=
  find (fun c => negb (condition_holds self state mv c)) conditions.

(** The failure reported for each condition. *)
Definition failure_of (mv : move) (c : condition) : ValueError :=
  match c with
  | Coordinate_count => Invalid_move_format
  | Destination_in_bounds => Move_outside_board
  | Destination_empty => Destination_occupied
  | Source_in_bounds => Source_outside_board
  | Source_owned => No_piece_at_source (fst (move_item mv 1)) (snd (move_item mv 1))
  | Adjacent => Not_adjacent
  end.

(** ** Proof support: the windows in the order the source visits them *)

(** The windows that the body of the double loop of [heuristic_game_value]
    looks at for the position [(i, j)]. *)
Definition step_windows (i j : Z) : list window :=
  (if j <=? 1 then [line_window i j 0 1] else [])
  ++ (if i <=? 1 then [line_window i j 1 0] else [])
  ++ (if (i <=? 1) && (j <=? 1) then [line_window i j 1 1] else [])
  ++ (if (i <=? 1) && (3 <=? j) then [line_window i j 1 (-1)] else [])
  ++ (if (i <? 4) && (j <? 4) then [box_window i j] else []).

Definition scan_windows : list window :=
  i ← range 5; j ← range 5; step_windows i j.

(** One update of [(my_val, opp_val)] with the counts of a window. *)
Definition max_step (self : TeekoPlayer) (state : board) (acc : Z * Z) (w : window) : Z * Z :=
  (Z.max (fst acc) (window_count state (my_piece self) w),
   Z.max (snd acc) (window_count state (opp self) w)).

(** ** Proof support: the selection loop of both players *)

(** [max_loop] and [min_loop] are the same loop for two orders: the incumbent
    is replaced when the new evaluation is strictly better. *)
Definition select_loop (better : score -> score -> bool) (init : score)
    (eval : board -> score) (successors : list (board * move)) : score * option move :=
  fold_left
    (fun '(best_eval, best_move) '(succ_state, mv) =>
       let evaluation := eval succ_state in
       if better best_eval evaluation then (evaluation, Some mv)
       else (best_eval, best_move))
    successors (init, None).

(** State of the loop after the successors [done]: [best] is no worse than
    any of them; without incumbent move [best] is still the initial value;
    with one, it is the score of the first successor that reached it. *)
Definition select_inv (better : score -> score -> bool) (init : score)
    (eval : board -> score) (done : list (board * move)) (st : score * option move) : Prop :=
  (forall s m, (s, m) ∈ done -> better (fst st) (eval s) = false)
  /\ match snd st with
     | None => fst st = init
     | Some m =>
         exists (i : nat) s,
           done !! i = Some (s, m) /\ fst st = eval s
           /\ forall (j : nat) s' m', (j < i)%nat -> done !! j = Some (s', m') ->
                better (eval s') (eval s) = true
     end.

(** [b] is strictly better than [a] for the maximizing player. *)
Definition better_max (a b : score) : bool := score_ltb a b.

(** [b] is strictly better than [a] for the minimizing player. *)
Definition better_min (a b : score) : bool := score_ltb b a.

(** The result of the search at an inner node, from the scores of the
    children. *)
Definition node_choice (is_maximizing_player : bool) (eval : board -> score)
    (successors : list (board * move)) : score * option move :=
  if is_maximizing_player then max_loop eval successors else min_loop eval successors.

(** ** Boards used as examples *)

Definition empty_board : board := replicate 5 (replicate 5 Empty).

(** Pieces on the given cells of an empty board. *)
Definition with_pieces (p : piece) (qs : list coord) (state : board) : board :=
  fold_left (fun b q => set_cell b (fst q) (snd q) (Piece p)) qs state.

(** The end-to-end scenario in a position of play: X on (0,0), (0,1), (0,2)
    with (0,3) empty, and three pieces of O elsewhere. *)
Definition three_in_row_board : board :=
  with_pieces O [(2, 1); (3, 3); (4, 0)]
    (with_pieces X [(0, 0); (0, 1); (0, 2)] empty_board).

(** The end-to-end scenario as the specification words it: X on (0,0),
    (0,1), (0,2) and nothing else. *)
Definition scenario_board : board :=
  with_pieces X [(0, 0); (0, 1); (0, 2)] empty_board.


(** A board that X has already won. *)
Definition won_board : board :=
  with_pieces X [(0, 0); (0, 1); (0, 2); (0, 3)] empty_board.

(** One piece of X on (0,1) whose only free neighbour is the corner (0,0),
    among seven pieces of O. *)
Definition trapped_board : board :=
  with_pieces O [(0, 2); (1, 0); (1, 1); (1, 2); (4, 0); (4, 2); (4, 4)]
    (with_pieces X [(0, 1)] empty_board).

(** One piece of X on (0,1) with two free neighbours, (0,0) and (1,2), among
    eight pieces of O; no window is complete. *)
Definition cornered_board : board :=
  with_pieces O [(0, 2); (0, 3); (1, 0); (1, 1); (1, 3); (2, 1); (2, 2); (2, 3)]
    (with_pieces X [(0, 1)] empty_board).

(** Two pieces of X on (0,0) and (0,2), with a gap between them. *)
Definition gapped_board : board :=
  with_pieces X [(0, 0); (0, 2)] empty_board.

(** A position of the move phase: four pieces each. *)
Definition move_phase_board : board :=
  with_pieces O [(1, 1); (2, 3); (3, 0); (4, 4)]
    (with_pieces X [(0, 0); (1, 3); (2, 2); (4, 1)] empty_board).

(** ** The game at the keyboard *)

(** The cell that a line names, once it is in upper case. *)
Definition location_of (line : str) : coord := (row_of (upper line), col_of (upper line)).

(** A line that [get_human_move] takes as a move of the drop phase: it names
    a cell of the board, and the cell is empty. *)
Definition acceptable (b : board) (line : str) : bool :=
  negb (invalid_location (upper line)) && is_empty b (location_of line).

(** Two lines that differ in the case of their letters only. *)
Definition same_letters (line line' : str) : Prop := upper line = upper line'.

(** The piece that moves in the pass that starts in [g], [pieces[turn]]. *)
Definition current_piece (g : game) : piece := default X (pieces !! Z.to_nat (turn g)).

(** Whether the agent moves in that pass. *)
Definition agent_to_move (ai : TeekoPlayer) (g : game) : bool :=
  piece_eqb (my_piece ai) (current_piece g).

(** What holds of the variables of the loop before every pass: the board is
    five by five, [turn] is 0 or 1, [piece_count] is the number of pieces on
    the board, and the piece counts are those of alternating play with the
    owner of [pieces[turn]] to move. *)
Definition game_inv (ai : TeekoPlayer) (g : game) : Prop :=
  wf_board (the_board g)
  /\ (turn g = 0 \/ turn g = 1)
  /\ piece_count g = total_pieces (the_board g)
  /\ turn_consistent ai (the_board g) (agent_to_move ai g).

(** The variables at the start of [main]. *)
Definition initial_game (b : board) : game :=
  {| the_board := b; piece_count := 0; turn := 0 |}.

(** The variables of the loop in an outcome, when it has them. *)
Definition state_of (o : outcome) : option game :=
  match o with
  | Finished g _ | Running g _ => Some g
  | _ => None
  end.

(* ===================================================================== *)
(** * Part IV.  Lemmas                                                    *)
(* ===================================================================== *)

(** ** Players, cells and indexing *)

Lemma my_piece_player mp D : my_piece (player mp D) = mp.
Proof. reflexivity. Qed.

Lemma opp_player mp D : opp (player mp D) = other mp.
Proof. by destruct mp. Qed.

Lemma depth_player mp D : AI_SEARCH_DEPTH (player mp D) = D.
Proof. reflexivity. Qed.

Lemma piece_eqb_eq a b : piece_eqb a b = true <-> a = b.
Proof. destruct a, b; simpl; split; congruence. Qed.

Lemma cell_eqb_eq a b : cell_eqb a b = true <-> a = b.
Proof.
  destruct a as [|p], b as [|q]; simpl; try (split; congruence).
  rewrite piece_eqb_eq. split; congruence.
Qed.

Lemma cell_eqb_neq a b : cell_eqb a b = false <-> a <> b.
Proof.
  rewrite <- cell_eqb_eq. destruct (cell_eqb a b); split; congruence.
Qed.

Lemma elem_of_range n z : z ∈ range n <-> 0 <= z < Z.of_nat n.
Proof.
  unfold range. rewrite list_elem_of_fmap. split.
  - intros (k & -> & Hk). apply elem_of_seq in Hk. lia.
  - intros H. exists (Z.to_nat z). split; [lia|]. apply elem_of_seq. lia.
Qed.

(** ** Windows and the two counting helpers *)

Ltac case_cell c := destruct c as [|[|]].

Lemma count_line_window state r c dr dc p :
  _count_line state r c dr dc p = window_count state p (line_window r c dr dc).
Proof.
  unfold _count_line, window_count, blocked, own_cells, cells_of, line_window, count.
  change (range 4) with [0; 1; 2; 3].
  cbn [fmap list_fmap for_loop returning fst snd existsb].
  generalize (cell_at state (r + 0 * dr) (c + 0 * dc))
             (cell_at state (r + 1 * dr) (c + 1 * dc))
             (cell_at state (r + 2 * dr) (c + 2 * dc))
             (cell_at state (r + 3 * dr) (c + 3 * dc)).
  intros c0 c1 c2 c3.
  destruct p; case_cell c0; case_cell c1; case_cell c2; case_cell c3; reflexivity.
Qed.

Lemma count_box_window state r c p :
  _count_box state r c p = window_count state p (box_window r c).
Proof.
  unfold _count_box, window_count, blocked, own_cells, cells_of, box_window, count.
  change (range 2) with [0; 1].
  cbn [fmap list_fmap for_loop returning fst snd existsb].
  rewrite !Z.add_0_r.
  generalize (cell_at state r c) (cell_at state r (c + 1))
             (cell_at state (r + 1) c) (cell_at state (r + 1) (c + 1)).
  intros c0 c1 c2 c3.
  destruct p; case_cell c0; case_cell c1; case_cell c2; case_cell c3; reflexivity.
Qed.

(** ** The heuristic as a maximum over windows *)

Lemma heuristic_step_windows self state i j acc :
  heuristic_step self state i j acc
  = fold_left (max_step self state) (step_windows i j) acc.
Proof.
  unfold heuristic_step, step_windows.
  rewrite !fold_left_app.
  destruct (j <=? 1), (i <=? 1), (3 <=? j), (i <? 4), (j <? 4); cbn [andb fold_left];
    unfold max_step; cbn [fst snd];
    rewrite ?count_line_window, ?count_box_window; reflexivity.
Qed.

Lemma fold_left_bind {A B C : Type} (f : A -> C -> A) (h : B -> list C) (l : list B) (a : A) :
  fold_left f (l ≫= h) a = fold_left (fun a y => fold_left f (h y) a) l a.
Proof.
  revert a. induction l as [|y l IH]; intros a; [reflexivity|].
  cbn [mbind list_bind fold_left]. rewrite fold_left_app. apply IH.
Qed.

Lemma fold_left_pointwise {A B : Type} (f g : A -> B -> A) (l : list B) (a : A) :
  (forall a y, f a y = g a y) -> fold_left f l a = fold_left g l a.
Proof.
  intros Hfg. revert a. induction l as [|y l IH]; intros a; [reflexivity|].
  cbn [fold_left]. rewrite Hfg. apply IH.
Qed.

Lemma heuristic_counts_scan self state :
  heuristic_counts self state = fold_left (max_step self state) scan_windows (0, 0).
Proof.
  unfold heuristic_counts, scan_windows.
  rewrite fold_left_bind. apply fold_left_pointwise. intros acc i.
  rewrite fold_left_bind. apply fold_left_pointwise. intros acc' j.
  apply heuristic_step_windows.
Qed.

Lemma max_of_lub xs m : max_of xs <= m <-> 0 <= m /\ Forall (fun y => y <= m) xs.
Proof.
  induction xs as [|y xs IH]; cbn [max_of foldr].
  - split; [intros; split; [lia|constructor] | intros [? _]; lia].
  - fold (max_of xs). rewrite Forall_cons, Z.max_lub_iff, IH. tauto.
Qed.

Lemma max_of_nonneg xs : 0 <= max_of xs.
Proof. pose proof (proj1 (max_of_lub xs (max_of xs)) ltac:(lia)). tauto. Qed.

Lemma max_of_upper xs y : y ∈ xs -> y <= max_of xs.
Proof.
  intros Hin. pose proof (proj1 (max_of_lub xs (max_of xs)) ltac:(lia)) as [_ H].
  rewrite Forall_forall in H. by apply H.
Qed.

Lemma max_of_bound xs m : 0 <= m -> (forall y, y ∈ xs -> y <= m) -> max_of xs <= m.
Proof. intros H0 H. apply max_of_lub. split; [done|]. by apply Forall_forall. Qed.

(** The maximum depends only on the set of elements. *)
Lemma max_of_subseteq {A : Type} (f : A -> Z) (l1 l2 : list A) :
  l1 ⊆ l2 -> max_of (f <$> l1) <= max_of (f <$> l2).
Proof.
  intros Hsub. apply max_of_bound; [apply max_of_nonneg|].
  intros y (w & -> & Hw)%list_elem_of_fmap.
  apply max_of_upper, list_elem_of_fmap. exists w. split; [done|]. by apply Hsub.
Qed.

Lemma fold_max_step self state ws a b :
  0 <= a -> 0 <= b ->
  fold_left (max_step self state) ws (a, b)
  = (Z.max a (max_of (window_count state (my_piece self) <$> ws)),
     Z.max b (max_of (window_count state (opp self) <$> ws))).
Proof.
  revert a b. induction ws as [|w ws IH]; intros a b Ha Hb;
    cbn [fold_left fmap list_fmap max_of foldr].
  - f_equal; lia.
  - unfold max_step at 2. cbn [fst snd]. rewrite IH by lia.
    fold (max_of (window_count state (my_piece self) <$> ws)).
    fold (max_of (window_count state (opp self) <$> ws)).
    pose proof (max_of_nonneg (window_count state (my_piece self) <$> ws)).
    pose proof (max_of_nonneg (window_count state (opp self) <$> ws)).
    f_equal; lia.
Qed.

Lemma scan_windows_sub : scan_windows ⊆ all_windows.
Proof.
  intros w. revert w. apply Forall_forall.
  apply (bool_decide_eq_true_1 (Forall (fun w => w ∈ all_windows) scan_windows)).
  vm_compute. reflexivity.
Qed.

Lemma all_windows_sub : all_windows ⊆ scan_windows.
Proof.
  intros w. revert w. apply Forall_forall.
  apply (bool_decide_eq_true_1 (Forall (fun w => w ∈ scan_windows) all_windows)).
  vm_compute. reflexivity.
Qed.

Lemma max_of_scan_windows (f : window -> Z) :
  max_of (f <$> scan_windows) = max_of (f <$> all_windows).
Proof.
  apply Z.le_antisymm; apply max_of_subseteq;
    [apply scan_windows_sub | apply all_windows_sub].
Qed.

(** The pair computed by the loops: each side's best window count. *)
Lemma heuristic_counts_best self state :
  heuristic_counts self state
  = (best_count state (my_piece self), best_count state (opp self)).
Proof.
  rewrite heuristic_counts_scan, fold_max_step, !max_of_scan_windows by lia.
  unfold best_count.
  pose proof (max_of_nonneg (window_count state (my_piece self) <$> all_windows)).
  pose proof (max_of_nonneg (window_count state (opp self) <$> all_windows)).
  f_equal; lia.
Qed.

(** A window count lies between 0 and the number of cells of the window. *)
Lemma count_filter_bound (v : cell) (cells : list cell) :
  0 <= count v cells <= Z.of_nat (length cells).
Proof.
  unfold count. pose proof (length_filter (fun y => cell_eqb y v = true) cells). lia.
Qed.

Lemma window_count_bound state p w :
  0 <= window_count state p w <= Z.of_nat (length w).
Proof.
  unfold window_count, own_cells. destruct (blocked state p w); [lia|].
  pose proof (count_filter_bound (Piece p) (cells_of state w)) as H.
  unfold cells_of in H. rewrite length_fmap in H. exact H.
Qed.

Lemma all_windows_length : Forall (fun w : window => length w = 4%nat) all_windows.
Proof.
  apply (bool_decide_eq_true_1 (Forall (fun w : window => length w = 4%nat) all_windows)).
  vm_compute. reflexivity.
Qed.

Lemma best_count_bound state p : 0 <= best_count state p <= 4.
Proof.
  unfold best_count. split; [apply max_of_nonneg|].
  apply max_of_bound; [lia|].
  intros y (w & -> & Hw)%list_elem_of_fmap.
  pose proof (window_count_bound state p w) as H.
  pose proof all_windows_length as Hlen. rewrite Forall_forall in Hlen.
  rewrite (Hlen w Hw) in H. lia.
Qed.

Lemma heuristic_bounds self state p :
  (-1 <= heuristic_game_value self state p)%Q /\ (heuristic_game_value self state p <= 1)%Q.
Proof.
  unfold heuristic_game_value. rewrite heuristic_counts_best.
  pose proof (best_count_bound state (my_piece self)).
  pose proof (best_count_bound state (opp self)).
  unfold Qle; cbn [Qnum Qden]. lia.
Qed.

(** ** The order on scores *)

Lemma Qle_bool_false x y : Qle_bool x y = false <-> (y < x)%Q.
Proof.
  rewrite <- not_true_iff_false, Qle_bool_iff. split.
  - apply Qnot_le_lt.
  - apply Qlt_not_le.
Qed.

Lemma score_ltb_irrefl a : score_ltb a a = false.
Proof.
  destruct a as [|q|]; simpl; try reflexivity.
  apply negb_false_iff, Qle_bool_iff, Qle_refl.
Qed.

(** [a <= b] and [b < c] give [a < c]. *)
Lemma score_le_lt_trans a b c :
  score_ltb b a = false -> score_ltb b c = true -> score_ltb a c = true.
Proof.
  destruct a as [|x|], b as [|y|], c as [|z|]; simpl; try congruence.
  rewrite !negb_false_iff, !negb_true_iff, !Qle_bool_false, Qle_bool_iff.
  intros H1 H2. eapply Qle_lt_trans; eassumption.
Qed.

(** [a < b] and [b <= c] give [a < c]. *)
Lemma score_lt_le_trans a b c :
  score_ltb a b = true -> score_ltb c b = false -> score_ltb a c = true.
Proof.
  destruct a as [|x|], b as [|y|], c as [|z|]; simpl; try congruence.
  rewrite !negb_false_iff, !negb_true_iff, !Qle_bool_false, Qle_bool_iff.
  intros H1 H2. eapply Qlt_le_trans; eassumption.
Qed.

Lemma score_lt_le a b : score_ltb a b = true -> score_ltb b a = false.
Proof.
  destruct a as [|x|], b as [|y|]; simpl; try congruence.
  rewrite negb_false_iff, negb_true_iff, Qle_bool_false, Qle_bool_iff.
  apply Qlt_le_weak.
Qed.

(** ** The selection loop *)

Lemma max_loop_select eval succs : max_loop eval succs = select_loop better_max NegInf eval succs.
Proof. reflexivity. Qed.

Lemma min_loop_select eval succs : min_loop eval succs = select_loop better_min PosInf eval succs.
Proof. reflexivity. Qed.

Section SelectLoop.
Variable better : score -> score -> bool.
Variable init : score.
Hypothesis better_irrefl : forall a, better a a = false.
Hypothesis better_trans :
  forall a b c, better b a = false -> better b c = true -> better a c = true.
Hypothesis better_weak : forall a b, better a b = true -> better b a = false.
Hypothesis init_worst : forall a, better a init = false.

Variable eval : board -> score.

Lemma select_loop_snoc succs sm :
  select_loop better init eval (succs ++ [sm])
  = (let '(best_eval, best_move) := select_loop better init eval succs in
     let '(succ_state, mv) := sm in
     if better best_eval (eval succ_state) then (eval succ_state, Some mv)
     else (best_eval, best_move)).
Proof.
  unfold select_loop. rewrite fold_left_app. cbn [fold_left].
  destruct (fold_left _ succs (init, None)) as [v bm]. by destruct sm.
Qed.

Lemma select_loop_inv succs :
  select_inv better init eval succs (select_loop better init eval succs).
Proof.
  induction succs as [|[s0 m0] succs IH] using rev_ind.
  - split; [intros s m H; inversion H | reflexivity].
  - rewrite select_loop_snoc.
    destruct (select_loop better init eval succs) as [v bm].
    destruct IH as [Hub Hbm]. cbn [fst snd] in *.
    destruct (better v (eval s0)) eqn:Hb.
    + split; cbn [fst snd].
      * intros s m [Hin | Heq%list_elem_of_singleton]%elem_of_app.
        -- apply better_weak. eapply better_trans; [|exact Hb].
           eapply Hub; eassumption.
        -- injection Heq as -> ->. apply better_irrefl.
      * exists (length succs), s0. split; [|split; [reflexivity|]].
        -- rewrite lookup_app_r by lia. by rewrite Nat.sub_diag.
        -- intros j s' m' Hj Hlk. rewrite lookup_app_l in Hlk by lia.
           eapply better_trans; [|exact Hb].
           eapply Hub, list_elem_of_lookup_2; eassumption.
    + split; cbn [fst snd].
      * intros s m [Hin | Heq%list_elem_of_singleton]%elem_of_app.
        -- eapply Hub; eassumption.
        -- injection Heq as -> ->. exact Hb.
      * destruct bm as [m|]; [|exact Hbm].
        destruct Hbm as (i & s & Hlk & Hv & Hfirst).
        exists i, s. split; [|split; [exact Hv|]].
        -- apply lookup_app_l_Some. exact Hlk.
        -- intros j s' m' Hj Hlk'.
           apply (Hfirst j s' m' Hj).
           pose proof (lookup_lt_Some _ _ _ Hlk).
           rewrite lookup_app_l in Hlk' by lia. exact Hlk'.
Qed.

(** With a successor strictly better than the initial value, the loop
    returns a move. *)
Lemma select_loop_some succs s m :
  (s, m) ∈ succs -> better init (eval s) = true ->
  exists mv, snd (select_loop better init eval succs) = Some mv.
Proof.
  intros Hin Hb. destruct (select_loop_inv succs) as [Hub Hbm].
  destruct (snd (select_loop better init eval succs)) as [mv|]; [eauto|].
  rewrite Hbm in Hub. specialize (Hub s m Hin). congruence.
Qed.
End SelectLoop.

(** ** The recursive equation of the source *)

Lemma _minimax_unfold self state depth is_max :
  (depth <= AI_SEARCH_DEPTH self)%nat ->
  _minimax self state depth is_max
  = let game_val := game_value self state in
    if negb (game_val =? 0) then (Fin (inject_Z game_val), None)
    else if (depth =? AI_SEARCH_DEPTH self)%nat
    then (Fin (heuristic_game_value self state (my_piece self)), None)
    else
      let successors :=
        _generate_successors self state (if is_max then my_piece self else opp self) in
      if is_max
      then max_loop (fun succ_state => fst (_minimax self succ_state (depth + 1) false)) successors
      else min_loop (fun succ_state => fst (_minimax self succ_state (depth + 1) true)) successors.
Proof.
  intros Hd. unfold _minimax. cbv zeta.
  destruct (Nat.eqb_spec depth (AI_SEARCH_DEPTH self)) as [->|Hne].
  - rewrite Nat.sub_diag. simpl. reflexivity.
  - replace (AI_SEARCH_DEPTH self - depth)%nat
      with (S (AI_SEARCH_DEPTH self - (depth + 1)))%nat by lia.
    simpl. reflexivity.
Qed.

(** ** Loops that append to a list *)

Lemma fold_left_append {A B : Type} (step : list B -> A -> list B) (g : A -> list B)
    (l : list A) (acc : list B) :
  (forall acc y, step acc y = acc ++ g y) ->
  fold_left step l acc = acc ++ (l ≫= g).
Proof.
  intros Hstep. revert acc. induction l as [|y l IH]; intros acc; cbn [fold_left mbind list_bind].
  - by rewrite app_nil_r.
  - rewrite Hstep, IH. cbn [mbind list_bind]. by rewrite app_assoc.
Qed.

Lemma bind_filter_fmap {A B : Type} (P : A -> bool) (f : A -> B) (l : list A) :
  (l ≫= fun y => if P y then [f y] else []) = f <$> filter (fun y => P y = true) l.
Proof.
  induction l as [|y l IH]; [reflexivity|].
  cbn [mbind list_bind]. rewrite filter_cons.
  destruct (P y) eqn:E.
  - rewrite decide_True by done. cbn [fmap list_fmap app]. by f_equal.
  - rewrite decide_False by congruence. exact IH.
Qed.

Lemma bind_bind_singleton {A B C : Type} (l1 : list A) (l2 : list B) (g : A * B -> list C) :
  ((y ← l1; z ← l2; [(y, z)]) ≫= g) = (y ← l1; z ← l2; g (y, z)).
Proof.
  induction l1 as [|y l1 IH]; [reflexivity|].
  cbn [mbind list_bind]. rewrite bind_app, IH. f_equal.
  clear. induction l2 as [|z l2 IH]; [reflexivity|].
  cbn [mbind list_bind]. rewrite bind_app, IH. f_equal.
  cbn [mbind list_bind]. apply app_nil_r.
Qed.

(** ** The successor generator *)

Lemma drop_successors_spec state p : drop_successors state p = drop_spec state p.
Proof.
  unfold drop_successors, drop_spec, deepcopy.
  rewrite (fold_left_append _
             (fun r => c ← range 5;
                       if is_empty state (r, c)
                       then [(set_cell state r c (Piece p), [(r, c)])] else [])).
  - cbn [app]. rewrite <- (bind_filter_fmap (is_empty state) (place state p)).
    unfold all_coords. rewrite (bind_bind_singleton (A:=Z) (B:=Z)). reflexivity.
  - intros acc r.
    apply (fold_left_append _
             (fun c => if is_empty state (r, c)
                       then [(set_cell state r c (Piece p), [(r, c)])] else [])).
    intros acc' c. unfold is_empty. cbn [fst snd].
    destruct (cell_eqb (cell_at state r c) Empty); [reflexivity | by rewrite app_nil_r].
Qed.

Lemma relocations_spec state p r c succs :
  relocations state p r c succs
  = succs ++ (relocate state p (r, c)
                <$> filter (fun q => in_bounds q && is_empty state q = true) (neighbours (r, c))).
Proof.
  unfold relocations, deepcopy.
  rewrite <- (bind_filter_fmap (fun q => in_bounds q && is_empty state q)).
  set (body := fun d : coord =>
         if in_bounds (r + fst d, c + snd d) && is_empty state (r + fst d, c + snd d)
         then [relocate state p (r, c) (r + fst d, c + snd d)] else []).
  rewrite (fold_left_append _
             (fun dr => dc ← [-1; 0; 1]; if (dr =? 0) && (dc =? 0) then [] else body (dr, dc))).
  - f_equal. unfold neighbours, king_offsets. cbn [mbind list_bind fmap list_fmap fst snd].
    cbn [Z.eqb andb app]. unfold body. cbn [fst snd]. rewrite !app_nil_r.
    rewrite <- !app_assoc. reflexivity.
  - intros acc dr.
    apply (fold_left_append _ (fun dc => if (dr =? 0) && (dc =? 0) then [] else body (dr, dc))).
    intros acc' dc. destruct ((dr =? 0) && (dc =? 0)); [by rewrite app_nil_r|].
    unfold body, in_bounds, is_empty. cbn [fst snd].
    destruct (_ && cell_eqb _ _); [reflexivity | by rewrite app_nil_r].
Qed.

Lemma move_successors_spec state p : move_successors state p = move_spec state p.
Proof.
  unfold move_successors, move_spec.
  set (g := fun src : coord =>
         relocate state p src
           <$> filter (fun q => in_bounds q && is_empty state q = true) (neighbours src)).
  rewrite (fold_left_append _
             (fun r => c ← range 5; if holds state p (r, c) then g (r, c) else [])).
  - cbn [app].
    transitivity (all_coords ≫= fun q => if holds state p q then g q else []).
    + unfold all_coords. by rewrite (bind_bind_singleton (A:=Z) (B:=Z)).
    + generalize all_coords. intros l. induction l as [|q l IH]; [reflexivity|].
      cbn [mbind list_bind]. rewrite filter_cons. destruct (holds state p q) eqn:E.
      * rewrite decide_True by done. cbn [mbind list_bind]. by rewrite IH.
      * rewrite decide_False by congruence. exact IH.
  - intros acc r.
    apply (fold_left_append _ (fun c => if holds state p (r, c) then g (r, c) else [])).
    intros acc' c. unfold holds. cbn [fst snd].
    destruct (cell_eqb (cell_at state r c) (Piece p)); [|by rewrite app_nil_r].
    apply relocations_spec.
Qed.

(** ** Boards of five rows of five cells *)

Lemma length_5_inv {A : Type} (l : list A) :
  length l = 5%nat -> exists a b c d e, l = [a; b; c; d; e].
Proof.
  destruct l as [|a [|b [|c [|d [|e [|? ?]]]]]]; simpl; try discriminate. eauto 6.
Qed.

Lemma wf_board_row state (r : Z) :
  wf_board state -> 0 <= r < 5 ->
  exists row, state !! Z.to_nat r = Some row /\ length row = 5%nat.
Proof.
  intros [Hlen Hrows] Hr.
  destruct (lookup_lt_is_Some_2 state (Z.to_nat r)) as [row Hrow]; [lia|].
  exists row. split; [exact Hrow|].
  rewrite Forall_forall in Hrows. eapply Hrows, list_elem_of_lookup_2, Hrow.
Qed.

Lemma wf_set_cell state r c v : wf_board state -> wf_board (set_cell state r c v).
Proof.
  intros [Hlen Hrows]. unfold set_cell. split.
  - etrans; [apply length_alter | exact Hlen].
  - apply Forall_alter; [exact Hrows|]. intros row _ Hrow. by rewrite length_insert.
Qed.

Lemma cell_at_set_cell state r c v r' c' :
  wf_board state -> 0 <= r < 5 -> 0 <= c < 5 -> 0 <= r' -> 0 <= c' ->
  cell_at (set_cell state r c v) r' c'
  = if (r' =? r) && (c' =? c) then v else cell_at state r' c'.
Proof.
  intros Hwf Hr Hc Hr' Hc'. unfold cell_at, set_cell, item.
  destruct (wf_board_row state r Hwf Hr) as (row & Hrow & Hlen).
  destruct (Z.eqb_spec r' r) as [->|Hne]; cbn [andb].
  - rewrite list_lookup_alter_eq, Hrow. cbn [fmap option_fmap option_map default id].
    destruct (Z.eqb_spec c' c) as [->|Hnc].
    + rewrite list_lookup_insert_eq by lia. reflexivity.
    + rewrite list_lookup_insert_ne by lia. reflexivity.
  - rewrite list_lookup_alter_ne by lia. reflexivity.
Qed.

Lemma cell_at_set_cell_same state r c v :
  wf_board state -> 0 <= r < 5 -> 0 <= c < 5 -> cell_at (set_cell state r c v) r c = v.
Proof.
  intros. rewrite cell_at_set_cell by (assumption || lia). by rewrite !Z.eqb_refl.
Qed.

(** ** The coordinates of the board *)

Lemma elem_of_all_coords q : q ∈ all_coords <-> 0 <= fst q < 5 /\ 0 <= snd q < 5.
Proof.
  unfold all_coords. rewrite list_elem_of_bind. split.
  - intros (r & (c & Hq & Hc)%list_elem_of_bind & Hr).
    apply list_elem_of_singleton in Hq as ->.
    apply elem_of_range in Hr, Hc. cbn [fst snd]. lia.
  - intros [Hr Hc]. exists (fst q). split; [|apply elem_of_range; lia].
    apply list_elem_of_bind. exists (snd q). split; [|apply elem_of_range; lia].
    destruct q. apply list_elem_of_singleton. reflexivity.
Qed.

Lemma in_bounds_spec q : in_bounds q = true <-> 0 <= fst q < 5 /\ 0 <= snd q < 5.
Proof. unfold in_bounds. rewrite !andb_true_iff. lia. Qed.

Lemma in_bounds_all_coords q : in_bounds q = true <-> q ∈ all_coords.
Proof. by rewrite in_bounds_spec, elem_of_all_coords. Qed.

Lemma NoDup_all_coords : NoDup all_coords.
Proof. apply (bool_decide_eq_true_1 (NoDup all_coords)). vm_compute. reflexivity. Qed.

Lemma coord_eqb_eq a b : coord_eqb a b = true <-> a = b.
Proof.
  destruct a, b. unfold coord_eqb. cbn [fst snd]. rewrite andb_true_iff, !Z.eqb_eq.
  split; [intros [-> ->]; reflexivity | intros [= -> ->]; done].
Qed.

(** ** Counting cells *)

(** Changing a predicate at one element of a duplicate-free list changes the
    number of elements that satisfy it by the two indicators. *)
Lemma filter_length_same {A : Type} (f g : A -> bool) (l : list A) :
  (forall q, q ∈ l -> g q = f q) ->
  length (filter (fun q => g q = true) l) = length (filter (fun q => f q = true) l).
Proof.
  induction l as [|y l IH]; intros H; [reflexivity|].
  rewrite !filter_cons, (H y) by left.
  destruct (decide (f y = true)); cbn [length]; rewrite IH; auto; intros; apply H; by right.
Qed.

Lemma filter_length_update {A : Type} (f g : A -> bool) (l : list A) (q0 : A) :
  NoDup l -> q0 ∈ l -> (forall q, q ∈ l -> q <> q0 -> g q = f q) ->
  Z.of_nat (length (filter (fun q => g q = true) l)) + ind (f q0)
  = Z.of_nat (length (filter (fun q => f q = true) l)) + ind (g q0).
Proof.
  induction l as [|y l IH]; intros Hnd Hin H; [inversion Hin|].
  apply NoDup_cons in Hnd as [Hy Hnd]. rewrite !filter_cons.
  apply elem_of_cons in Hin as [->|Hin].
  - assert (length (filter (fun q => g q = true) l) = length (filter (fun q => f q = true) l))
      as Hsame.
    { apply filter_length_same. intros q Hq. apply H; [by right|]. intros ->. contradiction. }
    destruct (f y), (g y); cbn [ind]; repeat case_decide; try congruence;
      cbn [length]; lia.
  - assert (y <> q0) as Hne by (intros ->; contradiction).
    rewrite (H y) by (done || left).
    assert (forall q, q ∈ l -> q <> q0 -> g q = f q) as H' by (intros q Hq; apply H; by right).
    specialize (IH Hnd Hin H').
    destruct (decide (f y = true)); cbn [length]; lia.
Qed.

Lemma count_cells_set_cell state r c v w :
  wf_board state -> 0 <= r < 5 -> 0 <= c < 5 ->
  count_cells (set_cell state r c v) w + ind (cell_eqb (cell_at state r c) w)
  = count_cells state w + ind (cell_eqb v w).
Proof.
  intros Hwf Hr Hc. unfold count_cells.
  pose proof (filter_length_update
                (fun q => cell_eqb (cell_at state (fst q) (snd q)) w)
                (fun q => cell_eqb (cell_at (set_cell state r c v) (fst q) (snd q)) w)
                all_coords (r, c) NoDup_all_coords) as H.
  cbn [fst snd] in H. rewrite (cell_at_set_cell_same state r c v Hwf Hr Hc) in H.
  apply H.
  - apply elem_of_all_coords. cbn [fst snd]. lia.
  - intros q Hq Hne. apply elem_of_all_coords in Hq.
    rewrite cell_at_set_cell by (assumption || lia).
    destruct (Z.eqb_spec (fst q) r) as [E1|]; [|reflexivity].
    destruct (Z.eqb_spec (snd q) c) as [E2|]; [|reflexivity].
    destruct q. cbn [fst snd] in *. congruence.
Qed.

Lemma length_filter_fmap {A B : Type} (f : A -> B) (P : B -> bool) (l : list A) :
  length (filter (fun y => P y = true) (f <$> l))
  = length (filter (fun z => P (f z) = true) l).
Proof.
  induction l as [|z l IH]; [reflexivity|].
  cbn [fmap list_fmap]. rewrite !filter_cons.
  destruct (P (f z)); repeat case_decide; try congruence; cbn [length]; by rewrite IH.
Qed.

(** [row.count] summed over the rows is the count over the coordinates. *)
Lemma count_row state (r : Z) row v :
  0 <= r -> state !! Z.to_nat r = Some row -> length row = 5%nat ->
  Z.of_nat (length (filter (fun q => cell_eqb (cell_at state (fst q) (snd q)) v = true)
                      ((fun c => (r, c)) <$> range 5)))
  = count v row.
Proof.
  intros Hr Hrow Hlen. unfold count.
  rewrite (length_filter_fmap (fun c => (r, c))
             (fun q => cell_eqb (cell_at state (fst q) (snd q)) v)).
  cbn [fst snd].
  rewrite <- (length_filter_fmap (cell_at state r) (fun y => cell_eqb y v)).
  do 3 f_equal. unfold cell_at. rewrite Hrow.
  apply length_5_inv in Hlen as (a & b & c & d & e & ->). reflexivity.
Qed.

Lemma all_coords_rows :
  all_coords = ((fun c => (0, c)) <$> range 5) ++ ((fun c => (1, c)) <$> range 5)
               ++ ((fun c => (2, c)) <$> range 5) ++ ((fun c => (3, c)) <$> range 5)
               ++ ((fun c => (4, c)) <$> range 5).
Proof. reflexivity. Qed.

Lemma count_cells_rows state v :
  wf_board state ->
  count_cells state v = fold_left (fun acc row => acc + count v row) state 0.
Proof.
  intros Hwf. unfold count_cells. rewrite all_coords_rows, !filter_app, !length_app.
  destruct (wf_board_row state 0 Hwf ltac:(lia)) as (r0 & H0 & L0).
  destruct (wf_board_row state 1 Hwf ltac:(lia)) as (r1 & H1 & L1).
  destruct (wf_board_row state 2 Hwf ltac:(lia)) as (r2 & H2 & L2).
  destruct (wf_board_row state 3 Hwf ltac:(lia)) as (r3 & H3 & L3).
  destruct (wf_board_row state 4 Hwf ltac:(lia)) as (r4 & H4 & L4).
  rewrite !Nat2Z.inj_add.
  rewrite (count_row state 0 r0 v), (count_row state 1 r1 v), (count_row state 2 r2 v),
    (count_row state 3 r3 v), (count_row state 4 r4 v) by (lia || assumption).
  destruct Hwf as [Hlen _]. apply length_5_inv in Hlen as (a & b & c & d & e & ->).
  vm_compute in H0, H1, H2, H3, H4. simplify_eq. cbn [fold_left]. lia.
Qed.

Lemma fold_left_add_pair (f g : list cell -> Z) (rows : list (list cell)) (a b : Z) :
  fold_left (fun acc row => acc + (f row + g row)) rows (a + b)
  = fold_left (fun acc row => acc + f row) rows a
    + fold_left (fun acc row => acc + g row) rows b.
Proof.
  revert a b. induction rows as [|row rows IH]; intros a b; cbn [fold_left]; [reflexivity|].
  rewrite <- IH. f_equal. lia.
Qed.

Lemma num_pieces_counts self state :
  wf_board state ->
  num_pieces self state
  = count_cells state (Piece (my_piece self)) + count_cells state (Piece (opp self)).
Proof.
  intros Hwf. rewrite !count_cells_rows by done. unfold num_pieces.
  rewrite <- fold_left_add_pair. reflexivity.
Qed.

Lemma num_pieces_total mp D state :
  wf_board state -> num_pieces (player mp D) state = total_pieces state.
Proof.
  intros Hwf. rewrite num_pieces_counts by done. unfold total_pieces.
  rewrite opp_player, my_piece_player. destruct mp; cbn [other]; lia.
Qed.

(** ** The terminal detector *)

(** What a loop returns is returned by its body. *)
Lemma for_loop_returns {A S R : Type} (P : R -> Prop) (xs : list A) (body : A -> S -> S + R) s r :
  (forall y s' r', body y s' = inr r' -> P r') ->
  for_loop xs body s = inr r -> P r.
Proof.
  intros Hbody. revert s. induction xs as [|y xs IH]; intros s; cbn [for_loop]; [discriminate|].
  destruct (body y s) as [s'|r'] eqn:E.
  - apply IH.
  - intros [= <-]. eapply Hbody, E.
Qed.

Lemma winner_value_sign self v : is_sign (winner_value self v).
Proof. unfold winner_value, is_sign. destruct (cell_eqb _ _); auto. Qed.

Ltac loop_sign :=
  repeat (eapply for_loop_returns; [|eassumption]; intros ? ? ? ?; cbv beta in * );
  match goal with
  | H : (if ?b then _ else _) = inr _ |- _ =>
      destruct b; [injection H as <-; apply winner_value_sign | discriminate]
  end.

Lemma check_horizontal_sign self state v : check_horizontal self state = inr v -> is_sign v.
Proof. unfold check_horizontal. intros H. loop_sign. Qed.

Lemma check_vertical_sign self state v : check_vertical self state = inr v -> is_sign v.
Proof. unfold check_vertical. intros H. loop_sign. Qed.

Lemma check_diagonal_sign self state v : check_diagonal self state = inr v -> is_sign v.
Proof. unfold check_diagonal. intros H. loop_sign. Qed.

Lemma check_antidiagonal_sign self state v : check_antidiagonal self state = inr v -> is_sign v.
Proof. unfold check_antidiagonal. intros H. loop_sign. Qed.

Lemma check_box_sign self state v : check_box self state = inr v -> is_sign v.
Proof. unfold check_box. intros H. loop_sign. Qed.

Lemma game_value_cases self state :
  game_value self state = 0 \/ is_sign (game_value self state).
Proof.
  unfold game_value.
  destruct (check_horizontal self state) eqn:E1; [|right; eapply check_horizontal_sign, E1].
  destruct (check_vertical self state) eqn:E2; [|right; eapply check_vertical_sign, E2].
  destruct (check_diagonal self state) eqn:E3; [|right; eapply check_diagonal_sign, E3].
  destruct (check_antidiagonal self state) eqn:E4; [|right; eapply check_antidiagonal_sign, E4].
  destruct (check_box self state) eqn:E5; [|right; eapply check_box_sign, E5].
  by left.
Qed.

Lemma bounded_terminal v : is_sign v -> bounded_score (Fin (inject_Z v)).
Proof. intros [-> | ->]; split; unfold Qle; simpl; lia. Qed.


(** ** Successors of a board of the game *)

Lemma elem_of_drop_spec state p s m :
  (s, m) ∈ drop_spec state p <->
  exists q, q ∈ all_coords /\ is_empty state q = true /\ (s, m) = place state p q.
Proof.
  unfold drop_spec. rewrite list_elem_of_fmap. split.
  - intros (q & -> & [Hq Hin]%list_elem_of_filter). eauto.
  - intros (q & Hin & Hq & ->). exists q. split; [done|]. by apply list_elem_of_filter.
Qed.

Lemma elem_of_move_spec state p s m :
  (s, m) ∈ move_spec state p <->
  exists src dst, src ∈ all_coords /\ holds state p src = true
                  /\ dst ∈ neighbours src /\ in_bounds dst = true /\ is_empty state dst = true
                  /\ (s, m) = relocate state p src dst.
Proof.
  unfold move_spec. rewrite list_elem_of_bind. split.
  - intros (src & (dst & -> & [Hd Hin]%list_elem_of_filter)%list_elem_of_fmap
                & [Hs Hsin]%list_elem_of_filter).
    apply andb_true_iff in Hd as [Hb He]. exists src, dst. auto 10.
  - intros (src & dst & Hsin & Hs & Hin & Hb & He & ->). exists src. split.
    + apply list_elem_of_fmap. exists dst. split; [done|].
      apply list_elem_of_filter. split; [|done]. by rewrite Hb, He.
    + by apply list_elem_of_filter.
Qed.

Lemma generate_successors_spec self state p :
  _generate_successors self state p
  = if drop_phase self state then drop_spec state p else move_spec state p.
Proof.
  unfold _generate_successors. by rewrite drop_successors_spec, move_successors_spec.
Qed.

Lemma is_empty_spec state q : is_empty state q = true <-> cell_at state (fst q) (snd q) = Empty.
Proof. unfold is_empty. apply cell_eqb_eq. Qed.

Lemma holds_spec state p q : holds state p q = true <-> cell_at state (fst q) (snd q) = Piece p.
Proof. unfold holds. apply cell_eqb_eq. Qed.

(** A drop adds one piece of the mover and leaves the other count. *)
Lemma count_cells_place state p q w :
  wf_board state -> q ∈ all_coords -> is_empty state q = true ->
  count_cells (fst (place state p q)) (Piece w)
  = count_cells state (Piece w) + ind (piece_eqb p w).
Proof.
  intros Hwf Hq He. apply elem_of_all_coords in Hq. apply is_empty_spec in He.
  pose proof (count_cells_set_cell state (fst q) (snd q) (Piece p) (Piece w) Hwf
                ltac:(lia) ltac:(lia)) as H.
  rewrite He in H. cbn [cell_eqb ind] in H. unfold place. cbn [fst]. lia.
Qed.

(** A relocation leaves both counts. *)
Lemma count_cells_relocate state p src dst w :
  wf_board state -> src ∈ all_coords -> holds state p src = true ->
  in_bounds dst = true -> is_empty state dst = true ->
  count_cells (fst (relocate state p src dst)) (Piece w) = count_cells state (Piece w).
Proof.
  intros Hwf Hs Hp Hd He.
  apply elem_of_all_coords in Hs. apply in_bounds_spec in Hd.
  apply holds_spec in Hp. apply is_empty_spec in He.
  unfold relocate. cbn [fst].
  pose proof (count_cells_set_cell state (fst src) (snd src) Empty (Piece w) Hwf
                ltac:(lia) ltac:(lia)) as H1.
  rewrite Hp in H1. cbn [cell_eqb ind] in H1.
  set (state1 := set_cell state (fst src) (snd src) Empty) in *.
  assert (wf_board state1) as Hwf1 by (by apply wf_set_cell).
  pose proof (count_cells_set_cell state1 (fst dst) (snd dst) (Piece p) (Piece w) Hwf1
                ltac:(lia) ltac:(lia)) as H2.
  assert (cell_at state1 (fst dst) (snd dst) = Empty) as Hd1.
  { unfold state1. rewrite cell_at_set_cell by (assumption || lia).
    destruct (Z.eqb_spec (fst dst) (fst src)) as [E1|]; [|exact He].
    destruct (Z.eqb_spec (snd dst) (snd src)) as [E2|]; [|exact He].
    rewrite E1, E2 in He. congruence. }
  rewrite Hd1 in H2. cbn [cell_eqb ind] in H2. lia.
Qed.

(** The three cell values partition the 25 cells. *)
Lemma count_cells_partition state :
  count_cells state Empty + count_cells state (Piece X) + count_cells state (Piece O) = 25.
Proof.
  unfold count_cells. change 25 with (Z.of_nat (length all_coords)).
  generalize all_coords. intros l. induction l as [|q l IH]; [reflexivity|].
  rewrite !filter_cons. cbn [length].
  destruct (cell_at state (fst q) (snd q)) as [|[|]]; cbn [cell_eqb piece_eqb];
    repeat case_decide; try congruence; cbn [length]; lia.
Qed.

Lemma count_pieces_total state mp :
  count_cells state (Piece mp) + count_cells state (Piece (other mp)) = total_pieces state.
Proof. unfold total_pieces. destruct mp; cbn [other]; lia. Qed.

Lemma drop_spec_nonempty state p :
  total_pieces state < 25 -> drop_spec state p <> [].
Proof.
  intros Hlt Hnil. unfold drop_spec in Hnil. apply fmap_nil_inv in Hnil.
  pose proof (count_cells_partition state) as Hp. unfold total_pieces in Hlt.
  unfold count_cells at 1 in Hp. unfold is_empty in Hnil. rewrite Hnil in Hp.
  cbn [length] in Hp. lia.
Qed.

Lemma successors_wf self state p s m :
  wf_board state -> (s, m) ∈ _generate_successors self state p -> wf_board s.
Proof.
  intros Hwf. rewrite generate_successors_spec. destruct (drop_phase self state).
  - rewrite elem_of_drop_spec. intros (q & _ & _ & [= -> _]). by apply wf_set_cell.
  - rewrite elem_of_move_spec. intros (src & dst & _ & _ & _ & _ & _ & [= -> _]).
    by do 2 apply wf_set_cell.
Qed.

Lemma drop_phase_total mp D state :
  wf_board state -> drop_phase (player mp D) state = (total_pieces state <? 8).
Proof. intros Hwf. unfold drop_phase. by rewrite num_pieces_total. Qed.

(** The counts stay those of alternating play along the search. *)
Lemma turn_consistent_successor mp D state is_max s m :
  wf_board state -> turn_consistent (player mp D) state is_max ->
  (s, m) ∈ _generate_successors (player mp D) state (mover (player mp D) is_max) ->
  turn_consistent (player mp D) s (negb is_max).
Proof.
  intros Hwf Htc. rewrite generate_successors_spec, drop_phase_total by done.
  unfold turn_consistent, mover in *. rewrite my_piece_player, opp_player in *.
  pose proof (count_pieces_total state mp) as Htot.
  destruct (Z.ltb_spec (total_pieces state) 8) as [Hlt|Hge].
  - rewrite elem_of_drop_spec. intros (q & Hq & He & [= -> _]).
    pose proof (count_cells_place state (if is_max then mp else other mp) q mp Hwf Hq He) as H1.
    pose proof (count_cells_place state (if is_max then mp else other mp) q (other mp) Hwf Hq He)
      as H2.
    unfold place in H1, H2. cbn [fst] in H1, H2. rewrite H1, H2.
    destruct is_max, mp; cbn [other piece_eqb ind negb] in *; lia.
  - rewrite elem_of_move_spec. intros (src & dst & Hs & Hp & _ & Hb & He & [= -> _]).
    pose proof (count_cells_relocate state _ src dst mp Hwf Hs Hp Hb He) as H1.
    pose proof (count_cells_relocate state _ src dst (other mp) Hwf Hs Hp Hb He) as H2.
    unfold relocate in H1, H2. cbn [fst] in H1, H2. rewrite H1, H2.
    destruct is_max; cbn [negb]; lia.
Qed.

(** ** Four pieces cannot be blocked by four pieces

    In the move phase of alternating play both sides have four pieces.  The
    cells around any group of four cells of the board number at least five,
    so the other side cannot occupy them all: the side to move always has a
    relocation. *)

Lemma filter_in_sublists {A : Type} (P : A -> Prop) `{!forall y, Decision (P y)} (l : list A) :
  filter P l ∈ sublists_k (length (filter P l)) l.
Proof.
  induction l as [|y l IH]; [by left|].
  rewrite filter_cons. destruct (decide (P y)).
  - cbn [length sublists_k]. apply elem_of_app. left.
    apply list_elem_of_fmap. eauto.
  - destruct (filter P l) as [|z f] eqn:E.
    + by left.
    + cbn [length sublists_k] in *. apply elem_of_app. by right.
Qed.

(** Checked on the 12650 groups of four cells. *)
Lemma boundary_of_four :
  Forall (fun s => (5 <= length (boundary s))%nat) (sublists_k 4 all_coords).
Proof.
  apply (bool_decide_eq_true_1
           (Forall (fun s => (5 <= length (boundary s))%nat) (sublists_k 4 all_coords))).
  vm_compute. reflexivity.
Qed.

Lemma memb_spec q s : memb q s = true <-> q ∈ s.
Proof.
  unfold memb. rewrite existsb_exists. split.
  - intros (t & Hin & ->%coord_eqb_eq). by apply list_elem_of_In.
  - intros Hin. exists q. split; [by apply list_elem_of_In | by apply coord_eqb_eq].
Qed.

Lemma king_adjacentb_neighbours t q : king_adjacentb t q = true -> q ∈ neighbours t.
Proof.
  unfold king_adjacentb. rewrite !andb_true_iff, negb_true_iff, !Z.leb_le.
  intros [[H1 H2] Hne].
  assert (t <> q) as Hneq.
  { intros ->. rewrite (proj2 (coord_eqb_eq q q) eq_refl) in Hne. discriminate. }
  destruct t as [tr tc], q as [qr qc]. cbn [fst snd] in *.
  unfold neighbours, king_offsets. cbn [fmap list_fmap fst snd].
  assert (qr = tr + -1 \/ qr = tr + 0 \/ qr = tr + 1) as Hr by lia.
  assert (qc = tc + -1 \/ qc = tc + 0 \/ qc = tc + 1) as Hc by lia.
  destruct Hr as [-> | [-> | ->]], Hc as [-> | [-> | ->]];
    try (repeat (first [left; reflexivity | right]); fail).
  exfalso. apply Hneq. f_equal; lia.
Qed.

Lemma bind_nil_inv {A B : Type} (g : A -> list B) (l : list A) y :
  l ≫= g = [] -> y ∈ l -> g y = [].
Proof.
  induction l as [|z l IH]; intros Hnil Hin; [inversion Hin|].
  cbn [mbind list_bind] in Hnil. apply app_eq_nil in Hnil as [H1 H2].
  apply elem_of_cons in Hin as [->|Hin]; auto.
Qed.

Lemma move_spec_nonempty state p :
  wf_board state ->
  count_cells state (Piece p) = 4 -> count_cells state (Piece (other p)) <= 4 ->
  move_spec state p <> [].
Proof.
  intros Hwf Hp Ho Hnil.
  set (own := filter (fun q => holds state p q = true) all_coords).
  set (foe := filter (fun q => holds state (other p) q = true) all_coords).
  assert (length own = 4%nat) as HS by (unfold count_cells, own, holds in *; lia).
  assert (length foe <= 4)%nat as HT by (unfold count_cells, foe, holds in *; lia).
  pose proof (filter_in_sublists (fun q => holds state p q = true) all_coords) as Hin.
  fold own in Hin. rewrite HS in Hin.
  pose proof boundary_of_four as Hb. rewrite Forall_forall in Hb. specialize (Hb own Hin).
  assert (length (boundary own) <= length foe)%nat as Hle; [|lia].
  apply submseteq_length, NoDup_submseteq.
  { apply NoDup_filter, NoDup_all_coords. }
  intros q [Hq Hqin]%list_elem_of_filter.
  apply andb_true_iff in Hq as [Hnot Hadj]. apply negb_true_iff in Hnot.
  apply existsb_exists in Hadj as (t & Ht%list_elem_of_In & Hadj).
  apply list_elem_of_filter in Ht as [Htp Htin].
  apply list_elem_of_filter. split; [|exact Hqin].
  (* [q] is next to the own cell [t], and [t] has no empty neighbour *)
  pose proof (bind_nil_inv _ _ t Hnil) as Hg.
  specialize (Hg ltac:(by apply list_elem_of_filter)).
  apply fmap_nil_inv in Hg.
  assert (is_empty state q = false) as Hne.
  { destruct (is_empty state q) eqn:E; [|reflexivity].
    assert (q ∈ filter (fun q => in_bounds q && is_empty state q = true) (neighbours t)) as Hc.
    { apply list_elem_of_filter. split; [|by apply king_adjacentb_neighbours].
      rewrite E, andb_true_r. by apply in_bounds_all_coords. }
    rewrite Hg in Hc. inversion Hc. }
  assert (holds state p q = false) as Hnp.
  { destruct (holds state p q) eqn:E; [|reflexivity].
    assert (memb q own = true) as Hm; [|congruence].
    apply memb_spec, list_elem_of_filter. by split. }
  unfold is_empty, holds in *.
  destruct (cell_at state (fst q) (snd q)) as [|w]; [discriminate|].
  cbn [cell_eqb] in *. destruct p, w; cbn [other piece_eqb] in *; congruence.
Qed.

(** In a position of alternating play the side to move has a successor. *)
Lemma successors_nonempty mp D state is_max :
  wf_board state -> turn_consistent (player mp D) state is_max ->
  _generate_successors (player mp D) state (mover (player mp D) is_max) <> [].
Proof.
  intros Hwf Htc. rewrite generate_successors_spec, drop_phase_total by done.
  unfold turn_consistent, mover in *. rewrite my_piece_player, opp_player in *.
  pose proof (count_pieces_total state mp) as Htot.
  destruct (Z.ltb_spec (total_pieces state) 8) as [Hlt|Hge].
  - apply drop_spec_nonempty. lia.
  - destruct is_max.
    + apply move_spec_nonempty; [done | lia | lia].
    + apply move_spec_nonempty; [done | lia |].
      destruct mp; cbn [other]; lia.
Qed.

(** ** Scores of the search in alternating play *)

Lemma bounded_score_above_NegInf v : bounded_score v -> score_ltb NegInf v = true.
Proof. by destruct v. Qed.

Lemma bounded_score_below_PosInf v : bounded_score v -> score_ltb v PosInf = true.
Proof. by destruct v. Qed.

(** The result of the loop of either player over a non-empty list of
    successors with bounded scores: a bounded score and a move. *)
Lemma select_loop_bounded better init eval succs :
  (forall a, better a a = false) ->
  (forall a b c, better b a = false -> better b c = true -> better a c = true) ->
  (forall a b, better a b = true -> better b a = false) ->
  (forall v, bounded_score v -> better init v = true) ->
  succs <> [] ->
  (forall s m, (s, m) ∈ succs -> bounded_score (eval s)) ->
  bounded_score (fst (select_loop better init eval succs))
  /\ exists mv, snd (select_loop better init eval succs) = Some mv.
Proof.
  intros H1 H2 H3 Hinit Hne Hb.
  destruct succs as [|[s0 m0] succs']; [done|].
  set (succs := (s0, m0) :: succs') in *.
  assert ((s0, m0) ∈ succs) as Hin0 by left.
  destruct (select_loop_some better init H1 H2 H3 eval succs s0 m0 Hin0) as [mv Hmv].
  { apply Hinit. eapply Hb, Hin0. }
  split; [|eauto].
  destruct (select_loop_inv better init H1 H2 H3 eval succs) as [_ Hsome].
  rewrite Hmv in Hsome. destruct Hsome as (i & s & Hlk & -> & _).
  eapply Hb, list_elem_of_lookup_2, Hlk.
Qed.

Lemma better_max_init v : bounded_score v -> better_max NegInf v = true.
Proof. apply bounded_score_above_NegInf. Qed.

Lemma better_min_init v : bounded_score v -> better_min PosInf v = true.
Proof. apply bounded_score_below_PosInf. Qed.

Lemma better_min_trans a b c :
  better_min b a = false -> better_min b c = true -> better_min a c = true.
Proof. unfold better_min. intros. eapply score_lt_le_trans; eassumption. Qed.

Lemma better_min_weak a b : better_min a b = true -> better_min b a = false.
Proof. unfold better_min. apply score_lt_le. Qed.

Lemma node_choice_bounded is_max eval succs :
  succs <> [] ->
  (forall s m, (s, m) ∈ succs -> bounded_score (eval s)) ->
  bounded_score (fst (node_choice is_max eval succs))
  /\ exists mv, snd (node_choice is_max eval succs) = Some mv.
Proof.
  intros Hne Hb. unfold node_choice. destruct is_max.
  - rewrite max_loop_select.
    apply select_loop_bounded;
      [exact score_ltb_irrefl | exact score_le_lt_trans | exact score_lt_le
      | exact better_max_init | exact Hne | exact Hb].
  - rewrite min_loop_select.
    apply select_loop_bounded;
      [exact score_ltb_irrefl | exact better_min_trans | exact better_min_weak
      | exact better_min_init | exact Hne | exact Hb].
Qed.

Lemma minimax_plies_S self n state is_max :
  game_value self state = 0 ->
  minimax_plies self (S n) state is_max
  = node_choice is_max (fun succ_state => fst (minimax_plies self n succ_state (negb is_max)))
      (_generate_successors self state (mover self is_max)).
Proof.
  intros Hgv. cbn [minimax_plies]. rewrite Hgv. cbn [Z.eqb negb].
  unfold node_choice, mover. by destruct is_max.
Qed.

Lemma minimax_plies_terminal self n state is_max :
  game_value self state <> 0 ->
  minimax_plies self n state is_max = (Fin (inject_Z (game_value self state)), None).
Proof.
  intros Hgv. destruct n; cbn [minimax_plies];
    destruct (Z.eqb_spec (game_value self state) 0); done.
Qed.

Lemma minimax_plies_0 self state is_max :
  game_value self state = 0 ->
  minimax_plies self 0 state is_max
  = (Fin (heuristic_game_value self state (my_piece self)), None).
Proof. intros Hgv. cbn [minimax_plies]. by rewrite Hgv. Qed.

(** In alternating play every score of the search is a number in [-1, 1]:
    the sentinels [-inf] and [inf] never come back. *)
Lemma minimax_plies_bounded mp D n state is_max :
  wf_board state -> turn_consistent (player mp D) state is_max ->
  bounded_score (fst (minimax_plies (player mp D) n state is_max)).
Proof.
  revert state is_max. induction n as [|n IH]; intros state is_max Hwf Htc.
  - destruct (game_value_cases (player mp D) state) as [Hgv|Hgv].
    + rewrite minimax_plies_0 by done. apply heuristic_bounds.
    + rewrite minimax_plies_terminal by (destruct Hgv; lia). by apply bounded_terminal.
  - destruct (game_value_cases (player mp D) state) as [Hgv|Hgv].
    + rewrite minimax_plies_S by done.
      apply node_choice_bounded.
      * by apply successors_nonempty.
      * intros s m Hin. apply IH.
        -- eapply successors_wf; eassumption.
        -- eapply turn_consistent_successor; eassumption.
    + rewrite minimax_plies_terminal by (destruct Hgv; lia). by apply bounded_terminal.
Qed.

(** At the depth cutoff every score is a number in [-1, 1], on any board. *)
Lemma minimax_plies_0_bounded self state is_max :
  bounded_score (fst (minimax_plies self 0 state is_max)).
Proof.
  destruct (game_value_cases self state) as [Hgv|Hgv].
  - rewrite minimax_plies_0 by done. apply heuristic_bounds.
  - rewrite minimax_plies_terminal by (destruct Hgv; lia). by apply bounded_terminal.
Qed.

(** The children of a node score in [-1, 1] when they are at the depth
    cutoff, or when the node is a position of alternating play. *)
Lemma children_bounded mp D n state is_max s m :
  wf_board state ->
  n = 0%nat \/ turn_consistent (player mp D) state is_max ->
  (s, m) ∈ _generate_successors (player mp D) state (mover (player mp D) is_max) ->
  bounded_score (fst (minimax_plies (player mp D) n s (negb is_max))).
Proof.
  intros Hwf [-> | Htc] Hin.
  - apply minimax_plies_0_bounded.
  - apply minimax_plies_bounded.
    + eapply successors_wf; eassumption.
    + eapply turn_consistent_successor; eassumption.
Qed.

(** ** The search over the store *)

Module StoreProofs.

(** *** Rules for results *)

Lemma post_ret {A : Type} (a : A) h (Q : A -> Store.store -> Prop) :
  Q a h -> Store.post (Store.ret a) h Q.
Proof. intros H. exact H. Qed.

Lemma post_bind {A B : Type} (c : Store.M A) (k : A -> Store.M B) h (Q : B -> Store.store -> Prop) :
  Store.post c h (fun a h' => Store.post (k a) h' Q) -> Store.post (Store.bind c k) h Q.
Proof. unfold Store.post, Store.bind. destruct (c h) as [a h']. by cbn [fst snd]. Qed.

Lemma post_mono {A : Type} (c : Store.M A) h (Q Q' : A -> Store.store -> Prop) :
  Store.post c h Q -> (forall a h', Q a h' -> Q' a h') -> Store.post c h Q'.
Proof. unfold Store.post. auto. Qed.

(** *** Boards in a growing store *)

Lemma is_board_mono h h' state b :
  h ⊆ h' -> Store.is_board h state b -> Store.is_board h' state b.
Proof.
  intros Hsub (ls & Hst & Hnd & Hrows). exists ls. split; [|split; [done|]].
  - eapply lookup_weaken; eassumption.
  - eapply Forall2_impl; [exact Hrows|]. cbn. intros l row Hl.
    eapply lookup_weaken; eassumption.
Qed.

Lemma same_successors_mono h h' ls bs :
  h ⊆ h' -> Store.same_successors h ls bs -> Store.same_successors h' ls bs.
Proof.
  intros Hsub H. eapply Forall2_impl; [exact H|]. cbn.
  intros x y [Hb Hm]. split; [|done]. eapply is_board_mono; eassumption.
Qed.

Lemma get_rows_board h state ls :
  h !! state = Some (Store.Rows ls) -> Store.get_rows state h = (ls, h).
Proof. unfold Store.get_rows. by intros ->. Qed.

Lemma get_cells_row h l row : h !! l = Some (Store.Row row) -> Store.get_cells l h = (row, h).
Proof. unfold Store.get_cells. by intros ->. Qed.

Lemma getitem_board h state b r c :
  Store.is_board h state b -> Store.getitem state r c h = (cell_at b r c, h).
Proof.
  intros (ls & Hst & _ & Hrows). unfold Store.getitem, Store.bind.
  rewrite (get_rows_board h state ls Hst).
  unfold cell_at. destruct (ls !! Z.to_nat r) as [l|] eqn:El.
  - destruct (Forall2_lookup_l _ _ _ _ _ Hrows El) as (row & Hrow & Hl).
    rewrite (get_cells_row h l row Hl), Hrow. reflexivity.
  - apply lookup_ge_None in El. rewrite (Forall2_length _ _ _ Hrows) in El.
    apply lookup_ge_None in El. rewrite El. reflexivity.
Qed.

Lemma mapM_get_cells h ls b :
  Forall2 (fun l row => h !! l = Some (Store.Row row)) ls b ->
  Store.mapM Store.get_cells ls h = (b, h).
Proof.
  induction 1 as [|l row ls b Hl _ IH]; [reflexivity|].
  cbn [Store.mapM]. unfold Store.bind. rewrite (get_cells_row h l row Hl), IH. reflexivity.
Qed.

Lemma read_state_board h state b : Store.is_board h state b -> Store.read_state state h = (b, h).
Proof.
  intros (ls & Hst & _ & Hrows). unfold Store.read_state, Store.bind.
  rewrite (get_rows_board h state ls Hst). by apply mapM_get_cells.
Qed.

(** *** Allocation and deep copies *)

Lemma alloc_fresh o h :
  h !! fst (Store.alloc o h) = None
  /\ snd (Store.alloc o h) !! fst (Store.alloc o h) = Some o
  /\ h ⊆ snd (Store.alloc o h).
Proof.
  unfold Store.alloc. cbn [fst snd].
  assert (h !! fresh (dom h) = None) as Hf by apply not_elem_of_dom, is_fresh.
  split; [exact Hf|]. split; [apply lookup_insert_eq | by apply insert_subseteq].
Qed.

Lemma copy_rows h0 ls b :
  Forall2 (fun l row => h0 !! l = Some (Store.Row row)) ls b ->
  forall h, h0 ⊆ h ->
  Store.post
    (Store.mapM
       (fun l => Store.bind (Store.get_cells l) (fun cells => Store.alloc (Store.Row cells))) ls) h
    (fun new h' =>
       h ⊆ h' /\ Forall2 (fun l row => h' !! l = Some (Store.Row row)) new b
       /\ NoDup new /\ Forall (fun l => h !! l = None) new).
Proof.
  induction 1 as [|l row ls b Hl _ IH]; intros h Hsub.
  - apply post_ret. split; [done|]. split; [constructor|]. split; constructor.
  - cbn [Store.mapM]. apply post_bind, post_bind.
    unfold Store.post at 1. rewrite (get_cells_row h l row) by (eapply lookup_weaken; eassumption).
    cbn [fst snd]. unfold Store.post at 1.
    destruct (alloc_fresh (Store.Row row) h) as (Hnew & Hlk & Hext).
    set (l' := fst (Store.alloc (Store.Row row) h)) in *.
    set (h1 := snd (Store.alloc (Store.Row row) h)) in *.
    apply post_bind.
    eapply post_mono; [apply (IH h1); by etrans|].
    intros new h2 (Hsub2 & Hrows & Hnd & Hout). apply post_ret.
    split; [by etrans|]. split; [|split].
    + constructor; [|exact Hrows]. eapply lookup_weaken; eassumption.
    + constructor; [|exact Hnd]. intros Hin.
      rewrite Forall_forall in Hout. specialize (Hout l' Hin). congruence.
    + constructor; [exact Hnew|].
      eapply Forall_impl; [exact Hout|]. cbn. intros x Hx.
      eapply lookup_weaken_None; eassumption.
Qed.

Lemma deepcopy_board h state b :
  Store.is_board h state b ->
  Store.post (Store.deepcopy state) h
    (fun state' h' => h ⊆ h' /\ Store.is_board h' state' b /\ Store.rows_outside h h' state').
Proof.
  intros (ls & Hst & Hnd & Hrows). unfold Store.deepcopy.
  apply post_bind. unfold Store.post at 1. rewrite (get_rows_board h state ls Hst).
  cbn [fst snd]. apply post_bind.
  eapply post_mono; [apply (copy_rows h ls b Hrows h); done|].
  intros new h1 (Hsub1 & Hrows1 & Hnd1 & Hout1). unfold Store.post.
  destruct (alloc_fresh (Store.Rows new) h1) as (Hnew & Hlk & Hext).
  set (l' := fst (Store.alloc (Store.Rows new) h1)) in *.
  set (h2 := snd (Store.alloc (Store.Rows new) h1)) in *.
  split; [by etrans|]. split.
  - exists new. split; [exact Hlk|]. split; [exact Hnd1|].
    eapply Forall2_impl; [exact Hrows1|]. cbn. intros l row Hl.
    eapply lookup_weaken; eassumption.
  - split; [eapply lookup_weaken_None; eassumption|].
    exists new. split; [exact Hlk | exact Hout1].
Qed.

(** *** Writing a cell of a copy *)

Lemma set_cell_out_of_range (b : board) r c v :
  b !! Z.to_nat r = None -> set_cell b r c v = b.
Proof.
  intros Hnone. unfold set_cell. apply list_eq. intros j.
  rewrite list_lookup_alter. destruct (decide (Z.to_nat r = j)) as [<-|]; [|done].
  by rewrite Hnone.
Qed.

Lemma setitem_copy h0 h state b r c v :
  h0 ⊆ h -> Store.is_board h state b -> Store.rows_outside h0 h state ->
  Store.post (Store.setitem state r c v) h
    (fun _ h' =>
       h0 ⊆ h' /\ Store.is_board h' state (set_cell b r c v) /\ Store.rows_outside h0 h' state).
Proof.
  intros Hsub (ls & Hst & Hnd & Hrows) (Hstate & ls' & Hst' & Hout).
  assert (ls' = ls) as -> by congruence.
  unfold Store.setitem. apply post_bind. unfold Store.post at 1.
  rewrite (get_rows_board h state ls Hst). cbn [fst snd].
  destruct (ls !! Z.to_nat r) as [l|] eqn:El.
  - destruct (Forall2_lookup_l _ _ _ _ _ Hrows El) as (row & Hrow & Hl).
    apply post_bind. unfold Store.post at 1. rewrite (get_cells_row h l row Hl). cbn [fst snd].
    unfold Store.post. cbn [fst snd].
    assert (h0 !! l = None) as Hl0.
    { rewrite Forall_forall in Hout. eapply Hout, list_elem_of_lookup_2, El. }
    assert (l <> state) as Hne by congruence.
    split; [by apply insert_subseteq_r|]. split.
    + exists ls. split; [by rewrite lookup_insert_ne|]. split; [exact Hnd|].
      apply Forall2_lookup. intros j. unfold set_cell. rewrite list_lookup_alter.
      destruct (decide (Z.to_nat r = j)) as [<-|Hj].
      * rewrite El, Hrow. constructor. apply lookup_insert_eq.
      * destruct (ls !! j) as [lj|] eqn:Elj.
        -- destruct (Forall2_lookup_l _ _ _ _ _ Hrows Elj) as (rowj & Hrowj & Hlj).
           rewrite Hrowj. constructor. rewrite lookup_insert_ne; [exact Hlj|].
           intros ->. apply Hj. eapply NoDup_lookup; eassumption.
        -- apply lookup_ge_None in Elj. rewrite (Forall2_length _ _ _ Hrows) in Elj.
           apply lookup_ge_None in Elj. rewrite Elj. constructor.
    + split; [exact Hstate|]. exists ls. split; [by rewrite lookup_insert_ne | exact Hout].
  - apply post_ret.
    assert (b !! Z.to_nat r = None) as Hb.
    { apply lookup_ge_None. rewrite <- (Forall2_length _ _ _ Hrows).
      by apply lookup_ge_None. }
    rewrite (set_cell_out_of_range b r c v Hb).
    split; [exact Hsub|]. split; [by exists ls | split; [exact Hstate | by exists ls]].
Qed.

(** *** Loops *)

(** A loop over the store that follows a loop on values: [R] relates the two
    loop states and survives the growth of the store. *)
Lemma foldM_follows {A S S' : Type} (R : Store.store -> S -> S' -> Prop)
    (body : S -> A -> Store.M S) (body' : S' -> A -> S') (h0 : Store.store) (xs : list A) :
  (forall h h' s s', h ⊆ h' -> R h s s' -> R h' s s') ->
  (forall y s s' h, h0 ⊆ h -> R h s s' ->
     Store.post (body s y) h (fun t h' => h ⊆ h' /\ R h' t (body' s' y))) ->
  forall s s' h, h0 ⊆ h -> R h s s' ->
    Store.post (Store.foldM body xs s) h (fun t h' => h ⊆ h' /\ R h' t (fold_left body' xs s')).
Proof.
  intros Hmono Hbody. induction xs as [|y xs IH]; intros s s' h Hsub HR.
  - apply post_ret. by split.
  - cbn [Store.foldM fold_left]. apply post_bind.
    eapply post_mono; [by apply Hbody|].
    intros t h1 [Hsub1 HR1]. cbn beta.
    eapply post_mono; [apply IH; [by etrans | exact HR1]|].
    intros t2 h2 [Hsub2 HR2]. split; [by etrans | exact HR2].
Qed.

Lemma same_successors_snoc h ls bs state b mv :
  Store.same_successors h ls bs -> Store.is_board h state b ->
  Store.same_successors h (ls ++ [(state, mv)]) (bs ++ [(b, mv)]).
Proof.
  intros H Hb. apply Forall2_app; [exact H|]. constructor; [|constructor]. by split.
Qed.

(** *** The successor generator over the store *)

Lemma same_successors_refl_mono : forall h h' (s : list (Store.loc * move)) s',
  h ⊆ h' -> Store.same_successors h s s' -> Store.same_successors h' s s'.
Proof. intros. eapply same_successors_mono; eassumption. Qed.

Lemma drop_successors_store h0 state b p :
  Store.is_board h0 state b ->
  Store.post (Store.drop_successors state p) h0
    (fun succs h' => h0 ⊆ h' /\ Store.same_successors h' succs (drop_successors b p)).
Proof.
  intros Hb. unfold Store.drop_successors, drop_successors.
  apply (foldM_follows Store.same_successors _ _ h0 (range 5) same_successors_refl_mono);
    [|done|constructor].
  intros r s s' h Hsub HR.
  apply (foldM_follows Store.same_successors _ _ h0 (range 5) same_successors_refl_mono);
    [|done|exact HR].
  clear s s' h Hsub HR. intros c s s' h Hsub HR.
  apply post_bind. unfold Store.post at 1.
  rewrite (getitem_board h state b r c) by (eapply is_board_mono; eassumption).
  cbn [fst snd]. destruct (cell_eqb (cell_at b r c) Empty).
  - apply post_bind.
    eapply post_mono; [apply (deepcopy_board h state b); eapply is_board_mono; eassumption|].
    intros new h1 (Hs1 & Hb1 & Hout1). cbn beta. apply post_bind.
    eapply post_mono; [apply (setitem_copy h h1 new b r c (Piece p) Hs1 Hb1 Hout1)|].
    intros _ h2 (Hs2 & Hb2 & _). cbn beta. apply post_ret. split; [exact Hs2|].
    apply same_successors_snoc; [|exact Hb2].
    eapply same_successors_mono; eassumption.
  - apply post_ret. by split.
Qed.

Lemma relocations_store h0 state b p r c :
  Store.is_board h0 state b ->
  forall s s' h, h0 ⊆ h -> Store.same_successors h s s' ->
  Store.post (Store.relocations state p r c s) h
    (fun succs h' => h ⊆ h' /\ Store.same_successors h' succs (relocations b p r c s')).
Proof.
  intros Hb. unfold Store.relocations, relocations.
  apply (foldM_follows Store.same_successors _ _ h0 [-1; 0; 1] same_successors_refl_mono).
  intros dr s s' h Hsub HR.
  apply (foldM_follows Store.same_successors _ _ h0 [-1; 0; 1] same_successors_refl_mono);
    [|done|exact HR].
  clear s s' h Hsub HR. intros dc s s' h Hsub HR.
  destruct ((dr =? 0) && (dc =? 0)); [apply post_ret; by split|].
  cbv zeta.
  destruct ((0 <=? r + dr) && (r + dr <? 5) && (0 <=? c + dc) && (c + dc <? 5));
    cbn [andb]; [|apply post_ret; by split].
  apply post_bind. unfold Store.post at 1.
  rewrite (getitem_board h state b (r + dr) (c + dc)) by (eapply is_board_mono; eassumption).
  cbn [fst snd]. destruct (cell_eqb (cell_at b (r + dr) (c + dc)) Empty).
  - apply post_bind.
    eapply post_mono; [apply (deepcopy_board h state b); eapply is_board_mono; eassumption|].
    intros new h1 (Hs1 & Hb1 & Hout1). cbn beta. apply post_bind.
    eapply post_mono; [apply (setitem_copy h h1 new b r c Empty Hs1 Hb1 Hout1)|].
    intros _ h2 (Hs2 & Hb2 & Hout2). cbn beta. apply post_bind.
    eapply post_mono;
      [apply (setitem_copy h h2 new _ (r + dr) (c + dc) (Piece p) Hs2 Hb2 Hout2)|].
    intros _ h3 (Hs3 & Hb3 & _). cbn beta. apply post_ret. split; [exact Hs3|].
    apply same_successors_snoc; [|exact Hb3].
    eapply same_successors_mono; eassumption.
  - apply post_ret. by split.
Qed.

Lemma move_successors_store h0 state b p :
  Store.is_board h0 state b ->
  Store.post (Store.move_successors state p) h0
    (fun succs h' => h0 ⊆ h' /\ Store.same_successors h' succs (move_successors b p)).
Proof.
  intros Hb. unfold Store.move_successors, move_successors.
  apply (foldM_follows Store.same_successors _ _ h0 (range 5) same_successors_refl_mono);
    [|done|constructor].
  intros r s s' h Hsub HR.
  apply (foldM_follows Store.same_successors _ _ h0 (range 5) same_successors_refl_mono);
    [|done|exact HR].
  clear s s' h Hsub HR. intros c s s' h Hsub HR.
  apply post_bind. unfold Store.post at 1.
  rewrite (getitem_board h state b r c) by (eapply is_board_mono; eassumption).
  cbn [fst snd]. destruct (cell_eqb (cell_at b r c) (Piece p)).
  - by apply (relocations_store h0).
  - apply post_ret. by split.
Qed.

Lemma generate_successors_store self h state b p :
  Store.is_board h state b ->
  Store.post (Store._generate_successors self state p) h
    (fun succs h' => h ⊆ h' /\ Store.same_successors h' succs (_generate_successors self b p)).
Proof.
  intros Hb. unfold Store._generate_successors, _generate_successors.
  apply post_bind. unfold Store.post at 1. rewrite (read_state_board h state b Hb).
  cbn [fst snd]. destruct (drop_phase self b).
  - by apply drop_successors_store.
  - by apply move_successors_store.
Qed.

(** *** The search over the store *)

(** The loop of a player over the successors in the store computes what
    the loop on values computes, when each child does. *)
Lemma foldM_select (better : score -> score -> bool)
    (child : Store.loc -> Store.M (score * option move)) (eval : board -> score) :
  (forall h l b, Store.is_board h l b ->
     Store.post (child l) h (fun res h' => h ⊆ h' /\ fst res = eval b)) ->
  forall succs succs' h acc,
    Store.same_successors h succs succs' ->
    Store.post
      (Store.foldM
         (fun '(best_eval, best_move) '(succ_state, mv) =>
            Store.bind (child succ_state)
              (fun res =>
                 let evaluation := fst res in
                 Store.ret (if better best_eval evaluation then (evaluation, Some mv)
                            else (best_eval, best_move))))
         succs acc) h
      (fun res h' =>
         h ⊆ h'
         /\ res = fold_left
                    (fun '(best_eval, best_move) '(succ_state, mv) =>
                       let evaluation := eval succ_state in
                       if better best_eval evaluation then (evaluation, Some mv)
                       else (best_eval, best_move))
                    succs' acc).
Proof.
  intros Hchild succs succs'. revert succs.
  induction succs' as [|[b mv'] succs' IH] using list_ind; intros succs h acc Hsame.
  - inversion Hsame; subst. apply post_ret. by split.
  - inversion Hsame as [|[l mv] ? ? ? [Hb Hmv] Hrest]; subst. cbn [fst snd] in *. subst mv'.
    cbn [Store.foldM fold_left]. destruct acc as [best_eval best_move].
    apply post_bind, post_bind.
    eapply post_mono; [apply (Hchild h l b Hb)|].
    intros res h1 [Hs1 Hres]. cbn beta zeta. rewrite Hres. unfold Store.post at 1.
    cbn [Store.ret fst snd].
    eapply post_mono; [apply IH; eapply same_successors_mono; eassumption|].
    intros res2 h2 [Hs2 Hres2]. split; [by etrans | exact Hres2].
Qed.

Lemma minimax_plies_store self n :
  forall h state b is_max,
    Store.is_board h state b ->
    Store.post (Store.minimax_plies self n state is_max) h
      (fun res h' => h ⊆ h' /\ res = minimax_plies self n b is_max).
Proof.
  induction n as [|n IH]; intros h state b is_max Hb.
  - cbn [Store.minimax_plies minimax_plies]. apply post_bind. unfold Store.post at 1.
    rewrite (read_state_board h state b Hb). cbn [fst snd].
    destruct (negb (game_value self b =? 0)); apply post_ret; by split.
  - cbn [Store.minimax_plies minimax_plies]. apply post_bind. unfold Store.post at 1.
    rewrite (read_state_board h state b Hb). cbn [fst snd].
    destruct (negb (game_value self b =? 0)); [apply post_ret; by split|].
    apply post_bind.
    eapply post_mono; [by apply generate_successors_store|].
    intros succs h1 [Hs1 Hsame]. cbn beta.
    destruct is_max.
    + eapply post_mono.
      * apply (foldM_select (fun a e => score_ltb a e)
                 (fun l => Store.minimax_plies self n l false)
                 (fun s => fst (minimax_plies self n s false))); [|exact Hsame].
        intros h' l b' Hb'. eapply post_mono; [by apply IH|].
        intros res h2 [Hs2 ->]. by split.
      * intros res h2 [Hs2 ->]. split; [by etrans|]. reflexivity.
    + eapply post_mono.
      * apply (foldM_select (fun a e => score_ltb e a)
                 (fun l => Store.minimax_plies self n l true)
                 (fun s => fst (minimax_plies self n s true))); [|exact Hsame].
        intros h' l b' Hb'. eapply post_mono; [by apply IH|].
        intros res h2 [Hs2 ->]. by split.
      * intros res h2 [Hs2 ->]. split; [by etrans|]. reflexivity.
Qed.

Lemma random_choice_same h (succs : list (Store.loc * move)) succs' rnd :
  Store.same_successors h succs succs' ->
  match random_choice rnd succs with Some (_, mv) => mv | None => [] end
  = match random_choice rnd succs' with Some (_, mv) => mv | None => [] end.
Proof.
  intros Hsame. unfold random_choice. rewrite (Forall2_length _ _ _ Hsame).
  destruct (succs !! (rnd `mod` length succs')%nat) as [[l mv]|] eqn:E.
  - destruct (Forall2_lookup_l _ _ _ _ _ Hsame E) as ([b mv'] & -> & _ & Hmv).
    exact Hmv.
  - apply lookup_ge_None in E. rewrite (Forall2_length _ _ _ Hsame) in E.
    apply lookup_ge_None in E. by rewrite E.
Qed.

(** [make_move] over the store: the store only grows (every object that
    existed keeps its contents), the board passed in is unchanged, and the
    move is the one computed on board values. *)
Lemma make_move_store self h state b rnd :
  Store.is_board h state b ->
  Store.post (Store.make_move self state rnd) h
    (fun mv h' => h ⊆ h' /\ Store.is_board h' state b /\ mv = make_move self b rnd).
Proof.
  intros Hb. unfold Store.make_move, make_move, Store._minimax, _minimax, deepcopy.
  apply post_bind.
  eapply post_mono; [by apply deepcopy_board|].
  intros copy h1 (Hs1 & Hb1 & _). cbn beta. apply post_bind.
  eapply post_mono; [apply minimax_plies_store; exact Hb1|].
  intros res h2 [Hs2 ->]. cbn beta.
  assert (h ⊆ h2) as Hs by (by etrans).
  destruct (snd (minimax_plies self (AI_SEARCH_DEPTH self - 0) b true)) as [mv|].
  - apply post_ret. split; [exact Hs|]. split; [|reflexivity].
    eapply is_board_mono; eassumption.
  - apply post_bind.
    eapply post_mono;
      [apply (generate_successors_store self h2 state b); eapply is_board_mono; eassumption|].
    intros succs h3 [Hs3 Hsame]. cbn beta.
    assert (h ⊆ h3) as Hs' by (by etrans).
    rewrite <- (random_choice_same h3 succs _ rnd Hsame).
    destruct (random_choice rnd succs) as [[l mv]|]; apply post_ret;
      (split; [exact Hs'|]); (split; [|reflexivity]); eapply is_board_mono; eassumption.
Qed.

End StoreProofs.

(** ** The validator *)

(** With the destination empty and the source occupied, the two differ. *)
Lemma source_differs_destination state p src dst :
  is_empty state dst = true -> holds state p src = true -> src <> dst.
Proof.
  intros He Hp ->. apply is_empty_spec in He. apply holds_spec in Hp. congruence.
Qed.

Lemma deltas_king_adjacent src dst :
  src <> dst -> deltas_within_one src dst = king_adjacentb src dst.
Proof.
  intros Hne. unfold deltas_within_one, king_adjacentb.
  assert (coord_eqb src dst = false) as ->.
  { destruct (coord_eqb src dst) eqn:E; [|reflexivity]. by apply coord_eqb_eq in E. }
  rewrite andb_true_r, negb_orb, !Z.ltb_antisym, !negb_involutive. reflexivity.
Qed.

Lemma king_adjacentb_spec a b : king_adjacentb a b = true <-> king_adjacent a b.
Proof.
  unfold king_adjacentb, king_adjacent.
  rewrite !andb_true_iff, !Z.leb_le, negb_true_iff.
  split.
  - intros [[H1 H2] H3]. split; [exact H1|]. split; [exact H2|].
    intros ->. by rewrite (proj2 (coord_eqb_eq b b) eq_refl) in H3.
  - intros (H1 & H2 & H3). split; [by split|].
    destruct (coord_eqb a b) eqn:E; [|reflexivity]. by apply coord_eqb_eq in E.
Qed.

Lemma opponent_move_first_failure self mv state :
  opponent_move self mv state
  = match first_failure self state mv with
    | Some c => (inr (failure_of mv c), state)
    | None => place_piece mv (opp self) state
    end.
Proof.
  destruct mv as [|[dr dc] [|[sr sc] [|extra rest]]].
  - reflexivity.
  - unfold opponent_move, first_failure, conditions, condition_holds, is_relocation.
    change (len [(dr, dc)]) with 1.
    change (move_item [(dr, dc)] 0) with (dr, dc).
    change (length [(dr, dc)]) with 1%nat.
    change ((1 <=? 1) && (1 <=? 2)) with true. change (1 <? 1) with false.
    unfold bind, raise_if, raise, ret, read_board, in_bounds, is_empty.
    cbn [fst snd find Nat.eqb orb negb andb].
    destruct ((0 <=? dr) && (dr <? 5) && (0 <=? dc) && (dc <? 5)); cbn [negb]; [|reflexivity].
    destruct (cell_eqb (cell_at state dr dc) Empty); reflexivity.
  - unfold opponent_move, first_failure, conditions, condition_holds, is_relocation.
    change (len [(dr, dc); (sr, sc)]) with 2.
    change (move_item [(dr, dc); (sr, sc)] 0) with (dr, dc).
    change (move_item [(dr, dc); (sr, sc)] 1) with (sr, sc).
    change (length [(dr, dc); (sr, sc)]) with 2%nat.
    change ((1 <=? 2) && (2 <=? 2)) with true. change (1 <? 2) with true.
    unfold bind, raise_if, raise, ret, read_board, in_bounds, is_empty, holds, failure_of.
    change (move_item [(dr, dc); (sr, sc)] 1) with (sr, sc).
    cbn [fst snd find Nat.eqb orb negb andb].
    destruct ((0 <=? dr) && (dr <? 5) && (0 <=? dc) && (dc <? 5)); cbn [negb]; [|reflexivity].
    destruct (cell_eqb (cell_at state dr dc) Empty) eqn:He; cbn [negb]; [|reflexivity].
    destruct ((0 <=? sr) && (sr <? 5) && (0 <=? sc) && (sc <? 5)); cbn [negb]; [|reflexivity].
    destruct (cell_eqb (cell_at state sr sc) (Piece (opp self))) eqn:Hp; cbn [negb];
      [|reflexivity].
    pose proof (deltas_king_adjacent (sr, sc) (dr, dc)
                  (source_differs_destination state (opp self) (sr, sc) (dr, dc) He Hp)) as Hadj.
    unfold deltas_within_one in Hadj. cbn [fst snd] in Hadj. rewrite <- Hadj.
    destruct ((1 <? Z.abs (sr - dr)) || (1 <? Z.abs (sc - dc))); reflexivity.
  - unfold opponent_move, first_failure, conditions, condition_holds, bind, raise_if, raise, len.
    cbn [length find Nat.eqb orb negb].
    replace ((1 <=? Z.of_nat (S (S (S (length rest)))))
             && (Z.of_nat (S (S (S (length rest)))) <=? 2))
      with false by (symmetry; apply andb_false_iff; right; apply Z.leb_gt; lia).
    reflexivity.
Qed.

Lemma first_failure_none self state mv :
  first_failure self state mv = None <->
  forall c, condition_holds self state mv c = true.
Proof.
  unfold first_failure. split.
  - intros Hnone c. pose proof (find_none _ _ Hnone c) as H.
    apply negb_false_iff, H. destruct c; simpl; auto 10.
  - intros Hall. unfold conditions. cbn [find]. by rewrite !Hall.
Qed.

(** The result of [opponent_move]: the failure of the first failing
    condition with the board as it was, or the board of [place_piece]. *)
Lemma opponent_move_result self mv state :
  opponent_move self mv state
  = match first_failure self state mv with
    | Some c => (inr (failure_of mv c), state)
    | None => (inl tt, snd (place_piece mv (opp self) state))
    end.
Proof.
  rewrite opponent_move_first_failure.
  destruct (first_failure self state mv); [reflexivity|].
  unfold place_piece, bind, write_board, ret. by destruct (1 <? len mv).
Qed.

Lemma opponent_move_accepted self mv state state' :
  opponent_move self mv state = (inl tt, state') ->
  (forall c, condition_holds self state mv c = true)
  /\ state' = snd (place_piece mv (opp self) state).
Proof.
  rewrite opponent_move_result.
  destruct (first_failure self state mv) eqn:E; [discriminate|].
  intros [= <-]. split; [|reflexivity]. by apply first_failure_none.
Qed.

Lemma opponent_move_rejected self mv state e state' :
  opponent_move self mv state = (inr e, state') -> state' = state.
Proof.
  rewrite opponent_move_result. destruct (first_failure self state mv); congruence.
Qed.

Lemma failure_of_inj mv c1 c2 : failure_of mv c1 = failure_of mv c2 -> c1 = c2.
Proof. destruct c1, c2; simpl; congruence. Qed.

(** ** Distinct moves of the successors *)

Lemma NoDup_neighbours q : NoDup (neighbours q).
Proof.
  unfold neighbours. apply NoDup_fmap_2.
  - intros [a b] [c d] [= H1 H2]. f_equal; lia.
  - apply (bool_decide_eq_true_1 (NoDup king_offsets)). vm_compute. reflexivity.
Qed.

Lemma NoDup_drop_moves state p : NoDup (snd <$> drop_spec state p).
Proof.
  unfold drop_spec. rewrite <- list_fmap_compose.
  apply NoDup_fmap_2.
  - intros q1 q2 [= ->]. reflexivity.
  - apply NoDup_filter, NoDup_all_coords.
Qed.

Lemma fmap_bind_list {A B C : Type} (f : B -> C) (g : A -> list B) (l : list A) :
  f <$> (l ≫= g) = l ≫= (fun y => f <$> g y).
Proof.
  induction l as [|y l IH]; [reflexivity|].
  cbn [mbind list_bind]. by rewrite fmap_app, IH.
Qed.

Lemma NoDup_move_moves state p : NoDup (snd <$> move_spec state p).
Proof.
  unfold move_spec. rewrite fmap_bind_list.
  apply NoDup_bind.
  - intros src1 src2 mv _ _ Hin1 Hin2.
    apply list_elem_of_fmap in Hin1 as (x1 & -> & (d1 & -> & _)%list_elem_of_fmap).
    apply list_elem_of_fmap in Hin2 as (x2 & Heq & (d2 & -> & _)%list_elem_of_fmap).
    unfold relocate in Heq. cbn [snd] in Heq. congruence.
  - intros src _. rewrite <- list_fmap_compose. apply NoDup_fmap_2.
    + intros d1 d2 [= ->]. reflexivity.
    + apply NoDup_filter, NoDup_neighbours.
  - apply NoDup_filter, NoDup_all_coords.
Qed.

Lemma neighbours_king_adjacent src dst : dst ∈ neighbours src <-> king_adjacent src dst.
Proof.
  split.
  - unfold neighbours, king_offsets. cbn [fmap list_fmap fst snd].
    destruct src as [r c]. cbn [fst snd]. unfold king_adjacent.
    rewrite !elem_of_cons, elem_of_nil.
    intros H; repeat (destruct H as [->|H]); try done; cbn [fst snd];
      (split; [lia|]); (split; [lia|]); intros [= ? ?]; lia.
  - intros H. by apply king_adjacentb_neighbours, king_adjacentb_spec.
Qed.

(** ** The terminal detector and the winning patterns *)

Lemma four_equal_true a b c d :
  four_equal a b c d = true <-> exists p, a = Piece p /\ b = Piece p /\ c = Piece p /\ d = Piece p.
Proof.
  unfold four_equal. rewrite !andb_true_iff, negb_true_iff, !cell_eqb_eq, cell_eqb_neq. split.
  - intros [[[Ha <-] <-] <-]. destruct a as [|p]; [done|]. eauto.
  - intros (p & -> & -> & -> & ->). done.
Qed.

Lemma box_equal_true a b c d :
  box_equal a b c d = true <-> exists p, a = Piece p /\ b = Piece p /\ c = Piece p /\ d = Piece p.
Proof.
  unfold box_equal. rewrite !andb_true_iff, negb_true_iff, !cell_eqb_eq, cell_eqb_neq. split.
  - intros [[[Ha <-] <-] <-]. destruct a as [|p]; [done|]. eauto.
  - intros (p & -> & -> & -> & ->). done.
Qed.

Lemma complete_four state p q1 q2 q3 q4 :
  complete state p [q1; q2; q3; q4] = true
  <-> cell_at state (fst q1) (snd q1) = Piece p /\ cell_at state (fst q2) (snd q2) = Piece p
      /\ cell_at state (fst q3) (snd q3) = Piece p /\ cell_at state (fst q4) (snd q4) = Piece p.
Proof.
  unfold complete, cells_of. cbn [fmap list_fmap forallb].
  rewrite !andb_true_iff, !cell_eqb_eq. tauto.
Qed.

Lemma fits_four q1 q2 q3 q4 :
  fits [q1; q2; q3; q4] = true
  <-> in_bounds q1 = true /\ in_bounds q2 = true /\ in_bounds q3 = true /\ in_bounds q4 = true.
Proof. unfold fits. cbn [forallb]. rewrite !andb_true_iff. tauto. Qed.

Lemma line_window_cells r c dr dc :
  line_window r c dr dc
  = [(r, c); (r + dr, c + dc); (r + 2 * dr, c + 2 * dc); (r + 3 * dr, c + 3 * dc)].
Proof.
  unfold line_window. change (range 4) with [0; 1; 2; 3]. cbn [fmap list_fmap].
  repeat f_equal; lia.
Qed.

Lemma elem_of_windows_on_board mk w :
  w ∈ windows_on_board mk
  <-> exists r c, 0 <= r < 5 /\ 0 <= c < 5 /\ w = mk r c /\ fits w = true.
Proof.
  unfold windows_on_board. rewrite list_elem_of_filter, list_elem_of_bind. split.
  - intros [Hfit (q & ->%list_elem_of_singleton & Hq%elem_of_all_coords)].
    exists (fst q), (snd q). tauto.
  - intros (r & c & Hr & Hc & -> & Hfit). split; [exact Hfit|].
    exists (r, c). split; [by apply list_elem_of_singleton|].
    apply elem_of_all_coords. cbn [fst snd]. lia.
Qed.

(** *** Double loops with an early return *)

Lemma for_loop_unit_inr {A R : Type} (xs : list A) (body : A -> unit -> unit + R) v :
  for_loop xs body tt = inr v -> exists y, y ∈ xs /\ body y tt = inr v.
Proof.
  induction xs as [|y xs IH]; cbn [for_loop]; [discriminate|].
  destruct (body y tt) as [[]|r] eqn:E.
  - intros H. destruct (IH H) as (z & Hz & Hb). exists z. split; [by right | exact Hb].
  - intros [= <-]. exists y. split; [by left | exact E].
Qed.

Lemma for_loop_unit_inl {A R : Type} (xs : list A) (body : A -> unit -> unit + R) s :
  for_loop xs body tt = inl s -> forall y, y ∈ xs -> body y tt = inl tt.
Proof.
  induction xs as [|y xs IH]; cbn [for_loop]; [intros _ z Hz; inversion Hz|].
  destruct (body y tt) as [[]|r] eqn:E; [|discriminate].
  intros H z [->|Hz]%elem_of_cons; [exact E | by apply IH].
Qed.

Lemma double_loop_inr {A B R : Type} (xs : list A) (ys : list B)
    (test : A -> B -> bool) (val : A -> B -> R) v :
  for_loop xs
    (fun y s => for_loop ys (fun z s => if test y z then inr (val y z) else inl s) s) tt
  = inr v ->
  exists y z, y ∈ xs /\ z ∈ ys /\ test y z = true /\ v = val y z.
Proof.
  intros (y & Hy & (z & Hz & Hb)%for_loop_unit_inr)%for_loop_unit_inr.
  exists y, z. destruct (test y z); [|discriminate]. injection Hb as <-. done.
Qed.

Lemma double_loop_inl {A B R : Type} (xs : list A) (ys : list B)
    (test : A -> B -> bool) (val : A -> B -> R) s :
  for_loop xs
    (fun y s => for_loop ys (fun z s => if test y z then inr (val y z) else inl s) s) tt
  = inl s ->
  forall y z, y ∈ xs -> z ∈ ys -> test y z = false.
Proof.
  intros H y z Hy Hz.
  pose proof (for_loop_unit_inl _ _ _ H y Hy) as H1. cbv beta in H1.
  pose proof (for_loop_unit_inl _ _ _ H1 z Hz) as H2. cbv beta in H2.
  destruct (test y z); [discriminate | reflexivity].
Qed.

Lemma elem_of_range_from a n z : z ∈ range_from a n <-> a <= z < a + Z.of_nat n.
Proof.
  unfold range_from. rewrite list_elem_of_fmap. split.
  - intros (k & -> & Hk). apply elem_of_seq in Hk. lia.
  - intros H. exists (Z.to_nat (z - a)). split; [lia|]. apply elem_of_seq. lia.
Qed.

(** A row of the board, by its index. *)
Lemma row_of_board state row :
  wf_board state -> row ∈ state ->
  exists r, 0 <= r < 5 /\ forall c, item row c = cell_at state r c.
Proof.
  intros [Hlen _] (k & Hk)%list_elem_of_lookup_1.
  pose proof (lookup_lt_Some _ _ _ Hk). exists (Z.of_nat k). split; [lia|].
  intros c. unfold cell_at. by rewrite Nat2Z.id, Hk.
Qed.

Lemma board_row state r :
  wf_board state -> 0 <= r < 5 ->
  exists row, row ∈ state /\ forall c, item row c = cell_at state r c.
Proof.
  intros Hwf Hr. destruct (wf_board_row state r Hwf Hr) as (row & Hrow & _).
  exists row. split; [eapply list_elem_of_lookup_2, Hrow|].
  intros c. unfold cell_at. by rewrite Hrow.
Qed.

Lemma complete_line state p r c dr dc :
  complete state p (line_window r c dr dc) = true
  <-> cell_at state r c = Piece p /\ cell_at state (r + dr) (c + dc) = Piece p
      /\ cell_at state (r + 2 * dr) (c + 2 * dc) = Piece p
      /\ cell_at state (r + 3 * dr) (c + 3 * dc) = Piece p.
Proof. rewrite line_window_cells, complete_four. reflexivity. Qed.

Lemma complete_box state p r c :
  complete state p (box_window r c) = true
  <-> cell_at state r c = Piece p /\ cell_at state (r + 1) c = Piece p
      /\ cell_at state r (c + 1) = Piece p /\ cell_at state (r + 1) (c + 1) = Piece p.
Proof. unfold box_window. rewrite complete_four. cbn [fst snd]. tauto. Qed.

(** The cells that one test of the detector compares: a line from [(r, c)]
    in direction [(dr, dc)]. *)
Lemma four_equal_line state r c dr dc :
  four_equal (cell_at state r c) (cell_at state (r + dr) (c + dc))
    (cell_at state (r + 2 * dr) (c + 2 * dc)) (cell_at state (r + 3 * dr) (c + 3 * dc)) = true
  <-> exists p, complete state p (line_window r c dr dc) = true
                /\ cell_at state r c = Piece p.
Proof.
  rewrite four_equal_true. split.
  - intros (p & H0 & H1 & H2 & H3). exists p. by rewrite complete_line.
  - intros (p & Hc & _). apply complete_line in Hc. eauto.
Qed.

Lemma four_equal_box state r c :
  box_equal (cell_at state r c) (cell_at state (r + 1) c)
    (cell_at state r (c + 1)) (cell_at state (r + 1) (c + 1)) = true
  <-> exists p, complete state p (box_window r c) = true /\ cell_at state r c = Piece p.
Proof.
  rewrite box_equal_true. split.
  - intros (p & H0 & H1 & H2 & H3). exists p. by rewrite complete_box.
  - intros (p & Hc & _). apply complete_box in Hc. eauto.
Qed.

(** The tests of the five scans, as tests on lines and boxes. *)
Lemma horizontal_test state r c :
  four_equal (cell_at state r c) (cell_at state r (c + 1)) (cell_at state r (c + 2))
    (cell_at state r (c + 3))
  = four_equal (cell_at state r c) (cell_at state (r + 0) (c + 1))
      (cell_at state (r + 2 * 0) (c + 2 * 1)) (cell_at state (r + 3 * 0) (c + 3 * 1)).
Proof. by rewrite !Z.mul_0_r, !Z.mul_1_r, !Z.add_0_r. Qed.

Lemma vertical_test state r c :
  four_equal (cell_at state r c) (cell_at state (r + 1) c) (cell_at state (r + 2) c)
    (cell_at state (r + 3) c)
  = four_equal (cell_at state r c) (cell_at state (r + 1) (c + 0))
      (cell_at state (r + 2 * 1) (c + 2 * 0)) (cell_at state (r + 3 * 1) (c + 3 * 0)).
Proof. by rewrite !Z.mul_0_r, !Z.mul_1_r, !Z.add_0_r. Qed.

Lemma diagonal_test state r c :
  four_equal (cell_at state r c) (cell_at state (r + 1) (c + 1)) (cell_at state (r + 2) (c + 2))
    (cell_at state (r + 3) (c + 3))
  = four_equal (cell_at state r c) (cell_at state (r + 1) (c + 1))
      (cell_at state (r + 2 * 1) (c + 2 * 1)) (cell_at state (r + 3 * 1) (c + 3 * 1)).
Proof. by rewrite !Z.mul_1_r. Qed.

Lemma antidiagonal_test state r c :
  four_equal (cell_at state r c) (cell_at state (r + 1) (c - 1)) (cell_at state (r + 2) (c - 2))
    (cell_at state (r + 3) (c - 3))
  = four_equal (cell_at state r c) (cell_at state (r + 1) (c + -1))
      (cell_at state (r + 2 * 1) (c + 2 * -1)) (cell_at state (r + 3 * 1) (c + 3 * -1)).
Proof. rewrite !Z.mul_1_r. reflexivity. Qed.

(** What a scan returns, and what it has excluded when it returns nothing. *)
Lemma check_horizontal_inr self state v :
  wf_board state -> check_horizontal self state = inr v ->
  exists r c p, 0 <= r < 5 /\ 0 <= c < 2
    /\ complete state p (line_window r c 0 1) = true /\ v = winner_value self (Piece p).
Proof.
  intros Hwf (row & c & Hrow & Hc%elem_of_range & Ht & ->)%double_loop_inr.
  destruct (row_of_board state row Hwf Hrow) as (r & Hr & Hitem).
  rewrite !Hitem in *. rewrite horizontal_test in Ht.
  apply four_equal_line in Ht as (p & Hp & ->). exists r, c, p. split; [lia|]. split; [lia|]. done.
Qed.

Lemma check_horizontal_inl self state s r c p :
  wf_board state -> check_horizontal self state = inl s ->
  0 <= r < 5 -> 0 <= c < 2 -> complete state p (line_window r c 0 1) = false.
Proof.
  intros Hwf H Hr Hc.
  destruct (board_row state r Hwf Hr) as (row & Hrow & Hitem).
  pose proof (double_loop_inl _ _ _ _ _ H row c Hrow) as Ht. cbv beta in Ht.
  specialize (Ht ltac:(apply elem_of_range; lia)).
  rewrite !Hitem, horizontal_test in Ht.
  destruct (complete state p (line_window r c 0 1)) eqn:E; [|reflexivity].
  assert (four_equal (cell_at state r c) (cell_at state (r + 0) (c + 1))
            (cell_at state (r + 2 * 0) (c + 2 * 1)) (cell_at state (r + 3 * 0) (c + 3 * 1)) = true)
    as Ht'; [|congruence].
  apply four_equal_line. exists p. split; [exact E|]. by apply complete_line in E as [? _].
Qed.

Lemma check_vertical_inr self state v :
  check_vertical self state = inr v ->
  exists r c p, 0 <= r < 2 /\ 0 <= c < 5
    /\ complete state p (line_window r c 1 0) = true /\ v = winner_value self (Piece p).
Proof.
  intros (c & r & Hc%elem_of_range & Hr%elem_of_range & Ht & ->)%double_loop_inr.
  rewrite vertical_test in Ht.
  apply four_equal_line in Ht as (p & Hp & ->). exists r, c, p. split; [lia|]. split; [lia|]. done.
Qed.

Lemma check_vertical_inl self state s r c p :
  check_vertical self state = inl s ->
  0 <= r < 2 -> 0 <= c < 5 -> complete state p (line_window r c 1 0) = false.
Proof.
  intros H Hr Hc.
  pose proof (double_loop_inl _ _ _ _ _ H c r) as Ht. cbv beta in Ht.
  specialize (Ht ltac:(apply elem_of_range; lia) ltac:(apply elem_of_range; lia)).
  rewrite vertical_test in Ht.
  destruct (complete state p (line_window r c 1 0)) eqn:E; [|reflexivity].
  assert (four_equal (cell_at state r c) (cell_at state (r + 1) (c + 0))
            (cell_at state (r + 2 * 1) (c + 2 * 0)) (cell_at state (r + 3 * 1) (c + 3 * 0)) = true)
    as Ht'; [|congruence].
  apply four_equal_line. exists p. split; [exact E|]. by apply complete_line in E as [? _].
Qed.

Lemma check_diagonal_inr self state v :
  check_diagonal self state = inr v ->
  exists r c p, 0 <= r < 2 /\ 0 <= c < 2
    /\ complete state p (line_window r c 1 1) = true /\ v = winner_value self (Piece p).
Proof.
  intros (r & c & Hr%elem_of_range & Hc%elem_of_range & Ht & ->)%double_loop_inr.
  rewrite diagonal_test in Ht.
  apply four_equal_line in Ht as (p & Hp & ->). exists r, c, p. split; [lia|]. split; [lia|]. done.
Qed.

Lemma check_diagonal_inl self state s r c p :
  check_diagonal self state = inl s ->
  0 <= r < 2 -> 0 <= c < 2 -> complete state p (line_window r c 1 1) = false.
Proof.
  intros H Hr Hc.
  pose proof (double_loop_inl _ _ _ _ _ H r c) as Ht. cbv beta in Ht.
  specialize (Ht ltac:(apply elem_of_range; lia) ltac:(apply elem_of_range; lia)).
  rewrite diagonal_test in Ht.
  destruct (complete state p (line_window r c 1 1)) eqn:E; [|reflexivity].
  assert (four_equal (cell_at state r c) (cell_at state (r + 1) (c + 1))
            (cell_at state (r + 2 * 1) (c + 2 * 1)) (cell_at state (r + 3 * 1) (c + 3 * 1)) = true)
    as Ht'; [|congruence].
  apply four_equal_line. exists p. split; [exact E|]. by apply complete_line in E as [? _].
Qed.

Lemma check_antidiagonal_inr self state v :
  check_antidiagonal self state = inr v ->
  exists r c p, 0 <= r < 2 /\ 3 <= c < 5
    /\ complete state p (line_window r c 1 (-1)) = true /\ v = winner_value self (Piece p).
Proof.
  intros (r & c & Hr%elem_of_range & Hc%elem_of_range_from & Ht & ->)%double_loop_inr.
  rewrite antidiagonal_test in Ht.
  apply four_equal_line in Ht as (p & Hp & ->). exists r, c, p. split; [lia|]. split; [lia|]. done.
Qed.

Lemma check_antidiagonal_inl self state s r c p :
  check_antidiagonal self state = inl s ->
  0 <= r < 2 -> 3 <= c < 5 -> complete state p (line_window r c 1 (-1)) = false.
Proof.
  intros H Hr Hc.
  pose proof (double_loop_inl _ _ _ _ _ H r c) as Ht. cbv beta in Ht.
  specialize (Ht ltac:(apply elem_of_range; lia) ltac:(apply elem_of_range_from; lia)).
  rewrite antidiagonal_test in Ht.
  destruct (complete state p (line_window r c 1 (-1))) eqn:E; [|reflexivity].
  assert (four_equal (cell_at state r c) (cell_at state (r + 1) (c + -1))
            (cell_at state (r + 2 * 1) (c + 2 * -1)) (cell_at state (r + 3 * 1) (c + 3 * -1)) = true)
    as Ht'; [|congruence].
  apply four_equal_line. exists p. split; [exact E|]. by apply complete_line in E as [? _].
Qed.

Lemma check_box_inr self state v :
  check_box self state = inr v ->
  exists r c p, 0 <= r < 4 /\ 0 <= c < 4
    /\ complete state p (box_window r c) = true /\ v = winner_value self (Piece p).
Proof.
  intros (r & c & Hr%elem_of_range & Hc%elem_of_range & Ht & ->)%double_loop_inr.
  apply four_equal_box in Ht as (p & Hp & ->). exists r, c, p. split; [lia|]. split; [lia|]. done.
Qed.

Lemma check_box_inl self state s r c p :
  check_box self state = inl s ->
  0 <= r < 4 -> 0 <= c < 4 -> complete state p (box_window r c) = false.
Proof.
  intros H Hr Hc.
  pose proof (double_loop_inl _ _ _ _ _ H r c) as Ht. cbv beta in Ht.
  specialize (Ht ltac:(apply elem_of_range; lia) ltac:(apply elem_of_range; lia)).
  destruct (complete state p (box_window r c)) eqn:E; [|reflexivity].
  assert (box_equal (cell_at state r c) (cell_at state (r + 1) c)
            (cell_at state r (c + 1)) (cell_at state (r + 1) (c + 1)) = true) as Ht'; [|congruence].
  apply four_equal_box. exists p. split; [exact E|]. by apply complete_box in E as [? _].
Qed.

(** *** The windows of the five families *)

Lemma fits_line r c dr dc :
  fits (line_window r c dr dc) = true
  <-> (0 <= r < 5 /\ 0 <= c < 5) /\ (0 <= r + dr < 5 /\ 0 <= c + dc < 5)
      /\ (0 <= r + 2 * dr < 5 /\ 0 <= c + 2 * dc < 5)
      /\ (0 <= r + 3 * dr < 5 /\ 0 <= c + 3 * dc < 5).
Proof. rewrite line_window_cells, fits_four, !in_bounds_spec. reflexivity. Qed.

Lemma fits_box r c :
  fits (box_window r c) = true <-> 0 <= r < 4 /\ 0 <= c < 4.
Proof. unfold box_window. rewrite fits_four, !in_bounds_spec. cbn [fst snd]. lia. Qed.

Lemma elem_of_line_windows w dr dc (rlo rhi clo chi : Z) :
  (forall r c, fits (line_window r c dr dc) = true <-> rlo <= r < rhi /\ clo <= c < chi) ->
  0 <= rlo -> rhi <= 5 -> 0 <= clo -> chi <= 5 ->
  w ∈ windows_on_board (fun r c => line_window r c dr dc)
  <-> exists r c, rlo <= r < rhi /\ clo <= c < chi /\ w = line_window r c dr dc.
Proof.
  intros Hfits ? ? ? ?. rewrite elem_of_windows_on_board. split.
  - intros (r & c & Hr & Hc & -> & Hfit). apply Hfits in Hfit. exists r, c. tauto.
  - intros (r & c & Hr & Hc & ->). exists r, c.
    split; [lia|]. split; [lia|]. split; [reflexivity|]. apply Hfits. tauto.
Qed.

Lemma elem_of_all_windows w :
  w ∈ all_windows
  <-> (exists r c, 0 <= r < 5 /\ 0 <= c < 2 /\ w = line_window r c 0 1)
      \/ (exists r c, 0 <= r < 2 /\ 0 <= c < 5 /\ w = line_window r c 1 0)
      \/ (exists r c, 0 <= r < 2 /\ 0 <= c < 2 /\ w = line_window r c 1 1)
      \/ (exists r c, 0 <= r < 2 /\ 3 <= c < 5 /\ w = line_window r c 1 (-1))
      \/ (exists r c, 0 <= r < 4 /\ 0 <= c < 4 /\ w = box_window r c).
Proof.
  unfold all_windows. rewrite !elem_of_app.
  rewrite (elem_of_line_windows w 0 1 0 5 0 2) by (try lia; intros; rewrite fits_line; lia).
  rewrite (elem_of_line_windows w 1 0 0 2 0 5) by (try lia; intros; rewrite fits_line; lia).
  rewrite (elem_of_line_windows w 1 1 0 2 0 2) by (try lia; intros; rewrite fits_line; lia).
  rewrite (elem_of_line_windows w 1 (-1) 0 2 3 5) by (try lia; intros; rewrite fits_line; lia).
  assert (w ∈ windows_on_board box_window
          <-> exists r c, 0 <= r < 4 /\ 0 <= c < 4 /\ w = box_window r c) as ->; [|reflexivity].
  rewrite elem_of_windows_on_board. split.
  - intros (r & c & Hr & Hc & -> & Hfit). apply fits_box in Hfit. exists r, c. tauto.
  - intros (r & c & Hr & Hc & ->). exists r, c.
    split; [lia|]. split; [lia|]. split; [reflexivity|]. apply fits_box. tauto.
Qed.

(** A value other than 0 comes from a complete window, and says whose. *)
Lemma game_value_winner self state :
  wf_board state -> game_value self state <> 0 ->
  exists p w, w ∈ all_windows /\ complete state p w = true
              /\ game_value self state = winner_value self (Piece p).
Proof.
  intros Hwf. unfold game_value.
  destruct (check_horizontal self state) as [s1|v] eqn:E1.
  2: { intros _.
       destruct (check_horizontal_inr self state v Hwf E1) as (r & c & p & ? & ? & ? & ->).
       exists p, (line_window r c 0 1). split; [|done]. apply elem_of_all_windows.
       left. exists r, c. auto. }
  destruct (check_vertical self state) as [s2|v] eqn:E2.
  2: { intros _. destruct (check_vertical_inr self state v E2) as (r & c & p & ? & ? & ? & ->).
       exists p, (line_window r c 1 0). split; [|done]. apply elem_of_all_windows.
       right. left. exists r, c. auto. }
  destruct (check_diagonal self state) as [s3|v] eqn:E3.
  2: { intros _. destruct (check_diagonal_inr self state v E3) as (r & c & p & ? & ? & ? & ->).
       exists p, (line_window r c 1 1). split; [|done]. apply elem_of_all_windows.
       right. right. left. exists r, c. auto. }
  destruct (check_antidiagonal self state) as [s4|v] eqn:E4.
  2: { intros _. destruct (check_antidiagonal_inr self state v E4) as (r & c & p & ? & ? & ? & ->).
       exists p, (line_window r c 1 (-1)). split; [|done]. apply elem_of_all_windows.
       right. right. right. left. exists r, c. auto. }
  destruct (check_box self state) as [s5|v] eqn:E5.
  2: { intros _. destruct (check_box_inr self state v E5) as (r & c & p & ? & ? & ? & ->).
       exists p, (box_window r c). split; [|done]. apply elem_of_all_windows.
       right. right. right. right. exists r, c. auto. }
  done.
Qed.

(** The detector returns 0 exactly when no window of the board is complete. *)
Lemma game_value_zero_iff self state :
  wf_board state ->
  game_value self state = 0 <-> forall p, ~ has_pattern state p.
Proof.
  intros Hwf. split.
  - intros Hgv p (w & Hw & Hc).
    assert (complete state p w = false) as Hf; [|congruence]. clear Hc.
    unfold game_value in Hgv.
    destruct (check_horizontal self state) as [s1|v] eqn:E1;
      [|by destruct (check_horizontal_sign self state v E1); lia].
    destruct (check_vertical self state) as [s2|v] eqn:E2;
      [|by destruct (check_vertical_sign self state v E2); lia].
    destruct (check_diagonal self state) as [s3|v] eqn:E3;
      [|by destruct (check_diagonal_sign self state v E3); lia].
    destruct (check_antidiagonal self state) as [s4|v] eqn:E4;
      [|by destruct (check_antidiagonal_sign self state v E4); lia].
    destruct (check_box self state) as [s5|v] eqn:E5;
      [|by destruct (check_box_sign self state v E5); lia].
    apply elem_of_all_windows in Hw
      as [(r & c & ? & ? & ->) | [(r & c & ? & ? & ->) | [(r & c & ? & ? & ->)
         | [(r & c & ? & ? & ->) | (r & c & ? & ? & ->)]]]].
    + eapply check_horizontal_inl; eassumption.
    + eapply check_vertical_inl; eassumption.
    + eapply check_diagonal_inl; eassumption.
    + eapply check_antidiagonal_inl; eassumption.
    + eapply check_box_inl; eassumption.
  - intros Hnone. destruct (Z.eq_dec (game_value self state) 0) as [|Hne]; [done|].
    destruct (game_value_winner self state Hwf Hne) as (p & w & Hw & Hc & _).
    exfalso. apply (Hnone p). by exists w.
Qed.

(** 1 means a pattern of the agent, -1 a pattern of the opponent. *)
Lemma game_value_sides mp D state :
  wf_board state ->
  (game_value (player mp D) state = 1 -> has_pattern state mp)
  /\ (game_value (player mp D) state = -1 -> has_pattern state (other mp)).
Proof.
  intros Hwf. split; intros Hgv.
  - destruct (game_value_winner (player mp D) state Hwf ltac:(lia)) as (p & w & Hw & Hc & Hv).
    rewrite Hgv in Hv. unfold winner_value in Hv. rewrite my_piece_player in Hv.
    cbn [cell_eqb] in Hv. destruct (piece_eqb p mp) eqn:E; [|lia].
    apply piece_eqb_eq in E as ->. by exists w.
  - destruct (game_value_winner (player mp D) state Hwf ltac:(lia)) as (p & w & Hw & Hc & Hv).
    rewrite Hgv in Hv. unfold winner_value in Hv. rewrite my_piece_player in Hv.
    cbn [cell_eqb] in Hv. destruct (piece_eqb p mp) eqn:E; [lia|].
    assert (p = other mp) as -> by (destruct p, mp; cbn [piece_eqb other] in *; congruence).
    by exists w.
Qed.

(** ** The initial values of the loops in the search

    A loop that replaces its incumbent on no successor returns its initial
    value and no move; the value a loop returns is its initial value or the
    score of a successor. *)

Lemma select_loop_none better init eval succs :
  (forall s m, (s, m) ∈ succs -> better init (eval s) = false) ->
  select_loop better init eval succs = (init, None).
Proof.
  induction succs as [|[s0 m0] succs IH] using rev_ind; intros Hall; [reflexivity|].
  rewrite select_loop_snoc, IH.
  - rewrite (Hall s0 m0); [reflexivity|]. apply elem_of_app. right. left.
  - intros s m Hin. apply (Hall s m). apply elem_of_app. by left.
Qed.

Lemma select_loop_value better init eval succs :
  select_loop better init eval succs = (init, None)
  \/ exists s m, (s, m) ∈ succs /\ select_loop better init eval succs = (eval s, Some m).
Proof.
  induction succs as [|[s0 m0] succs IH] using rev_ind; [by left|].
  rewrite select_loop_snoc.
  destruct IH as [-> | (s & m & Hin & ->)].
  - destruct (better init (eval s0)); [|by left].
    right. exists s0, m0. split; [|reflexivity]. apply elem_of_app. right. left.
  - right. destruct (better (eval s) (eval s0)).
    + exists s0, m0. split; [|reflexivity]. apply elem_of_app. right. left.
    + exists s, m. split; [|reflexivity]. apply elem_of_app. by left.
Qed.

Lemma above_NegInf v : score_ltb NegInf v = false <-> v = NegInf.
Proof. destruct v; simpl; split; congruence. Qed.

Lemma below_PosInf v : score_ltb v PosInf = false <-> v = PosInf.
Proof. destruct v; simpl; split; congruence. Qed.

Lemma sentinel_differ is_max : sentinel is_max <> sentinel (negb is_max).
Proof. by destruct is_max. Qed.

(** The value and the move of a node of the search that is not a leaf. *)
Lemma node_choice_value is_max eval succs :
  node_choice is_max eval succs = (sentinel is_max, None)
  \/ exists s m, (s, m) ∈ succs /\ node_choice is_max eval succs = (eval s, Some m).
Proof.
  unfold node_choice, sentinel. destruct is_max.
  - rewrite max_loop_select. apply select_loop_value.
  - rewrite min_loop_select. apply select_loop_value.
Qed.

(** No successor scores strictly better than the value of the node. *)
Lemma node_choice_best is_max eval succs s m :
  (s, m) ∈ succs ->
  ~ strictly_better is_max (fst (node_choice is_max eval succs)) (eval s).
Proof.
  intros Hin. unfold node_choice, strictly_better, score_lt. destruct is_max; cbv iota.
  - rewrite max_loop_select.
    destruct (select_loop_inv better_max NegInf score_ltb_irrefl score_le_lt_trans score_lt_le
                eval succs) as [Hub _].
    specialize (Hub s m Hin). intros Hb.
    change (better_max (fst (select_loop better_max NegInf eval succs)) (eval s) = true) in Hb.
    congruence.
  - rewrite min_loop_select.
    destruct (select_loop_inv better_min PosInf score_ltb_irrefl better_min_trans better_min_weak
                eval succs) as [Hub _].
    specialize (Hub s m Hin). intros Hb.
    change (better_min (fst (select_loop better_min PosInf eval succs)) (eval s) = true) in Hb.
    congruence.
Qed.

(** The node returns its initial value and no move exactly when every
    successor scores the initial value. *)
Lemma node_choice_sentinel is_max eval succs :
  (forall s m, (s, m) ∈ succs -> eval s = sentinel is_max) ->
  node_choice is_max eval succs = (sentinel is_max, None).
Proof.
  intros Hall. unfold node_choice, sentinel in *. destruct is_max.
  - rewrite max_loop_select. apply select_loop_none.
    intros s m Hin. rewrite (Hall s m Hin). reflexivity.
  - rewrite min_loop_select. apply select_loop_none.
    intros s m Hin. rewrite (Hall s m Hin). reflexivity.
Qed.

Lemma not_better_than_sentinel is_max v :
  ~ strictly_better is_max (sentinel is_max) v <-> v = sentinel is_max.
Proof.
  unfold strictly_better, score_lt, sentinel. destruct is_max.
  - rewrite not_true_iff_false. apply above_NegInf.
  - rewrite not_true_iff_false. apply below_PosInf.
Qed.

Lemma node_choice_own_sentinel is_max eval succs s m :
  fst (node_choice is_max eval succs) = sentinel is_max ->
  (s, m) ∈ succs -> eval s = sentinel is_max.
Proof.
  intros Hv Hin. apply not_better_than_sentinel. rewrite <- Hv.
  by eapply node_choice_best.
Qed.

(** With a successor that scores strictly better than the initial value the
    node returns a move. *)
Lemma node_choice_some is_max eval succs s m :
  (s, m) ∈ succs -> eval s <> sentinel is_max ->
  exists mv, snd (node_choice is_max eval succs) = Some mv.
Proof.
  intros Hin Hne.
  destruct (node_choice_value is_max eval succs) as [Heq | (s' & m' & _ & ->)]; [|eauto].
  exfalso. apply Hne. eapply node_choice_own_sentinel; [|exact Hin]. by rewrite Heq.
Qed.

(** ** Where the initial values come from in the search

    A node scores the initial value of its own loop only when all its
    successors score it, and the initial value of the other player's loop
    only when one of its successors scores it: the values [-inf] and [inf]
    come from nodes without successor. *)

Lemma minimax_plies_own self n state is_max :
  fst (minimax_plies self n state is_max) = sentinel is_max ->
  game_value self state = 0
  /\ exists n', n = S n'
       /\ forall s m, (s, m) ∈ _generate_successors self state (mover self is_max) ->
            fst (minimax_plies self n' s (negb is_max)) = sentinel is_max.
Proof.
  intros Hv. destruct (game_value_cases self state) as [Hgv|Hgv].
  - split; [exact Hgv|]. destruct n as [|n'].
    + rewrite minimax_plies_0 in Hv by done. by destruct is_max.
    + exists n'. split; [reflexivity|]. intros s m Hin.
      rewrite minimax_plies_S in Hv by done.
      by eapply (node_choice_own_sentinel is_max
                   (fun succ_state => fst (minimax_plies self n' succ_state (negb is_max)))).
  - rewrite minimax_plies_terminal in Hv by (destruct Hgv; lia). by destruct is_max.
Qed.

Lemma minimax_plies_opposite self n state is_max :
  fst (minimax_plies self n state is_max) = sentinel (negb is_max) ->
  game_value self state = 0
  /\ exists n' s m, n = S n'
       /\ (s, m) ∈ _generate_successors self state (mover self is_max)
       /\ fst (minimax_plies self n' s (negb is_max)) = sentinel (negb is_max).
Proof.
  intros Hv. destruct (game_value_cases self state) as [Hgv|Hgv].
  - split; [exact Hgv|]. destruct n as [|n'].
    + rewrite minimax_plies_0 in Hv by done. by destruct is_max.
    + rewrite minimax_plies_S in Hv by done.
      destruct (node_choice_value is_max
                  (fun succ_state => fst (minimax_plies self n' succ_state (negb is_max)))
                  (_generate_successors self state (mover self is_max)))
        as [Heq | (s & m & Hin & Heq)]; rewrite Heq in Hv; cbn [fst] in Hv.
      * by destruct is_max.
      * exists n', s, m. done.
  - rewrite minimax_plies_terminal in Hv by (destruct Hgv; lia). by destruct is_max.
Qed.

(** With at most one ply left a node never scores the initial value of the
    other player's loop. *)
Lemma minimax_plies_1_opposite self n state is_max :
  (n <= 1)%nat -> fst (minimax_plies self n state is_max) <> sentinel (negb is_max).
Proof.
  intros Hn Hv.
  destruct (minimax_plies_opposite _ _ _ _ Hv) as (_ & n' & s & m & -> & _ & Hs).
  destruct (minimax_plies_own _ _ _ _ Hs) as (_ & n'' & -> & _). lia.
Qed.

(** With at most two plies left a node scores the initial value of its own
    loop only when the board has no winner and the player has no successor. *)
Lemma minimax_plies_2_own self n state is_max :
  (n <= 2)%nat -> fst (minimax_plies self n state is_max) = sentinel is_max ->
  game_value self state = 0 /\ (1 <= n)%nat
  /\ _generate_successors self state (mover self is_max) = [].
Proof.
  intros Hn Hv.
  destruct (minimax_plies_own _ _ _ _ Hv) as (Hgv & n' & -> & Hall).
  split; [exact Hgv|]. split; [lia|].
  destruct (_generate_successors self state (mover self is_max)) as [|[s m] rest]; [done|].
  exfalso. apply (minimax_plies_1_opposite self n' s (negb is_max)); [lia|].
  rewrite negb_involutive. apply (Hall s m). left.
Qed.

(** With at most three plies left a node scores the initial value of the
    other player's loop only when one of its successors is a board without
    winner on which the other player has no successor. *)
Lemma minimax_plies_3_opposite self n state is_max :
  (n <= 3)%nat -> fst (minimax_plies self n state is_max) = sentinel (negb is_max) ->
  exists s m, (s, m) ∈ _generate_successors self state (mover self is_max)
              /\ game_value self s = 0
              /\ _generate_successors self s (mover self (negb is_max)) = [].
Proof.
  intros Hn Hv.
  destruct (minimax_plies_opposite _ _ _ _ Hv) as (_ & n' & s & m & -> & Hin & Hs).
  exists s, m. split; [exact Hin|].
  destruct (minimax_plies_2_own self n' s (negb is_max)) as (Hgv & _ & Hnil); [lia|exact Hs|].
  done.
Qed.



(** ** A search that stays in the drop phase *)

Lemma total_pieces_drop state p q :
  wf_board state -> q ∈ all_coords -> is_empty state q = true ->
  total_pieces (fst (place state p q)) = total_pieces state + 1.
Proof.
  intros Hwf Hq He. unfold total_pieces. rewrite !count_cells_place by done.
  destruct p; cbn [piece_eqb ind]; lia.
Qed.

Lemma total_pieces_relocate state p src dst :
  wf_board state -> src ∈ all_coords -> holds state p src = true ->
  in_bounds dst = true -> is_empty state dst = true ->
  total_pieces (fst (relocate state p src dst)) = total_pieces state.
Proof.
  intros Hwf Hs Hp Hd He. unfold total_pieces. by rewrite !count_cells_relocate.
Qed.

(** When the pieces on the board and the plies left number at most eight,
    every node of the search is in the drop phase and has a successor: every
    score is a number in [-1, 1]. *)
Lemma minimax_plies_drop_bounded mp D n state is_max :
  wf_board state -> total_pieces state + Z.of_nat n <= 8 ->
  bounded_score (fst (minimax_plies (player mp D) n state is_max)).
Proof.
  revert state is_max. induction n as [|n IH]; intros state is_max Hwf Hle.
  - apply minimax_plies_0_bounded.
  - destruct (game_value_cases (player mp D) state) as [Hgv|Hgv].
    + rewrite minimax_plies_S by done.
      assert ((total_pieces state <? 8) = true) as Hdrop by (apply Z.ltb_lt; lia).
      apply node_choice_bounded.
      * rewrite generate_successors_spec, drop_phase_total, Hdrop by done.
        apply drop_spec_nonempty. lia.
      * intros s m Hin. apply IH; [by eapply successors_wf|].
        rewrite generate_successors_spec, drop_phase_total, Hdrop in Hin by done.
        apply elem_of_drop_spec in Hin as (q & Hq & He & Heq).
        replace s with (fst (place state (mover (player mp D) is_max) q))
          by (by rewrite <- Heq).
        rewrite total_pieces_drop by done. lia.
    + rewrite minimax_plies_terminal by (destruct Hgv; lia). by apply bounded_terminal.
Qed.

(** ** Boards on which a player can move *)

(** A piece with an empty neighbour on the board gives a successor, in
    either phase. *)
Lemma has_successor mp D state p e e' :
  wf_board state -> e ∈ all_coords -> holds state p e = true ->
  e' ∈ neighbours e -> in_bounds e' = true -> is_empty state e' = true ->
  _generate_successors (player mp D) state p <> [].
Proof.
  intros Hwf He Hp Hn Hb Hempty.
  rewrite generate_successors_spec, drop_phase_total by done.
  destruct (Z.ltb_spec (total_pieces state) 8) as [Hlt|Hge].
  - apply drop_spec_nonempty. lia.
  - intros Hnil.
    assert (relocate state p e e' ∈ move_spec state p) as Hin.
    { destruct (relocate state p e e') as [s m] eqn:Heq.
      apply elem_of_move_spec. exists e, e'. by rewrite Heq. }
    rewrite Hnil in Hin. inversion Hin.
Qed.

Lemma neighbour_differs e e' : e' ∈ neighbours e -> e' <> e.
Proof.
  intros Hn%neighbours_king_adjacent. destruct Hn as (_ & _ & Hne). congruence.
Qed.

(** The cells of a board after a drop and after a relocation. *)
Lemma cell_at_place state p q t :
  wf_board state -> in_bounds q = true -> in_bounds t = true ->
  cell_at (fst (place state p q)) (fst t) (snd t)
  = if coord_eqb t q then Piece p else cell_at state (fst t) (snd t).
Proof.
  intros Hwf Hq Ht. apply in_bounds_spec in Hq. apply in_bounds_spec in Ht.
  unfold place, coord_eqb. cbn [fst]. by rewrite cell_at_set_cell by (assumption || lia).
Qed.

Lemma cell_at_relocate state p src dst t :
  wf_board state -> in_bounds src = true -> in_bounds dst = true -> in_bounds t = true ->
  cell_at (fst (relocate state p src dst)) (fst t) (snd t)
  = if coord_eqb t dst then Piece p
    else if coord_eqb t src then Empty
    else cell_at state (fst t) (snd t).
Proof.
  intros Hwf Hs Hd Ht.
  apply in_bounds_spec in Hs. apply in_bounds_spec in Hd. apply in_bounds_spec in Ht.
  unfold relocate, coord_eqb. cbn [fst].
  rewrite cell_at_set_cell by (try apply wf_set_cell; assumption || lia).
  by rewrite cell_at_set_cell by (assumption || lia).
Qed.

Lemma coord_eqb_neq a b : coord_eqb a b = false <-> a <> b.
Proof.
  rewrite <- not_true_iff_false. by rewrite coord_eqb_eq.
Qed.

(** ** An empty cell with two empty neighbours

    The eight groups of [open_triples] are disjoint: with at most seven
    pieces on the board one group is empty. *)

Lemma open_triples_cover :
  forall q, q ∈ all_coords -> q ∈ (open_triples ≫= triple_cells) ++ [(4, 3)].
Proof.
  apply Forall_forall.
  apply (bool_decide_eq_true_1
           (Forall (fun q => q ∈ (open_triples ≫= triple_cells) ++ [(4, 3)]) all_coords)).
  vm_compute. reflexivity.
Qed.

Lemma open_triples_adjacent :
  Forall (fun t : coord * coord * coord =>
            fst (fst t) ∈ all_coords
            /\ snd (fst t) ∈ neighbours (fst (fst t)) /\ snd t ∈ neighbours (fst (fst t))
            /\ snd (fst t) <> snd t
            /\ in_bounds (snd (fst t)) = true /\ in_bounds (snd t) = true)
         open_triples.
Proof.
  apply (bool_decide_eq_true_1
           (Forall (fun t : coord * coord * coord =>
                      fst (fst t) ∈ all_coords
                      /\ snd (fst t) ∈ neighbours (fst (fst t))
                      /\ snd t ∈ neighbours (fst (fst t))
                      /\ snd (fst t) <> snd t
                      /\ in_bounds (snd (fst t)) = true /\ in_bounds (snd t) = true)
                   open_triples)).
  vm_compute. reflexivity.
Qed.

Lemma filter_triples_bound (P : coord -> Prop) `{!forall q, Decision (P q)}
    (ts : list (coord * coord * coord)) :
  Forall (fun t => ~ (P (fst (fst t)) /\ P (snd (fst t)) /\ P (snd t))) ts ->
  (length (filter P (ts ≫= triple_cells)) <= 2 * length ts)%nat.
Proof.
  induction 1 as [|[[a b] c] ts Hnot _ IH]; [cbn; lia|].
  cbn [mbind list_bind fst snd] in *.
  change (triple_cells (a, b, c)) with [a; b; c].
  rewrite filter_app, length_app, !filter_cons, filter_nil. cbn [length].
  repeat case_decide; cbn [length]; try lia. tauto.
Qed.

Lemma free_cell state :
  total_pieces state <= 7 ->
  exists e e1 e2,
    e ∈ all_coords /\ e1 ∈ neighbours e /\ e2 ∈ neighbours e /\ e1 <> e2
    /\ in_bounds e1 = true /\ in_bounds e2 = true
    /\ is_empty state e = true /\ is_empty state e1 = true /\ is_empty state e2 = true.
Proof.
  intros Hle.
  set (P := fun q : coord => is_empty state q = true).
  destruct (decide (Exists (fun t : coord * coord * coord =>
                              P (fst (fst t)) /\ P (snd (fst t)) /\ P (snd t)) open_triples))
    as [Hex|Hno].
  - apply Exists_exists in Hex as ([[e e1] e2] & Hin & He & He1 & He2).
    pose proof open_triples_adjacent as Hadj. rewrite Forall_forall in Hadj.
    destruct (Hadj _ Hin) as (H1 & H2 & H3 & H4 & H5 & H6). cbn [fst snd] in *.
    exists e, e1, e2. done.
  - exfalso. apply not_Exists_Forall in Hno; [|intros t; apply _].
    pose proof (filter_triples_bound P open_triples Hno) as Hb.
    change (length open_triples) with 8%nat in Hb.
    assert (count_cells state Empty
            <= Z.of_nat (length (filter P ((open_triples ≫= triple_cells) ++ [(4, 3)]))))
      as Hlen.
    { unfold count_cells. apply Nat2Z.inj_le, submseteq_length, NoDup_submseteq.
      - apply NoDup_filter, NoDup_all_coords.
      - intros q [Hq Hin]%list_elem_of_filter. apply list_elem_of_filter.
        split; [exact Hq | by apply open_triples_cover]. }
    rewrite filter_app, length_app in Hlen.
    assert (length (filter P [(4, 3)%Z]) <= 1)%nat as H1.
    { rewrite filter_cons, filter_nil. case_decide; cbn [length]; lia. }
    pose proof (count_cells_partition state) as Hp.
    unfold total_pieces in Hle. lia.
Qed.

(** In the drop phase the player has a drop after which no move of the other
    player leaves him without successor: the piece dropped on a cell with
    two empty neighbours keeps one of them. *)
Lemma drop_keeps_a_move mp D state p :
  wf_board state -> total_pieces state < 8 ->
  exists s m,
    (s, m) ∈ _generate_successors (player mp D) state p
    /\ forall s' m', (s', m') ∈ _generate_successors (player mp D) s (other p) ->
         _generate_successors (player mp D) s' p <> [].
Proof.
  intros Hwf Hlt.
  destruct (free_cell state) as (e & e1 & e2 & He & Hn1 & Hn2 & Hne & Hb1 & Hb2 & Hf & Hf1 & Hf2);
    [lia|].
  assert (in_bounds e = true) as Hbe by (by apply in_bounds_all_coords).
  pose proof (neighbour_differs _ _ Hn1) as Hd1.
  pose proof (neighbour_differs _ _ Hn2) as Hd2.
  set (c := fst (place state p e)).
  assert (wf_board c) as Hwfc by (by apply wf_set_cell).
  assert (cell_at c (fst e) (snd e) = Piece p) as Hce.
  { unfold c. rewrite cell_at_place by done. by rewrite (proj2 (coord_eqb_eq e e) eq_refl). }
  assert (cell_at c (fst e1) (snd e1) = Empty) as Hc1.
  { unfold c. rewrite cell_at_place by done. rewrite (proj2 (coord_eqb_neq e1 e) Hd1).
    by apply is_empty_spec. }
  assert (cell_at c (fst e2) (snd e2) = Empty) as Hc2.
  { unfold c. rewrite cell_at_place by done. rewrite (proj2 (coord_eqb_neq e2 e) Hd2).
    by apply is_empty_spec. }
  exists c, [e]. split.
  { rewrite generate_successors_spec, drop_phase_total by done.
    rewrite (proj2 (Z.ltb_lt _ _) Hlt). apply elem_of_drop_spec. exists e. done. }
  intros s' m' Hin.
  assert (wf_board s') as Hwf' by (by eapply successors_wf).
  (* the piece stays on [e], and one of [e1], [e2] is still empty *)
  assert (cell_at s' (fst e) (snd e) = Piece p
          /\ (cell_at s' (fst e1) (snd e1) = Empty \/ cell_at s' (fst e2) (snd e2) = Empty))
    as [Hse Hfree].
  { rewrite generate_successors_spec in Hin. destruct (drop_phase (player mp D) c).
    - apply elem_of_drop_spec in Hin as (q & Hq & Hqe & Heq).
      replace s' with (fst (place c (other p) q)) by (by rewrite <- Heq).
      apply in_bounds_all_coords in Hq. apply is_empty_spec in Hqe.
      rewrite !cell_at_place by done.
      assert (e <> q) as Hneq by (intros ->; congruence).
      rewrite (proj2 (coord_eqb_neq e q) Hneq). split; [exact Hce|].
      destruct (coord_eqb e1 q) eqn:E1; [|by left].
      apply coord_eqb_eq in E1 as <-.
      rewrite (proj2 (coord_eqb_neq e2 e1)) by congruence. by right.
    - apply elem_of_move_spec in Hin as (src & dst & Hs & Hh & _ & Hbd & Hde & Heq).
      replace s' with (fst (relocate c (other p) src dst)) by (by rewrite <- Heq).
      apply in_bounds_all_coords in Hs. apply holds_spec in Hh. apply is_empty_spec in Hde.
      rewrite !cell_at_relocate by done.
      assert (e <> dst) as Hn0 by (intros ->; congruence).
      assert (e <> src) as Hn3.
      { intros ->. rewrite Hce in Hh. injection Hh as Hh. by destruct p. }
      assert (e1 <> src) as Hn4 by (intros ->; congruence).
      assert (e2 <> src) as Hn5 by (intros ->; congruence).
      rewrite (proj2 (coord_eqb_neq e dst) Hn0), (proj2 (coord_eqb_neq e src) Hn3),
        (proj2 (coord_eqb_neq e1 src) Hn4), (proj2 (coord_eqb_neq e2 src) Hn5).
      split; [exact Hce|].
      destruct (coord_eqb e1 dst) eqn:E1; [|by left].
      apply coord_eqb_eq in E1 as <-.
      rewrite (proj2 (coord_eqb_neq e2 e1)) by congruence. by right. }
  destruct Hfree as [Hfree|Hfree].
  - eapply (has_successor mp D s' p e e1); try done; [by apply holds_spec | by apply is_empty_spec].
  - eapply (has_successor mp D s' p e e2); try done; [by apply holds_spec | by apply is_empty_spec].
Qed.

(** ** The opponent after a drop in the end-to-end scenario *)




(** ** The move of the search at the root *)


Lemma root_plies mp n state is_max :
  _minimax (player mp (S n)) state 0 is_max = minimax_plies (player mp (S n)) (S n) state is_max.
Proof. reflexivity. Qed.

Lemma NoDup_generated_moves self state p :
  NoDup (snd <$> _generate_successors self state p).
Proof.
  rewrite generate_successors_spec. destruct (drop_phase self state).
  - apply NoDup_drop_moves.
  - apply NoDup_move_moves.
Qed.


Lemma drop_children_bounded mp D n state is_max s m :
  wf_board state -> total_pieces state + Z.of_nat (S n) <= 8 ->
  (s, m) ∈ _generate_successors (player mp D) state (mover (player mp D) is_max) ->
  bounded_score (fst (minimax_plies (player mp D) n s (negb is_max))).
Proof.
  intros Hwf Hle Hin.
  apply minimax_plies_drop_bounded; [by eapply successors_wf|].
  rewrite generate_successors_spec, drop_phase_total in Hin by done.
  rewrite (proj2 (Z.ltb_lt _ _)) in Hin by lia.
  apply elem_of_drop_spec in Hin as (q & Hq & He & Heq).
  replace s with (fst (place state (mover (player mp D) is_max) q)) by (by rewrite <- Heq).
  rewrite total_pieces_drop by done. lia.
Qed.



(** The random draw of [make_move] matters exactly when the search returns
    no move and the agent has more than one successor. *)
Lemma make_move_same_iff self state :
  (forall rnd1 rnd2, make_move self state rnd1 = make_move self state rnd2)
  <-> is_Some (snd (_minimax self state 0 true))
      \/ (length (_generate_successors self state (my_piece self)) <= 1)%nat.
Proof.
  unfold make_move, deepcopy.
  pose proof (NoDup_generated_moves self state (my_piece self)) as Hnd.
  destruct (snd (_minimax self state 0 true)) as [mv|].
  { split; [intros _; left; eauto | reflexivity]. }
  destruct (_generate_successors self state (my_piece self)) as [|[s0 m0] [|[s1 m1] rest]].
  - split; [intros _; right; cbn; lia | reflexivity].
  - split; [intros _; right; cbn; lia |]. intros _ rnd1 rnd2.
    unfold random_choice. cbn [length]. by rewrite !Nat.mod_1_r.
  - split.
    + intros Hsame. exfalso. specialize (Hsame 0%nat 1%nat).
      unfold random_choice in Hsame. cbn [length] in Hsame.
      rewrite Nat.Div0.mod_0_l in Hsame. rewrite Nat.mod_small in Hsame by lia.
      cbn in Hsame. subst m1.
      cbn [fmap list_fmap snd] in Hnd. apply NoDup_cons in Hnd as [Hnot _].
      apply Hnot. left.
    + intros [[mv Hmv] | Hlen]; [discriminate | cbn [length] in Hlen; lia].
Qed.

(** The search returns a move at the root of a board without winner, unless
    the agent has no successor: up to depth 2 always, at depth 3 in the drop
    phase, at any depth when the search stays in the drop phase, and at any
    depth in a position of alternating play. *)
Lemma search_finds_move mp D state :
  wf_board state -> game_value (player mp D) state = 0 -> (1 <= D)%nat ->
  (D <= 2)%nat
  \/ ((D <= 3)%nat /\ drop_phase (player mp D) state = true)
  \/ total_pieces state + Z.of_nat D <= 8
  \/ turn_consistent (player mp D) state true ->
  _generate_successors (player mp D) state mp = []
  \/ exists mv, snd (_minimax (player mp D) state 0 true) = Some mv.
Proof.
  intros Hwf Hgv HD Hcond. destruct D as [|n]; [lia|].
  set (self := player mp (S n)) in *.
  destruct (_generate_successors self state mp) as [|[s0 m0] rest] eqn:Hsuccs; [by left|].
  right. change (_minimax self state 0 true) with (minimax_plies self (S n) state true).
  rewrite minimax_plies_S by done.
  change (mover self true) with mp. cbn [negb].
  assert (forall s m, (s, m) ∈ _generate_successors self state mp ->
            bounded_score (fst (minimax_plies self n s false)) ->
            exists mv, snd (node_choice true (fun s => fst (minimax_plies self n s false))
                              (_generate_successors self state mp)) = Some mv) as Hbounded.
  { intros s m Hin Hb.
    apply (node_choice_some true (fun s => fst (minimax_plies self n s false)) _ s m Hin).
    cbn [sentinel]. intros Heq. rewrite Heq in Hb. exact Hb. }
  destruct Hcond as [Hle | [[Hle Hdrop] | [Hle | Htc]]].
  - rewrite Hsuccs.
    apply (node_choice_some true (fun s => fst (minimax_plies self n s false)) _ s0 m0);
      [left|].
    apply (minimax_plies_1_opposite self n s0 false). lia.
  - unfold self in Hdrop. rewrite drop_phase_total in Hdrop by done. apply Z.ltb_lt in Hdrop.
    destruct (drop_keeps_a_move mp (S n) state mp Hwf Hdrop) as (c & m & Hin & Hkeep).
    fold self in Hin, Hkeep.
    apply (node_choice_some true (fun s => fst (minimax_plies self n s false)) _ c m Hin).
    cbn [sentinel]. intros Hv.
    destruct (minimax_plies_3_opposite self n c false ltac:(lia) Hv)
      as (s' & m' & Hin' & _ & Hnil).
    unfold mover in Hin', Hnil. cbn [negb] in Hnil.
    unfold self in Hin'. rewrite opp_player in Hin'.
    by apply (Hkeep s' m' Hin').
  - apply (Hbounded s0 m0); [rewrite Hsuccs; left|].
    apply (drop_children_bounded mp (S n) n state true s0 m0 Hwf Hle).
    change (mover (player mp (S n)) true) with mp. fold self. rewrite Hsuccs. left.
  - apply (Hbounded s0 m0); [rewrite Hsuccs; left|].
    apply (children_bounded mp (S n) n state true s0 m0 Hwf); [by right|].
    change (mover (player mp (S n)) true) with mp. fold self. rewrite Hsuccs. left.
Qed.

(* ===================================================================== *)
(** * Part V.  The claims                                                 *)
(* ===================================================================== *)

(** ** Example boards *)

Lemma wf_with_pieces p qs state : wf_board state -> wf_board (with_pieces p qs state).
Proof.
  revert state. induction qs as [|q qs IH]; intros state Hwf; [exact Hwf|].
  cbn [with_pieces fold_left]. apply IH. by apply wf_set_cell.
Qed.

Lemma wf_empty_board : wf_board empty_board.
Proof. split; [reflexivity | repeat constructor]. Qed.

(** ** C2 and C8: the heuristic evaluator *)

(** C2, as stated: on the board with X on (0,0) and (0,2) only, the source
    counts two pieces in the window (0,0)..(0,3), while the longest run of
    consecutive X in any window is one: the evaluator is not the quotient of
    the best run counts. *)
Lemma heuristic_not_by_runs :
  wf_board gapped_board
  /\ game_value (player X 3) gapped_board = 0
  /\ heuristic_game_value (player X 3) gapped_board X = Qmake 2 4
  /\ heuristic_by_runs (player X 3) gapped_board = Qmake 1 4
  /\ ~ (heuristic_game_value (player X 3) gapped_board X
        == heuristic_by_runs (player X 3) gapped_board)%Q.
Proof.
  split; [apply wf_with_pieces, wf_empty_board|].
  split; [reflexivity|]. split; [reflexivity|]. split; [reflexivity|].
  vm_compute. discriminate.
Qed.

(** C2, amended: for every non-terminal board the heuristic is
    (best own count - best opponent count) / 4, where the count of a window
    is the number of its cells that hold the piece (consecutive or not), 0
    when a cell of the window holds the opposing piece, and the best count is
    the maximum over every window of the five families that lies on the
    board. *)
Theorem heuristic_best_counts (mp : piece) (D : nat) (state : board) (p : piece) :
  wf_board state ->
  game_value (player mp D) state = 0 ->
  heuristic_game_value (player mp D) state p
  = Qmake (best_count state mp - best_count state (other mp)) 4.
Proof.
  intros _ _. unfold heuristic_game_value. rewrite heuristic_counts_best.
  by rewrite my_piece_player, opp_player.
Qed.

Lemma heuristic_best_counts_witness :
  heuristic_game_value (player X 3) three_in_row_board X
  = Qmake (best_count three_in_row_board X - best_count three_in_row_board (other X)) 4.
Proof.
  apply (heuristic_best_counts X 3 three_in_row_board X).
  - split; [reflexivity | repeat constructor].
  - reflexivity.
Defined.

(** C8: for every board on which [game_value] returns 0 the heuristic is an
    integer between -4 and 4 divided by 4, hence a number in [-1, 1]. *)
Theorem heuristic_in_unit_interval (mp : piece) (D : nat) (state : board) (p : piece) :
  wf_board state ->
  game_value (player mp D) state = 0 ->
  exists n : Z,
    -4 <= n <= 4
    /\ heuristic_game_value (player mp D) state p = Qmake n 4
    /\ (-1 <= heuristic_game_value (player mp D) state p)%Q
    /\ (heuristic_game_value (player mp D) state p <= 1)%Q.
Proof.
  intros _ _.
  exists (best_count state (my_piece (player mp D)) - best_count state (opp (player mp D))).
  pose proof (best_count_bound state (my_piece (player mp D))).
  pose proof (best_count_bound state (opp (player mp D))).
  split; [lia|]. split.
  - unfold heuristic_game_value. by rewrite heuristic_counts_best.
  - apply heuristic_bounds.
Qed.

Lemma heuristic_in_unit_interval_witness :
  exists n : Z,
    -4 <= n <= 4
    /\ heuristic_game_value (player X 3) three_in_row_board X = Qmake n 4
    /\ (-1 <= heuristic_game_value (player X 3) three_in_row_board X)%Q
    /\ (heuristic_game_value (player X 3) three_in_row_board X <= 1)%Q.
Proof.
  apply (heuristic_in_unit_interval X 3 three_in_row_board X).
  - split; [reflexivity | repeat constructor].
  - reflexivity.
Defined.

(** ** C4: terminal boards and the depth cutoff *)

(** C4: at every depth d <= D, a board on which [game_value] reports a winner
    gives the signed value and no move, also at d = D: 1 when the report is
    for a complete window of the agent, -1 when it is for one of the
    opponent.  A board without winner gives the heuristic (scored for the
    agent's piece) and no move at d = D, and below D the result of the
    player's loop over the successors searched at d + 1. *)
Theorem minimax_terminal_before_cutoff (mp : piece) (D : nat) (state : board)
    (d : nat) (is_max : bool) :
  wf_board state ->
  (d <= D)%nat ->
  (game_value (player mp D) state <> 0 ->
     is_sign (game_value (player mp D) state)
     /\ (game_value (player mp D) state = 1 -> has_pattern state mp)
     /\ (game_value (player mp D) state = -1 -> has_pattern state (other mp))
     /\ _minimax (player mp D) state d is_max
        = (Fin (inject_Z (game_value (player mp D) state)), None))
  /\ (game_value (player mp D) state = 0 -> d = D ->
        _minimax (player mp D) state d is_max
        = (Fin (heuristic_game_value (player mp D) state mp), None))
  /\ (game_value (player mp D) state = 0 -> (d < D)%nat ->
        _minimax (player mp D) state d is_max
        = node_choice is_max (child_score (player mp D) d is_max)
            (children (player mp D) state is_max)).
Proof.
  intros Hwf Hd.
  pose proof (_minimax_unfold (player mp D) state d is_max Hd) as Heq. cbv zeta in Heq.
  split; [|split].
  - intros Hgv. split; [|split; [|split]].
    + destruct (game_value_cases (player mp D) state); [congruence | assumption].
    + apply (game_value_sides mp D state Hwf).
    + apply (game_value_sides mp D state Hwf).
    + rewrite Heq. by destruct (Z.eqb_spec (game_value (player mp D) state) 0).
  - intros Hgv ->. rewrite Heq, Hgv. cbn [Z.eqb negb].
    rewrite depth_player, Nat.eqb_refl. reflexivity.
  - intros Hgv Hlt. rewrite Heq, Hgv. cbn [Z.eqb negb]. rewrite depth_player.
    destruct (Nat.eqb_spec d D) as [->|_]; [lia|].
    unfold node_choice, children, child_score, mover. by destruct is_max.
Qed.

Lemma minimax_terminal_before_cutoff_witness :
  (game_value (player X 3) won_board <> 0 ->
     is_sign (game_value (player X 3) won_board)
     /\ (game_value (player X 3) won_board = 1 -> has_pattern won_board X)
     /\ (game_value (player X 3) won_board = -1 -> has_pattern won_board (other X))
     /\ _minimax (player X 3) won_board 3 true
        = (Fin (inject_Z (game_value (player X 3) won_board)), None))
  /\ (game_value (player X 3) won_board = 0 -> 3%nat = 3%nat ->
        _minimax (player X 3) won_board 3 true
        = (Fin (heuristic_game_value (player X 3) won_board X), None))
  /\ (game_value (player X 3) won_board = 0 -> (3 < 3)%nat ->
        _minimax (player X 3) won_board 3 true
        = node_choice true (child_score (player X 3) 3 true)
            (children (player X 3) won_board true)).
Proof.
  apply (minimax_terminal_before_cutoff X 3 won_board 3 true).
  - split; [reflexivity | repeat constructor].
  - lia.
Defined.

(** ** C5: the selection at an inner node *)

(** C5, as stated: the board [trapped_board] is an inner node of the search
    at depth 0 with one successor; the opponent's reply leaves the agent
    without a move, so the child scores -inf, which is not greater than the
    initial -inf: the maximizing player returns no move. *)
Lemma minimax_all_sentinel :
  wf_board trapped_board
  /\ game_value (player X 3) trapped_board = 0
  /\ length (children (player X 3) trapped_board true) = 1%nat
  /\ _minimax (player X 3) trapped_board 0 true = (NegInf, None).
Proof.
  split; [apply wf_with_pieces, wf_with_pieces, wf_empty_board|].
  split; [reflexivity|]. split; [reflexivity|]. vm_compute. reflexivity.
Qed.

(** C5, amended: at every inner node the player returns the result of his
    loop over the successors.  When some child scores strictly better than
    the initial value of the loop (-inf when maximizing, +inf when
    minimizing), he returns the score and the move of a successor that is
    strictly better than every successor generated before it, while no
    successor is strictly better than it: the first of the best, strictly
    greatest for the maximizing player and strictly smallest for the
    minimizing one.  When every child scores the initial value, he returns
    that value and no move.  One of the two is the case at every inner
    node. *)
Theorem minimax_keeps_first_best (mp : piece) (D : nat) (state : board)
    (d : nat) (is_max : bool) :
  wf_board state ->
  (d < D)%nat ->
  game_value (player mp D) state = 0 ->
  ((exists s m, (s, m) ∈ children (player mp D) state is_max
                /\ strictly_better is_max (sentinel is_max)
                     (child_score (player mp D) d is_max s)) ->
   exists (i : nat) s m,
     children (player mp D) state is_max !! i = Some (s, m)
     /\ _minimax (player mp D) state d is_max = (child_score (player mp D) d is_max s, Some m)
     /\ (forall (j : nat) s' m',
           (j < i)%nat -> children (player mp D) state is_max !! j = Some (s', m') ->
           strictly_better is_max (child_score (player mp D) d is_max s')
                                  (child_score (player mp D) d is_max s))
     /\ (forall s' m',
           (s', m') ∈ children (player mp D) state is_max ->
           ~ strictly_better is_max (child_score (player mp D) d is_max s)
                                    (child_score (player mp D) d is_max s')))
  /\ ((forall s m, (s, m) ∈ children (player mp D) state is_max ->
         child_score (player mp D) d is_max s = sentinel is_max) ->
      _minimax (player mp D) state d is_max = (sentinel is_max, None))
  /\ ((exists s m, (s, m) ∈ children (player mp D) state is_max
                   /\ strictly_better is_max (sentinel is_max)
                        (child_score (player mp D) d is_max s))
      \/ (forall s m, (s, m) ∈ children (player mp D) state is_max ->
            child_score (player mp D) d is_max s = sentinel is_max)).
Proof.
  intros Hwf Hd Hgv.
  pose proof (_minimax_unfold (player mp D) state d is_max) as Heq.
  rewrite depth_player in Heq. specialize (Heq ltac:(lia)). cbv zeta in Heq.
  rewrite Hgv in Heq. cbn [Z.eqb negb] in Heq.
  destruct (Nat.eqb_spec d D) as [->|_]; [lia|].
  set (succs := children (player mp D) state is_max) in *.
  set (eval := child_score (player mp D) d is_max) in *.
  assert (_minimax (player mp D) state d is_max = node_choice is_max eval succs) as Hnode.
  { rewrite Heq. unfold node_choice, succs, eval, children, child_score, mover.
    by destruct is_max. }
  split; [|split].
  - intros (s0 & m0 & Hin0 & Hbetter0). destruct is_max.
    + change (_minimax (player mp D) state d true = select_loop better_max NegInf eval succs)
        in Heq.
      destruct (select_loop_inv better_max NegInf score_ltb_irrefl score_le_lt_trans score_lt_le
                  eval succs) as [Hub Hsome].
      destruct (select_loop_some better_max NegInf score_ltb_irrefl score_le_lt_trans score_lt_le
                  eval succs s0 m0 Hin0 Hbetter0) as [mv Hmv].
      rewrite Hmv in Hsome. destruct Hsome as (i & s & Hlk & Hfst & Hfirst).
      exists i, s, mv. split; [exact Hlk|]. split; [|split].
      * rewrite Heq. rewrite <- Hfst, <- Hmv. by destruct (select_loop _ _ _ _).
      * intros j s' m' Hj Hlk'. exact (Hfirst j s' m' Hj Hlk').
      * intros s' m' Hin Hb. specialize (Hub s' m' Hin). rewrite Hfst in Hub.
        unfold strictly_better, score_lt, better_max in *. congruence.
    + change (_minimax (player mp D) state d false = select_loop better_min PosInf eval succs)
        in Heq.
      destruct (select_loop_inv better_min PosInf score_ltb_irrefl better_min_trans
                  better_min_weak eval succs) as [Hub Hsome].
      destruct (select_loop_some better_min PosInf score_ltb_irrefl better_min_trans
                  better_min_weak eval succs s0 m0 Hin0 Hbetter0) as [mv Hmv].
      rewrite Hmv in Hsome. destruct Hsome as (i & s & Hlk & Hfst & Hfirst).
      exists i, s, mv. split; [exact Hlk|]. split; [|split].
      * rewrite Heq. rewrite <- Hfst, <- Hmv. by destruct (select_loop _ _ _ _).
      * intros j s' m' Hj Hlk'. exact (Hfirst j s' m' Hj Hlk').
      * intros s' m' Hin Hb. specialize (Hub s' m' Hin). rewrite Hfst in Hub.
        unfold strictly_better, score_lt, better_min in *. congruence.
  - intros Hall. rewrite Hnode. by apply node_choice_sentinel.
  - clear Heq Hnode. induction succs as [|[s0 m0] rest IH].
    + right. intros s m Hin. inversion Hin.
    + destruct IH as [(s & m & Hin & Hb) | Hall].
      * left. exists s, m. split; [by right | exact Hb].
      * destruct (score_ltb (if is_max then sentinel is_max else eval s0)
                            (if is_max then eval s0 else sentinel is_max)) eqn:E.
        -- left. exists s0, m0. split; [left|].
           unfold strictly_better, score_lt. by destruct is_max.
        -- right. intros s m [Heq | Hin]%elem_of_cons; [|by eapply Hall].
           injection Heq as -> ->. apply not_better_than_sentinel.
           unfold strictly_better, score_lt. destruct is_max; congruence.
Qed.

Lemma minimax_keeps_first_best_witness :
  ((exists s m, (s, m) ∈ children (player X 1) three_in_row_board true
                /\ strictly_better true (sentinel true) (child_score (player X 1) 0 true s)) ->
   exists (i : nat) s m,
     children (player X 1) three_in_row_board true !! i = Some (s, m)
     /\ _minimax (player X 1) three_in_row_board 0 true
        = (child_score (player X 1) 0 true s, Some m)
     /\ (forall (j : nat) s' m',
           (j < i)%nat -> children (player X 1) three_in_row_board true !! j = Some (s', m') ->
           strictly_better true (child_score (player X 1) 0 true s')
                                (child_score (player X 1) 0 true s))
     /\ (forall s' m',
           (s', m') ∈ children (player X 1) three_in_row_board true ->
           ~ strictly_better true (child_score (player X 1) 0 true s)
                                  (child_score (player X 1) 0 true s')))
  /\ ((forall s m, (s, m) ∈ children (player X 1) three_in_row_board true ->
         child_score (player X 1) 0 true s = sentinel true) ->
      _minimax (player X 1) three_in_row_board 0 true = (sentinel true, None))
  /\ ((exists s m, (s, m) ∈ children (player X 1) three_in_row_board true
                   /\ strictly_better true (sentinel true)
                        (child_score (player X 1) 0 true s))
      \/ (forall s m, (s, m) ∈ children (player X 1) three_in_row_board true ->
            child_score (player X 1) 0 true s = sentinel true)).
Proof.
  apply (minimax_keeps_first_best X 1 three_in_row_board 0 true).
  - split; [reflexivity | repeat constructor].
  - lia.
  - reflexivity.
Defined.

(** ** C7: the successor generator *)

Lemma all_coords_row_major (i : nat) (q : coord) :
  all_coords !! i = Some q
  <-> 0 <= fst q < 5 /\ 0 <= snd q < 5 /\ i = Z.to_nat (5 * fst q + snd q).
Proof.
  split.
  - intros Hlk. pose proof (lookup_lt_Some _ _ _ Hlk) as Hlt.
    change (length all_coords) with 25%nat in Hlt.
    do 25 (destruct i as [|i]; [vm_compute in Hlk; injection Hlk as <-; cbn [fst snd]; lia|]).
    lia.
  - destruct q as [r c]. cbn [fst snd]. intros (Hr & Hc & ->).
    assert (r = 0 \/ r = 1 \/ r = 2 \/ r = 3 \/ r = 4) as Hr' by lia.
    assert (c = 0 \/ c = 1 \/ c = 2 \/ c = 3 \/ c = 4) as Hc' by lia.
    destruct Hr' as [-> | [-> | [-> | [-> | ->]]]], Hc' as [-> | [-> | [-> | [-> | ->]]]];
      reflexivity.
Qed.

(** C7: the phase is Drop exactly when the total piece count is below 8.  In
    the drop phase the successors are, for the empty cells in row-major
    order, one board each with the descriptor that holds that cell alone; on
    that board the cell holds the piece and every other cell of the board
    holds what it held.  In the move phase they are, for every cell holding
    the piece (row-major) and every empty in-bounds king-move neighbour of
    it (in the order of the offsets), one board each with the descriptor
    destination-then-source; on that board the source is empty, the
    destination holds the piece and every other cell holds what it held.
    Every successor is a board of five rows of five cells, and no descriptor
    occurs twice. *)
Theorem generate_successors_by_phase (mp : piece) (D : nat) (state : board) (p : piece) :
  wf_board state ->
  (drop_phase (player mp D) state = true <-> total_pieces state < 8)
  /\ (total_pieces state < 8 ->
        _generate_successors (player mp D) state p
        = place state p <$> filter (fun q => is_empty state q = true) all_coords)
  /\ (8 <= total_pieces state ->
        _generate_successors (player mp D) state p
        = (src ← filter (fun q => holds state p q = true) all_coords;
           relocate state p src
             <$> filter (fun q => in_bounds q && is_empty state q = true) (neighbours src)))
  /\ (forall q t, in_bounds q = true -> in_bounds t = true ->
        snd (place state p q) = [q]
        /\ cell_at (fst (place state p q)) (fst t) (snd t)
           = if coord_eqb t q then Piece p else cell_at state (fst t) (snd t))
  /\ (forall src dst t, in_bounds src = true -> in_bounds dst = true -> in_bounds t = true ->
        snd (relocate state p src dst) = [dst; src]
        /\ cell_at (fst (relocate state p src dst)) (fst t) (snd t)
           = if coord_eqb t dst then Piece p
             else if coord_eqb t src then Empty
             else cell_at state (fst t) (snd t))
  /\ (total_pieces state < 8 ->
      forall s m, (s, m) ∈ _generate_successors (player mp D) state p ->
        wf_board s
        /\ exists q, m = [q] /\ in_bounds q = true
             /\ cell_at state (fst q) (snd q) = Empty
             /\ cell_at s (fst q) (snd q) = Piece p
             /\ forall t, in_bounds t = true -> t <> q ->
                  cell_at s (fst t) (snd t) = cell_at state (fst t) (snd t))
  /\ (8 <= total_pieces state ->
      forall s m, (s, m) ∈ _generate_successors (player mp D) state p ->
        wf_board s
        /\ exists src dst, m = [dst; src] /\ in_bounds src = true /\ in_bounds dst = true
             /\ king_adjacent src dst
             /\ cell_at state (fst src) (snd src) = Piece p
             /\ cell_at state (fst dst) (snd dst) = Empty
             /\ cell_at s (fst src) (snd src) = Empty
             /\ cell_at s (fst dst) (snd dst) = Piece p
             /\ forall t, in_bounds t = true -> t <> src -> t <> dst ->
                  cell_at s (fst t) (snd t) = cell_at state (fst t) (snd t))
  /\ NoDup (snd <$> _generate_successors (player mp D) state p)
  /\ (forall src dst, dst ∈ neighbours src <-> king_adjacent src dst)
  /\ (forall (i : nat) q,
        all_coords !! i = Some q
        <-> 0 <= fst q < 5 /\ 0 <= snd q < 5 /\ i = Z.to_nat (5 * fst q + snd q)).
Proof.
  intros Hwf.
  pose proof (drop_phase_total mp D state Hwf) as Hphase.
  pose proof (generate_successors_spec (player mp D) state p) as Hspec.
  split; [rewrite Hphase; apply Z.ltb_lt|].
  split; [|split; [|split; [|split; [|split; [|split; [|split; [|split]]]]]]].
  - intros Hlt. rewrite Hspec, Hphase. by rewrite (proj2 (Z.ltb_lt _ _) Hlt).
  - intros Hge. rewrite Hspec, Hphase. by rewrite (proj2 (Z.ltb_ge _ _) Hge).
  - intros q t Hq Ht. split; [reflexivity | by apply cell_at_place].
  - intros src dst t Hs Hd Ht. split; [reflexivity | by apply cell_at_relocate].
  - intros Hlt s m Hin. split; [by eapply successors_wf|].
    rewrite Hspec, Hphase, (proj2 (Z.ltb_lt _ _) Hlt) in Hin.
    apply elem_of_drop_spec in Hin as (q & Hq & He & Heq).
    apply in_bounds_all_coords in Hq. apply is_empty_spec in He.
    injection Heq as -> ->. exists q.
    split; [reflexivity|]. split; [exact Hq|]. split; [exact He|]. split.
    + change (set_cell state (fst q) (snd q) (Piece p)) with (fst (place state p q)).
      rewrite cell_at_place by done. by rewrite (proj2 (coord_eqb_eq q q) eq_refl).
    + intros t Ht Hne.
      change (set_cell state (fst q) (snd q) (Piece p)) with (fst (place state p q)).
      rewrite cell_at_place by done. by rewrite (proj2 (coord_eqb_neq t q) Hne).
  - intros Hge s m Hin. split; [by eapply successors_wf|].
    rewrite Hspec, Hphase, (proj2 (Z.ltb_ge _ _) Hge) in Hin.
    apply elem_of_move_spec in Hin as (src & dst & Hs & Hh & Hn & Hb & He & Heq).
    apply in_bounds_all_coords in Hs.
    assert (src <> dst) as Hsd by (eapply source_differs_destination; eassumption).
    apply holds_spec in Hh. apply is_empty_spec in He.
    assert (fst (s, m) = fst (relocate state p src dst)) as Hfst by (by rewrite Heq).
    cbn [fst] in Hfst. injection Heq as _ ->. exists src, dst.
    split; [reflexivity|]. split; [exact Hs|]. split; [exact Hb|].
    split; [by apply neighbours_king_adjacent|].
    split; [exact Hh|]. split; [exact He|]. rewrite Hfst. split; [|split].
    + rewrite cell_at_relocate by done.
      rewrite (proj2 (coord_eqb_neq src dst) Hsd).
      by rewrite (proj2 (coord_eqb_eq src src) eq_refl).
    + rewrite cell_at_relocate by done. by rewrite (proj2 (coord_eqb_eq dst dst) eq_refl).
    + intros t Ht Hts Htd. rewrite cell_at_relocate by done.
      by rewrite (proj2 (coord_eqb_neq t dst) Htd), (proj2 (coord_eqb_neq t src) Hts).
  - rewrite Hspec. destruct (drop_phase (player mp D) state).
    + apply NoDup_drop_moves.
    + apply NoDup_move_moves.
  - apply neighbours_king_adjacent.
  - apply all_coords_row_major.
Qed.

Lemma generate_successors_by_phase_witness :
  (drop_phase (player X 3) move_phase_board = true <-> total_pieces move_phase_board < 8)
  /\ (total_pieces move_phase_board < 8 ->
        _generate_successors (player X 3) move_phase_board X
        = place move_phase_board X <$> filter (fun q => is_empty move_phase_board q = true) all_coords)
  /\ (8 <= total_pieces move_phase_board ->
        _generate_successors (player X 3) move_phase_board X
        = (src ← filter (fun q => holds move_phase_board X q = true) all_coords;
           relocate move_phase_board X src
             <$> filter (fun q => in_bounds q && is_empty move_phase_board q = true) (neighbours src)))
  /\ (forall q t, in_bounds q = true -> in_bounds t = true ->
        snd (place move_phase_board X q) = [q]
        /\ cell_at (fst (place move_phase_board X q)) (fst t) (snd t)
           = if coord_eqb t q then Piece X else cell_at move_phase_board (fst t) (snd t))
  /\ (forall src dst t, in_bounds src = true -> in_bounds dst = true -> in_bounds t = true ->
        snd (relocate move_phase_board X src dst) = [dst; src]
        /\ cell_at (fst (relocate move_phase_board X src dst)) (fst t) (snd t)
           = if coord_eqb t dst then Piece X
             else if coord_eqb t src then Empty
             else cell_at move_phase_board (fst t) (snd t))
  /\ (total_pieces move_phase_board < 8 ->
      forall s m, (s, m) ∈ _generate_successors (player X 3) move_phase_board X ->
        wf_board s
        /\ exists q, m = [q] /\ in_bounds q = true
             /\ cell_at move_phase_board (fst q) (snd q) = Empty
             /\ cell_at s (fst q) (snd q) = Piece X
             /\ forall t, in_bounds t = true -> t <> q ->
                  cell_at s (fst t) (snd t) = cell_at move_phase_board (fst t) (snd t))
  /\ (8 <= total_pieces move_phase_board ->
      forall s m, (s, m) ∈ _generate_successors (player X 3) move_phase_board X ->
        wf_board s
        /\ exists src dst, m = [dst; src] /\ in_bounds src = true /\ in_bounds dst = true
             /\ king_adjacent src dst
             /\ cell_at move_phase_board (fst src) (snd src) = Piece X
             /\ cell_at move_phase_board (fst dst) (snd dst) = Empty
             /\ cell_at s (fst src) (snd src) = Empty
             /\ cell_at s (fst dst) (snd dst) = Piece X
             /\ forall t, in_bounds t = true -> t <> src -> t <> dst ->
                  cell_at s (fst t) (snd t) = cell_at move_phase_board (fst t) (snd t))
  /\ NoDup (snd <$> _generate_successors (player X 3) move_phase_board X)
  /\ (forall src dst, dst ∈ neighbours src <-> king_adjacent src dst)
  /\ (forall (i : nat) q,
        all_coords !! i = Some q
        <-> 0 <= fst q < 5 /\ 0 <= snd q < 5 /\ i = Z.to_nat (5 * fst q + snd q)).
Proof.
  apply (generate_successors_by_phase X 3 move_phase_board X).
  split; [reflexivity | repeat constructor].
Defined.

(** ** C6 and C10: the validator *)

(** C6: [opponent_move] reports the failure of the first condition, in the
    order coordinate count, destination in bounds, destination empty, source
    in bounds, source owned by the opponent, king-move adjacency, and then
    leaves the board as it was; different conditions have different
    failures; when no condition fails the board is the one [place_piece]
    produces. *)
Theorem opponent_move_validates (mp : piece) (D : nat) (state : board) (mv : move) :
  wf_board state ->
  opponent_move (player mp D) mv state
  = match first_failure (player mp D) state mv with
    | Some c => (inr (failure_of mv c), state)
    | None => (inl tt, snd (place_piece mv (opp (player mp D)) state))
    end
  /\ (forall c1 c2, failure_of mv c1 = failure_of mv c2 -> c1 = c2)
  /\ (forall e state', opponent_move (player mp D) mv state = (inr e, state') -> state' = state)
  /\ (forall state', opponent_move (player mp D) mv state = (inl tt, state') ->
        (forall c, condition_holds (player mp D) state mv c = true)
        /\ state' = snd (place_piece mv (opp (player mp D)) state)).
Proof.
  intros _. split; [apply opponent_move_result|]. split; [apply failure_of_inj|]. split.
  - intros e state'. apply opponent_move_rejected.
  - intros state'. apply opponent_move_accepted.
Qed.

Lemma opponent_move_validates_witness :
  opponent_move (player X 3) [(0, 0)] three_in_row_board
  = match first_failure (player X 3) three_in_row_board [(0, 0)] with
    | Some c => (inr (failure_of [(0, 0)] c), three_in_row_board)
    | None => (inl tt, snd (place_piece [(0, 0)] (opp (player X 3)) three_in_row_board))
    end
  /\ (forall c1 c2, failure_of [(0, 0)] c1 = failure_of [(0, 0)] c2 -> c1 = c2)
  /\ (forall e state',
        opponent_move (player X 3) [(0, 0)] three_in_row_board = (inr e, state') ->
        state' = three_in_row_board)
  /\ (forall state',
        opponent_move (player X 3) [(0, 0)] three_in_row_board = (inl tt, state') ->
        (forall c, condition_holds (player X 3) three_in_row_board [(0, 0)] c = true)
        /\ state' = snd (place_piece [(0, 0)] (opp (player X 3)) three_in_row_board)).
Proof.
  apply (opponent_move_validates X 3 three_in_row_board [(0, 0)]).
  split; [reflexivity | repeat constructor].
Defined.

(** The rejection of an occupied destination, on the example board. *)
Example opponent_move_occupied :
  opponent_move (player X 3) [(0, 0)] three_in_row_board
  = (inr Destination_occupied, three_in_row_board).
Proof. reflexivity. Qed.

(** C10: when the destination is empty and the source holds the opponent's
    piece, source and destination differ, so the adjacency test of the
    source (both deltas at most 1) is king-move adjacency; a relocation that
    [opponent_move] accepts never has its source equal to its destination. *)
Theorem validated_source_differs (mp : piece) (D : nat) (state : board) (dst src : coord) :
  wf_board state ->
  (is_empty state dst = true -> holds state (opp (player mp D)) src = true ->
     src <> dst /\ deltas_within_one src dst = king_adjacentb src dst)
  /\ (forall state',
        opponent_move (player mp D) [dst; src] state = (inl tt, state') ->
        src <> dst /\ king_adjacent src dst).
Proof.
  intros Hwf. split.
  - intros He Hp.
    assert (src <> dst) as Hne by (eapply source_differs_destination; eassumption).
    split; [exact Hne | by apply deltas_king_adjacent].
  - intros state' Hok.
    destruct (opponent_move_accepted _ _ _ _ Hok) as [Hall _].
    pose proof (Hall Destination_empty) as He.
    pose proof (Hall Source_owned) as Hp.
    pose proof (Hall Adjacent) as Ha.
    cbn in He, Hp, Ha.
    split; [eapply source_differs_destination; eassumption | by apply king_adjacentb_spec].
Qed.

Lemma validated_source_differs_witness :
  (is_empty move_phase_board (1, 2) = true ->
   holds move_phase_board (opp (player X 3)) (1, 1) = true ->
     (1, 1) <> (1, 2) /\ deltas_within_one (1, 1) (1, 2) = king_adjacentb (1, 1) (1, 2))
  /\ (forall state',
        opponent_move (player X 3) [(1, 2); (1, 1)] move_phase_board = (inl tt, state') ->
        (1, 1) <> (1, 2) /\ king_adjacent (1, 1) (1, 2)).
Proof.
  apply (validated_source_differs X 3 move_phase_board (1, 2) (1, 1)).
  split; [reflexivity | repeat constructor].
Defined.

(** A relocation of the opponent that the validator accepts. *)
Example opponent_move_relocation :
  opponent_move (player X 3) [(1, 2); (1, 1)] move_phase_board
  = (inl tt, set_cell (set_cell move_phase_board 1 1 Empty) 1 2 (Piece O)).
Proof. reflexivity. Qed.

(** ** C1: the winning drop *)




(** ** C3 and C9: the search over the store *)

Lemma is_board_load_5 (r0 r1 r2 r3 r4 : list cell) :
  Store.is_board (Store.load [r0; r1; r2; r3; r4]) 5%nat [r0; r1; r2; r3; r4].
Proof.
  exists [0; 1; 2; 3; 4]%nat. split; [reflexivity|]. split.
  - apply (bool_decide_eq_true_1 (NoDup [0; 1; 2; 3; 4]%nat)). reflexivity.
  - repeat constructor.
Qed.

(** In the store a write through a reference is seen through it: the model
    can tell a search that writes to the board it was given from one that
    writes to copies. *)
Example setitem_is_visible :
  fst (Store.getitem 5%nat 0 3 (snd (Store.setitem 5%nat 0 3 (Piece X)
                                       (Store.load three_in_row_board))))
  = Piece X
  /\ fst (Store.getitem 5%nat 0 3 (Store.load three_in_row_board)) = Empty.
Proof. split; vm_compute; reflexivity. Qed.

(** C3, as stated: on a board that is already won the search returns no
    move and [make_move] draws a successor with [random.choice]: two calls in
    a row, the second in the store the first one leaves, with the draws 0 and
    1, return different moves.  On [cornered_board], which has no winner,
    the search returns no move either: at depth 3 both successors score
    -inf, because after either move of X a move of O leaves X without
    successor, and [make_move] returns the successor drawn.  So it does on
    the empty board at depth 0, where the root is a leaf of the search. *)
Lemma make_move_draws_without_best_move :
  (Store.is_board (Store.load won_board) 5%nat won_board
   /\ game_value (player X 3) won_board = 1
   /\ _minimax (player X 3) won_board 0 true = (Fin 1, None)
   /\ fst (Store.make_move (player X 3) 5%nat 0 (Store.load won_board)) = [(0, 4)]
   /\ fst (Store.make_move (player X 3) 5%nat 1
             (snd (Store.make_move (player X 3) 5%nat 0 (Store.load won_board))))
      = [(1, 0)]
   /\ make_move (player X 3) won_board 0 <> make_move (player X 3) won_board 1)
  /\ (wf_board cornered_board
      /\ game_value (player X 3) cornered_board = 0
      /\ _minimax (player X 3) cornered_board 0 true = (NegInf, None)
      /\ make_move (player X 3) cornered_board 0 = [(0, 0); (0, 1)]
      /\ make_move (player X 3) cornered_board 1 = [(1, 2); (0, 1)])
  /\ (game_value (player X 0) empty_board = 0
      /\ _minimax (player X 0) empty_board 0 true = (Fin (Qmake 0 4), None)
      /\ make_move (player X 0) empty_board 0 = [(0, 0)]
      /\ make_move (player X 0) empty_board 1 = [(0, 1)]).
Proof.
  split; [|split].
  - split; [apply is_board_load_5|]. split; [reflexivity|].
    split; [vm_compute; reflexivity|].
    split; [vm_compute; reflexivity|]. split; [vm_compute; reflexivity|].
    vm_compute. discriminate.
  - split; [apply wf_with_pieces, wf_with_pieces, wf_empty_board|]. split; [reflexivity|].
    assert (_minimax (player X 3) cornered_board 0 true = (NegInf, None)) as Hnone
      by (vm_compute; reflexivity).
    split; [exact Hnone|].
    unfold make_move, deepcopy. rewrite Hnone. split; reflexivity.
  - repeat split; vm_compute; reflexivity.
Qed.

(** C3, amended: two calls of [make_move] in a row on the same board, the
    second in the store the first one leaves, both return what [make_move]
    returns on the board value.  That is the move of the search when the
    search returns one, whatever [random.choice] would draw, and otherwise
    the move of the successor that [random.choice] draws (the empty list when
    there is none): the two calls return the same move for all draws exactly
    when the search returns a move or the agent has at most one successor.
    On a board without winner and at depth D >= 1 they do: up to D = 2 on
    every board, up to D = 3 in the drop phase, at every depth when the
    pieces on the board and the depth number at most eight, and at every
    depth in a position of alternating play with the agent to move. *)
Theorem make_move_deterministic (mp : piece) (D : nat) (h : Store.store)
    (state : Store.loc) (b : board) :
  Store.is_board h state b ->
  wf_board b ->
  (forall rnd1 rnd2,
     fst (Store.make_move (player mp D) state rnd1 h) = make_move (player mp D) b rnd1
     /\ fst (Store.make_move (player mp D) state rnd2
              (snd (Store.make_move (player mp D) state rnd1 h)))
        = make_move (player mp D) b rnd2)
  /\ (forall mv, snd (_minimax (player mp D) b 0 true) = Some mv ->
        forall rnd, make_move (player mp D) b rnd = mv)
  /\ (snd (_minimax (player mp D) b 0 true) = None ->
        forall rnd,
          make_move (player mp D) b rnd
          = match random_choice rnd (_generate_successors (player mp D) b mp) with
            | Some (_, mv) => mv
            | None => []
            end)
  /\ ((forall rnd1 rnd2,
         fst (Store.make_move (player mp D) state rnd2
                (snd (Store.make_move (player mp D) state rnd1 h)))
         = fst (Store.make_move (player mp D) state rnd1 h))
      <-> is_Some (snd (_minimax (player mp D) b 0 true))
          \/ (length (_generate_successors (player mp D) b mp) <= 1)%nat)
  /\ (game_value (player mp D) b = 0 ->
      (1 <= D)%nat ->
      (D <= 2)%nat
      \/ ((D <= 3)%nat /\ drop_phase (player mp D) b = true)
      \/ total_pieces b + Z.of_nat D <= 8
      \/ turn_consistent (player mp D) b true ->
      forall rnd1 rnd2,
        fst (Store.make_move (player mp D) state rnd2
               (snd (Store.make_move (player mp D) state rnd1 h)))
        = fst (Store.make_move (player mp D) state rnd1 h)
        /\ make_move (player mp D) b rnd1 = make_move (player mp D) b rnd2).
Proof.
  intros Hb Hwf.
  assert (forall rnd1 rnd2,
            fst (Store.make_move (player mp D) state rnd1 h) = make_move (player mp D) b rnd1
            /\ fst (Store.make_move (player mp D) state rnd2
                     (snd (Store.make_move (player mp D) state rnd1 h)))
               = make_move (player mp D) b rnd2) as Hruns.
  { intros rnd1 rnd2.
    pose proof (StoreProofs.make_move_store (player mp D) h state b rnd1 Hb) as H1.
    unfold Store.post in H1. destruct H1 as (_ & Hb1 & ->).
    pose proof (StoreProofs.make_move_store (player mp D) _ state b rnd2 Hb1) as H2.
    unfold Store.post in H2. by destruct H2 as (_ & _ & ->). }
  pose proof (make_move_same_iff (player mp D) b) as Hiff.
  change (my_piece (player mp D)) with mp in Hiff.
  split; [exact Hruns|]. split; [|split; [|split]].
  - intros mv Hmv rnd. unfold make_move, deepcopy. by rewrite Hmv.
  - intros Hnone rnd. unfold make_move, deepcopy. by rewrite Hnone.
  - rewrite <- Hiff. split; intros Hsame rnd1 rnd2.
    + destruct (Hruns rnd1 rnd2) as [E1 E2]. rewrite <- E1, <- E2. symmetry. apply Hsame.
    + destruct (Hruns rnd1 rnd2) as [E1 E2]. rewrite E1, E2. symmetry. apply Hsame.
  - intros Hgv HD Hcond.
    assert (forall rnd1 rnd2, make_move (player mp D) b rnd1 = make_move (player mp D) b rnd2)
      as Hsame.
    { apply Hiff.
      destruct (search_finds_move mp D b Hwf Hgv HD Hcond) as [-> | [mv ->]].
      - right. cbn [length]. lia.
      - left. eauto. }
    intros rnd1 rnd2. split; [|apply Hsame].
    destruct (Hruns rnd1 rnd2) as [E1 E2]. rewrite E1, E2. symmetry. apply Hsame.
Qed.

Lemma make_move_deterministic_witness :
  (forall rnd1 rnd2,
     fst (Store.make_move (player X 3) 5%nat rnd1 (Store.load scenario_board)) = make_move (player X 3) scenario_board rnd1
     /\ fst (Store.make_move (player X 3) 5%nat rnd2
              (snd (Store.make_move (player X 3) 5%nat rnd1 (Store.load scenario_board))))
        = make_move (player X 3) scenario_board rnd2)
  /\ (forall mv, snd (_minimax (player X 3) scenario_board 0 true) = Some mv ->
        forall rnd, make_move (player X 3) scenario_board rnd = mv)
  /\ (snd (_minimax (player X 3) scenario_board 0 true) = None ->
        forall rnd,
          make_move (player X 3) scenario_board rnd
          = match random_choice rnd (_generate_successors (player X 3) scenario_board X) with
            | Some (_, mv) => mv
            | None => []
            end)
  /\ ((forall rnd1 rnd2,
         fst (Store.make_move (player X 3) 5%nat rnd2
                (snd (Store.make_move (player X 3) 5%nat rnd1 (Store.load scenario_board))))
         = fst (Store.make_move (player X 3) 5%nat rnd1 (Store.load scenario_board)))
      <-> is_Some (snd (_minimax (player X 3) scenario_board 0 true))
          \/ (length (_generate_successors (player X 3) scenario_board X) <= 1)%nat)
  /\ (game_value (player X 3) scenario_board = 0 ->
      (1 <= 3)%nat ->
      (3 <= 2)%nat
      \/ ((3 <= 3)%nat /\ drop_phase (player X 3) scenario_board = true)
      \/ total_pieces scenario_board + Z.of_nat 3 <= 8
      \/ turn_consistent (player X 3) scenario_board true ->
      forall rnd1 rnd2,
        fst (Store.make_move (player X 3) 5%nat rnd2
               (snd (Store.make_move (player X 3) 5%nat rnd1 (Store.load scenario_board))))
        = fst (Store.make_move (player X 3) 5%nat rnd1 (Store.load scenario_board))
        /\ make_move (player X 3) scenario_board rnd1 = make_move (player X 3) scenario_board rnd2).
Proof.
  apply (make_move_deterministic X 3 (Store.load scenario_board) 5%nat scenario_board).
  - exists [0; 1; 2; 3; 4]%nat. split; [reflexivity|]. split.
    + apply (bool_decide_eq_true_1 (NoDup [0; 1; 2; 3; 4]%nat)). reflexivity.
    + repeat constructor.
  - split; [reflexivity | repeat constructor].
Defined.

(** C9: [make_move] and [_generate_successors] leave every object that the
    store held before the call as it was; in particular the board passed in
    still has the same rows, and every cell read through it after the call
    has the value it had before. *)
Theorem make_move_leaves_board (mp : piece) (D : nat) (h : Store.store)
    (state : Store.loc) (b : board) (rnd : nat) :
  Store.is_board h state b ->
  wf_board b ->
  (h ⊆ snd (Store.make_move (player mp D) state rnd h)
   /\ Store.is_board (snd (Store.make_move (player mp D) state rnd h)) state b
   /\ forall r c,
        fst (Store.getitem state r c (snd (Store.make_move (player mp D) state rnd h)))
        = fst (Store.getitem state r c h))
  /\ (forall p,
        h ⊆ snd (Store._generate_successors (player mp D) state p h)
        /\ Store.is_board (snd (Store._generate_successors (player mp D) state p h)) state b
        /\ forall r c,
             fst (Store.getitem state r c
                    (snd (Store._generate_successors (player mp D) state p h)))
             = fst (Store.getitem state r c h)).
Proof.
  intros Hb _. split.
  - pose proof (StoreProofs.make_move_store (player mp D) h state b rnd Hb) as H1.
    unfold Store.post in H1. destruct H1 as (Hsub & Hb1 & _).
    split; [exact Hsub|]. split; [exact Hb1|]. intros r c.
    by rewrite (StoreProofs.getitem_board _ state b r c Hb1),
      (StoreProofs.getitem_board h state b r c Hb).
  - intros p.
    pose proof (StoreProofs.generate_successors_store (player mp D) h state b p Hb) as H1.
    unfold Store.post in H1. destruct H1 as (Hsub & _).
    assert (Store.is_board (snd (Store._generate_successors (player mp D) state p h)) state b)
      as Hb1 by (eapply StoreProofs.is_board_mono; eassumption).
    split; [exact Hsub|]. split; [exact Hb1|]. intros r c.
    by rewrite (StoreProofs.getitem_board _ state b r c Hb1),
      (StoreProofs.getitem_board h state b r c Hb).
Qed.

Lemma make_move_leaves_board_witness :
  (Store.load three_in_row_board
     ⊆ snd (Store.make_move (player X 3) 5%nat 0 (Store.load three_in_row_board))
   /\ Store.is_board (snd (Store.make_move (player X 3) 5%nat 0 (Store.load three_in_row_board)))
        5%nat three_in_row_board
   /\ forall r c,
        fst (Store.getitem 5%nat r c
               (snd (Store.make_move (player X 3) 5%nat 0 (Store.load three_in_row_board))))
        = fst (Store.getitem 5%nat r c (Store.load three_in_row_board)))
  /\ (forall p,
        Store.load three_in_row_board
          ⊆ snd (Store._generate_successors (player X 3) 5%nat p (Store.load three_in_row_board))
        /\ Store.is_board
             (snd (Store._generate_successors (player X 3) 5%nat p
                     (Store.load three_in_row_board)))
             5%nat three_in_row_board
        /\ forall r c,
             fst (Store.getitem 5%nat r c
                    (snd (Store._generate_successors (player X 3) 5%nat p
                            (Store.load three_in_row_board))))
             = fst (Store.getitem 5%nat r c (Store.load three_in_row_board))).
Proof.
  apply (make_move_leaves_board X 3 (Store.load three_in_row_board) 5%nat
           three_in_row_board 0).
  - exists [0; 1; 2; 3; 4]%nat. split; [reflexivity|]. split.
    + apply (bool_decide_eq_true_1 (NoDup [0; 1; 2; 3; 4]%nat)). reflexivity.
    + repeat constructor.
  - split; [reflexivity | repeat constructor].
Defined.

(* ===================================================================== *)
(** * Part VI.  Further properties of the player                          *)
(* ===================================================================== *)

(** ** The terminal detector *)

(** X1: on a board of the game, [game_value] returns 0 exactly when no
    window of the five families is filled by one side; when only the agent
    has a filled window it returns 1, when only the opponent has one it
    returns -1 (every winning pattern is seen, whichever family it is in). *)
Theorem game_value_detects_patterns (mp : piece) (D : nat) (state : board) :
  wf_board state ->
  (game_value (player mp D) state = 0
   <-> ~ has_pattern state mp /\ ~ has_pattern state (other mp))
  /\ (has_pattern state mp -> ~ has_pattern state (other mp) ->
      game_value (player mp D) state = 1)
  /\ (has_pattern state (other mp) -> ~ has_pattern state mp ->
      game_value (player mp D) state = -1).
Proof.
  intros Hwf.
  pose proof (game_value_zero_iff (player mp D) state Hwf) as Hz.
  pose proof (game_value_sides mp D state Hwf) as [H1 Hm1].
  pose proof (game_value_cases (player mp D) state) as Hc.
  split; [|split].
  - rewrite Hz. split.
    + intros H. split; apply H.
    + intros [Ha Hb] p. destruct mp, p; cbn [other] in *; assumption.
  - intros Hp Hn. destruct Hc as [H0|[H|H]]; [|exact H|].
    + destruct (proj1 Hz H0 mp Hp).
    + destruct (Hn (Hm1 H)).
  - intros Hp Hn. destruct Hc as [H0|[H|H]]; [| |exact H].
    + destruct (proj1 Hz H0 (other mp) Hp).
    + destruct (Hn (H1 H)).
Qed.

Lemma game_value_detects_patterns_witness :
  (game_value (player X 3) won_board = 0
   <-> ~ has_pattern won_board X /\ ~ has_pattern won_board (other X))
  /\ (has_pattern won_board X -> ~ has_pattern won_board (other X) ->
      game_value (player X 3) won_board = 1)
  /\ (has_pattern won_board (other X) -> ~ has_pattern won_board X ->
      game_value (player X 3) won_board = -1).
Proof.
  apply (game_value_detects_patterns X 3 won_board).
  split; [reflexivity | repeat constructor].
Defined.

(** A double loop with early return, seen through a map on the returned
    value. *)
Lemma double_loop_map {A B R R' : Type} (xs : list A) (ys : list B)
    (test : A -> B -> bool) (val : A -> B -> R) (val' : A -> B -> R') (f : R -> R') :
  (forall y z, test y z = true -> val' y z = f (val y z)) ->
  for_loop xs
    (fun y s => for_loop ys (fun z s => if test y z then inr (val' y z) else inl s) s) tt
  = sum_map id f
      (for_loop xs
         (fun y s => for_loop ys (fun z s => if test y z then inr (val y z) else inl s) s) tt).
Proof.
  intros Hval. induction xs as [|y xs IH]; [reflexivity|].
  cbn [for_loop].
  assert (forall zs,
            for_loop zs (fun z (s : unit) => if test y z then inr (val' y z) else inl s) tt
            = sum_map id f
                (for_loop zs (fun z (s : unit) => if test y z then inr (val y z) else inl s) tt))
    as Hin.
  { induction zs as [|z zs IHz]; [reflexivity|]. cbn [for_loop].
    destruct (test y z) eqn:E; [|exact IHz]. cbn. by rewrite Hval. }
  rewrite Hin.
  destruct (for_loop ys (fun z (s : unit) => if test y z then inr (val y z) else inl s) tt)
    as [[]|v]; [exact IH | reflexivity].
Qed.

(** The report for a piece, seen by the two players. *)
Lemma winner_value_other mp D D' p :
  winner_value (player (other mp) D') (Piece p) = - winner_value (player mp D) (Piece p).
Proof. by destruct mp, p. Qed.

Lemma four_equal_winner mp D D' a b c d :
  four_equal a b c d = true ->
  winner_value (player (other mp) D') a = - winner_value (player mp D) a.
Proof. intros (p & -> & _)%four_equal_true. apply winner_value_other. Qed.

Lemma box_equal_winner mp D D' a b c d :
  box_equal a b c d = true ->
  winner_value (player (other mp) D') a = - winner_value (player mp D) a.
Proof. intros (p & -> & _)%box_equal_true. apply winner_value_other. Qed.

Lemma check_horizontal_other mp D D' state :
  check_horizontal (player (other mp) D') state
  = sum_map id Z.opp (check_horizontal (player mp D) state).
Proof.
  apply (double_loop_map state (range 2)
           (fun row i => four_equal (item row i) (item row (i + 1)) (item row (i + 2))
                           (item row (i + 3)))
           (fun row i => winner_value (player mp D) (item row i))
           (fun row i => winner_value (player (other mp) D') (item row i)) Z.opp).
  intros row i. apply four_equal_winner.
Qed.

Lemma check_vertical_other mp D D' state :
  check_vertical (player (other mp) D') state
  = sum_map id Z.opp (check_vertical (player mp D) state).
Proof.
  apply (double_loop_map (range 5) (range 2)
           (fun col i => four_equal (cell_at state i col) (cell_at state (i + 1) col)
                           (cell_at state (i + 2) col) (cell_at state (i + 3) col))
           (fun col i => winner_value (player mp D) (cell_at state i col))
           (fun col i => winner_value (player (other mp) D') (cell_at state i col)) Z.opp).
  intros col i. apply four_equal_winner.
Qed.

Lemma check_diagonal_other mp D D' state :
  check_diagonal (player (other mp) D') state
  = sum_map id Z.opp (check_diagonal (player mp D) state).
Proof.
  apply (double_loop_map (range 2) (range 2)
           (fun i j => four_equal (cell_at state i j) (cell_at state (i + 1) (j + 1))
                         (cell_at state (i + 2) (j + 2)) (cell_at state (i + 3) (j + 3)))
           (fun i j => winner_value (player mp D) (cell_at state i j))
           (fun i j => winner_value (player (other mp) D') (cell_at state i j)) Z.opp).
  intros i j. apply four_equal_winner.
Qed.

Lemma check_antidiagonal_other mp D D' state :
  check_antidiagonal (player (other mp) D') state
  = sum_map id Z.opp (check_antidiagonal (player mp D) state).
Proof.
  apply (double_loop_map (range 2) (range_from 3 2)
           (fun i j => four_equal (cell_at state i j) (cell_at state (i + 1) (j - 1))
                         (cell_at state (i + 2) (j - 2)) (cell_at state (i + 3) (j - 3)))
           (fun i j => winner_value (player mp D) (cell_at state i j))
           (fun i j => winner_value (player (other mp) D') (cell_at state i j)) Z.opp).
  intros i j. apply four_equal_winner.
Qed.

Lemma check_box_other mp D D' state :
  check_box (player (other mp) D') state
  = sum_map id Z.opp (check_box (player mp D) state).
Proof.
  apply (double_loop_map (range 4) (range 4)
           (fun i j => box_equal (cell_at state i j) (cell_at state (i + 1) j)
                         (cell_at state i (j + 1)) (cell_at state (i + 1) (j + 1)))
           (fun i j => winner_value (player mp D) (cell_at state i j))
           (fun i j => winner_value (player (other mp) D') (cell_at state i j)) Z.opp).
  intros i j. apply box_equal_winner.
Qed.

(** X2: the verdict of [game_value] for the player who holds the other
    piece is the negation of the verdict for this player, on every board:
    both scans stop at the same first filled window, and only the sign of
    the report depends on [my_piece]. *)
Theorem game_value_of_other_player (mp : piece) (D D' : nat) (state : board) :
  game_value (player (other mp) D') state = - game_value (player mp D) state.
Proof.
  unfold game_value.
  rewrite (check_horizontal_other mp D D'), (check_vertical_other mp D D'),
    (check_diagonal_other mp D D'), (check_antidiagonal_other mp D D'),
    (check_box_other mp D D').
  destruct (check_horizontal (player mp D) state) as [[]|v]; [|reflexivity].
  destruct (check_vertical (player mp D) state) as [[]|v]; [|reflexivity].
  destruct (check_diagonal (player mp D) state) as [[]|v]; [|reflexivity].
  destruct (check_antidiagonal (player mp D) state) as [[]|v]; [|reflexivity].
  destruct (check_box (player mp D) state) as [[]|v]; reflexivity.
Qed.

(** ** The heuristic evaluator *)

(** X3: the heuristic of the player who holds the other piece is the
    negation of the heuristic of this player, on every board and whatever
    the argument [piece]: the two best counts change places. *)
Theorem heuristic_of_other_player (mp : piece) (D D' : nat) (state : board) (p p' : piece) :
  heuristic_game_value (player (other mp) D') state p'
  = Qopp (heuristic_game_value (player mp D) state p).
Proof.
  unfold heuristic_game_value. rewrite !heuristic_counts_best.
  rewrite !my_piece_player, !opp_player. unfold Qopp. cbn [Qnum Qden].
  f_equal. destruct mp; cbn [other]; lia.
Qed.

(** A list of cells counted in full holds the counted value everywhere. *)
Lemma count_full (v : cell) (cells : list cell) :
  count v cells = Z.of_nat (length cells) -> forallb (fun y => cell_eqb y v) cells = true.
Proof.
  induction cells as [|y cells IH]; [reflexivity|].
  intros H. pose proof (count_filter_bound v cells) as Hb.
  unfold count in *. rewrite filter_cons in H. cbn [forallb].
  destruct (decide (cell_eqb y v = true)) as [E|E].
  - rewrite E. cbn [andb]. apply IH. cbn [length] in H. lia.
  - cbn [length] in H. lia.
Qed.

(** Without a filled window every window counts at most three. *)
Lemma best_count_not_won state p :
  ~ has_pattern state p -> 0 <= best_count state p <= 3.
Proof.
  intros Hno. split; [apply max_of_nonneg|].
  apply max_of_bound; [lia|]. intros y (w & -> & Hw)%list_elem_of_fmap.
  pose proof (window_count_bound state p w) as Hb.
  pose proof all_windows_length as Hlen. rewrite Forall_forall in Hlen.
  specialize (Hlen w Hw). rewrite Hlen in Hb.
  destruct (decide (window_count state p w = 4)) as [E|E]; [|lia].
  exfalso. apply Hno. exists w. split; [exact Hw|].
  unfold window_count in E. destruct (blocked state p w); [discriminate|].
  unfold complete. apply count_full. unfold own_cells in E. rewrite E.
  unfold cells_of. rewrite length_fmap, Hlen. reflexivity.
Qed.

(** X4: on a board of the game without winner the heuristic lies between
    -3/4 and 3/4: a window counted 4 would be filled, so a position that is
    not won is always scored strictly between the values -1 and 1 that
    [_minimax] gives to lost and won boards. *)
Theorem heuristic_below_win (mp : piece) (D : nat) (state : board) (p : piece) :
  wf_board state ->
  game_value (player mp D) state = 0 ->
  (Qmake (-3) 4 <= heuristic_game_value (player mp D) state p)%Q
  /\ (heuristic_game_value (player mp D) state p <= Qmake 3 4)%Q
  /\ score_ltb (Fin (heuristic_game_value (player mp D) state p)) (Fin (inject_Z 1)) = true
  /\ score_ltb (Fin (inject_Z (-1))) (Fin (heuristic_game_value (player mp D) state p)) = true.
Proof.
  intros Hwf Hgv.
  pose proof (proj1 (game_value_zero_iff _ _ Hwf) Hgv) as Hno.
  pose proof (best_count_not_won state mp (Hno mp)) as Ha.
  pose proof (best_count_not_won state (other mp) (Hno (other mp))) as Hb.
  unfold heuristic_game_value. rewrite heuristic_counts_best, my_piece_player, opp_player.
  unfold score_ltb. rewrite !Bool.negb_true_iff, !Qle_bool_false.
  unfold Qle, Qlt, inject_Z. cbn [Qnum Qden]. lia.
Qed.

Lemma heuristic_below_win_witness :
  (Qmake (-3) 4 <= heuristic_game_value (player X 3) three_in_row_board X)%Q
  /\ (heuristic_game_value (player X 3) three_in_row_board X <= Qmake 3 4)%Q
  /\ score_ltb (Fin (heuristic_game_value (player X 3) three_in_row_board X))
       (Fin (inject_Z 1)) = true
  /\ score_ltb (Fin (inject_Z (-1)))
       (Fin (heuristic_game_value (player X 3) three_in_row_board X)) = true.
Proof.
  apply (heuristic_below_win X 3 three_in_row_board X).
  - split; [reflexivity | repeat constructor].
  - reflexivity.
Defined.

(** The counts of a window when a piece is put on an empty cell. *)
Lemma count_cons v y cells : count v (y :: cells) = ind (cell_eqb y v) + count v cells.
Proof.
  unfold count. rewrite filter_cons.
  destruct (decide (cell_eqb y v = true)) as [E|E].
  - rewrite E. cbn [length ind]. lia.
  - apply not_true_is_false in E. rewrite E. cbn [ind]. lia.
Qed.

Lemma cell_after_drop state p q t :
  wf_board state -> in_bounds q = true -> is_empty state q = true -> in_bounds t = true ->
  let y := cell_at state (fst t) (snd t) in
  let y' := cell_at (set_cell state (fst q) (snd q) (Piece p)) (fst t) (snd t) in
  ind (cell_eqb y (Piece p)) <= ind (cell_eqb y' (Piece p))
  /\ cell_eqb y' (Piece (other p)) = cell_eqb y (Piece (other p)).
Proof.
  intros Hwf Hq He Ht y y'. subst y y'.
  destruct (Z.eq_dec (fst t) (fst q)) as [E1|E1];
    [destruct (Z.eq_dec (snd t) (snd q)) as [E2|E2]|].
  - rewrite E1, E2. apply is_empty_spec in He. apply in_bounds_spec in Hq.
    rewrite cell_at_set_cell_same by (done || lia). rewrite He.
    destruct p; cbn; split; (lia || reflexivity).
  - apply in_bounds_spec in Hq, Ht. rewrite cell_at_set_cell by (done || lia).
    assert ((snd t =? snd q) = false) as -> by (by apply Z.eqb_neq).
    rewrite andb_false_r. split; [lia | reflexivity].
  - apply in_bounds_spec in Hq, Ht. rewrite cell_at_set_cell by (done || lia).
    assert ((fst t =? fst q) = false) as -> by (by apply Z.eqb_neq).
    cbn [andb]. split; [lia | reflexivity].
Qed.

Lemma window_after_drop state p q w :
  wf_board state -> in_bounds q = true -> is_empty state q = true -> fits w = true ->
  let state' := set_cell state (fst q) (snd q) (Piece p) in
  window_count state p w <= window_count state' p w
  /\ window_count state' (other p) w <= window_count state (other p) w.
Proof.
  intros Hwf Hq He Hw state'. subst state'.
  set (state' := set_cell state (fst q) (snd q) (Piece p)).
  assert (own_cells state p w <= own_cells state' p w
          /\ blocked state' p w = blocked state p w
          /\ own_cells state' (other p) w = own_cells state (other p) w
          /\ (blocked state (other p) w = true -> blocked state' (other p) w = true))
    as (Hown & Hbl & Hown' & Hbl').
  { unfold own_cells, blocked, cells_of, fits in *.
    induction w as [|t w IH]; [by cbn|].
    cbn [forallb] in Hw. apply andb_true_iff in Hw as [Ht Hw].
    destruct (IH Hw) as (IH1 & IH2 & IH3 & IH4).
    destruct (cell_after_drop state p q t Hwf Hq He Ht) as [H1 H2]. cbv zeta in H1, H2.
    fold state' in H1, H2.
    rewrite !fmap_cons, !count_cons. cbn [existsb]. rewrite H2, IH2, IH3.
    split; [lia|]. split; [reflexivity|]. split; [reflexivity|].
    assert (cell_eqb (cell_at state (fst t) (snd t)) (Piece (other (other p))) = true ->
            cell_eqb (cell_at state' (fst t) (snd t)) (Piece (other (other p))) = true) as H3.
    { replace (other (other p)) with p by (by destruct p).
      destruct (cell_eqb (cell_at state (fst t) (snd t)) (Piece p)),
        (cell_eqb (cell_at state' (fst t) (snd t)) (Piece p)); cbn [ind] in H1; done || lia. }
    rewrite !orb_true_iff. intros [H|H]; [left; by apply H3 | right; by apply IH4]. }
  assert (0 <= own_cells state (other p) w) as Hnn
    by (unfold own_cells; apply count_filter_bound).
  unfold window_count. rewrite Hbl. split.
  - destruct (blocked state p w); [lia | exact Hown].
  - destruct (blocked state (other p) w) eqn:E.
    + rewrite (Hbl' eq_refl). lia.
    + destruct (blocked state' (other p) w); lia.
Qed.

Lemma all_windows_fit : Forall (fun w => fits w = true) all_windows.
Proof. repeat constructor. Qed.

Lemma max_of_pointwise {A : Type} (f g : A -> Z) (l : list A) :
  (forall y, y ∈ l -> f y <= g y) -> max_of (f <$> l) <= max_of (g <$> l).
Proof.
  intros H. apply max_of_bound; [apply max_of_nonneg|].
  intros z (y & -> & Hy)%list_elem_of_fmap.
  etransitivity; [by apply H|]. apply max_of_upper, list_elem_of_fmap. by exists y.
Qed.

Lemma best_count_after_drop state p q :
  wf_board state -> in_bounds q = true -> is_empty state q = true ->
  best_count state p <= best_count (set_cell state (fst q) (snd q) (Piece p)) p
  /\ best_count (set_cell state (fst q) (snd q) (Piece p)) (other p)
     <= best_count state (other p).
Proof.
  intros Hwf Hq He. pose proof all_windows_fit as Hfit. rewrite Forall_forall in Hfit.
  split; apply max_of_pointwise; intros w Hw;
    by destruct (window_after_drop state p q w Hwf Hq He (Hfit w Hw)).
Qed.

(** X5: a piece that the agent drops on an empty cell of a board of the
    game never lowers the heuristic, and a piece that the opponent drops
    never raises it: the new piece adds to the counts of its own windows
    and blocks windows of the other side. *)
Theorem heuristic_monotone_in_drop (mp : piece) (D : nat) (state : board) (q : coord)
    (p : piece) :
  wf_board state ->
  in_bounds q = true ->
  is_empty state q = true ->
  (heuristic_game_value (player mp D) state p
   <= heuristic_game_value (player mp D) (set_cell state (fst q) (snd q) (Piece mp)) p)%Q
  /\ (heuristic_game_value (player mp D)
        (set_cell state (fst q) (snd q) (Piece (other mp))) p
      <= heuristic_game_value (player mp D) state p)%Q.
Proof.
  intros Hwf Hq He.
  destruct (best_count_after_drop state mp q Hwf Hq He) as [H1 H2].
  destruct (best_count_after_drop state (other mp) q Hwf Hq He) as [H3 H4].
  replace (other (other mp)) with mp in H4 by (by destruct mp).
  unfold heuristic_game_value. rewrite !heuristic_counts_best, my_piece_player, opp_player.
  unfold Qle. cbn [Qnum Qden]. lia.
Qed.

Lemma heuristic_monotone_in_drop_witness :
  Qle (heuristic_game_value (player X 3) three_in_row_board X)
      (heuristic_game_value (player X 3) (set_cell three_in_row_board 0 3 (Piece X)) X)
  /\ Qle (heuristic_game_value (player X 3)
            (set_cell three_in_row_board 0 3 (Piece (other X))) X)
         (heuristic_game_value (player X 3) three_in_row_board X).
Proof.
  apply (heuristic_monotone_in_drop X 3 three_in_row_board (0, 3) X).
  - split; [reflexivity | repeat constructor].
  - reflexivity.
  - reflexivity.
Defined.

(** ** The move applicator *)

Lemma place_piece_drop q p state :
  place_piece [q] p state = (inl tt, set_cell state (fst q) (snd q) (Piece p)).
Proof. reflexivity. Qed.

Lemma place_piece_relocation dst src p state :
  place_piece [dst; src] p state
  = (inl tt,
     set_cell (set_cell state (fst src) (snd src) Empty) (fst dst) (snd dst) (Piece p)).
Proof. reflexivity. Qed.

Lemma in_bounds_nonneg q : in_bounds q = true -> 0 <= fst q /\ 0 <= snd q.
Proof. intros H%in_bounds_spec. lia. Qed.

Lemma cell_at_set_cell_coord state dst v q :
  wf_board state -> in_bounds dst = true -> in_bounds q = true ->
  cell_at (set_cell state (fst dst) (snd dst) v) (fst q) (snd q)
  = if coord_eqb q dst then v else cell_at state (fst q) (snd q).
Proof.
  intros Hwf Hd%in_bounds_spec Hq%in_bounds_spec.
  rewrite cell_at_set_cell by (done || lia). reflexivity.
Qed.

(** X6: [place_piece] changes the cells that the move names and no other
    cell of the board: after a one-coordinate move the destination holds
    the piece; after a two-coordinate move the destination holds the piece
    and the source is empty, unless it is the destination (the source is
    cleared first).  Nothing is checked: whatever the two cells held before
    is overwritten. *)
Theorem place_piece_changes_named_cells (state : board) (p : piece) (dst src q : coord) :
  wf_board state ->
  in_bounds dst = true -> in_bounds src = true -> in_bounds q = true ->
  (fst (place_piece [dst] p state) = inl tt
   /\ wf_board (snd (place_piece [dst] p state))
   /\ cell_at (snd (place_piece [dst] p state)) (fst q) (snd q)
      = if coord_eqb q dst then Piece p else cell_at state (fst q) (snd q))
  /\ (fst (place_piece [dst; src] p state) = inl tt
      /\ wf_board (snd (place_piece [dst; src] p state))
      /\ cell_at (snd (place_piece [dst; src] p state)) (fst q) (snd q)
         = if coord_eqb q dst then Piece p
           else if coord_eqb q src then Empty else cell_at state (fst q) (snd q)).
Proof.
  intros Hwf Hd Hs Hq. rewrite place_piece_drop, place_piece_relocation. cbn [fst snd].
  split; (split; [reflexivity|]); split.
  - by apply wf_set_cell.
  - by apply cell_at_set_cell_coord.
  - by do 2 apply wf_set_cell.
  - rewrite cell_at_set_cell_coord by (done || by apply wf_set_cell).
    destruct (coord_eqb q dst); [reflexivity|]. by apply cell_at_set_cell_coord.
Qed.

Lemma place_piece_changes_named_cells_witness :
  (fst (place_piece [(1, 2)] O move_phase_board) = inl tt
   /\ wf_board (snd (place_piece [(1, 2)] O move_phase_board))
   /\ cell_at (snd (place_piece [(1, 2)] O move_phase_board)) (fst (0, 0)) (snd (0, 0))
      = if coord_eqb (0, 0) (1, 2) then Piece O
        else cell_at move_phase_board (fst (0, 0)) (snd (0, 0)))
  /\ (fst (place_piece [(1, 2); (1, 1)] O move_phase_board) = inl tt
      /\ wf_board (snd (place_piece [(1, 2); (1, 1)] O move_phase_board))
      /\ cell_at (snd (place_piece [(1, 2); (1, 1)] O move_phase_board))
           (fst (0, 0)) (snd (0, 0))
         = if coord_eqb (0, 0) (1, 2) then Piece O
           else if coord_eqb (0, 0) (1, 1) then Empty
                else cell_at move_phase_board (fst (0, 0)) (snd (0, 0))).
Proof.
  apply (place_piece_changes_named_cells move_phase_board O (1, 2) (1, 1) (0, 0)).
  - split; [reflexivity | repeat constructor].
  - reflexivity.
  - reflexivity.
  - reflexivity.
Defined.

(** The successors are what [place_piece] makes of their descriptors. *)
Lemma place_piece_place state p q : place_piece [q] p state = (inl tt, fst (place state p q)).
Proof. reflexivity. Qed.

Lemma place_piece_relocate state p src dst :
  place_piece [dst; src] p state = (inl tt, fst (relocate state p src dst)).
Proof. reflexivity. Qed.

Lemma place_piece_generated self state p s m :
  (s, m) ∈ _generate_successors self state p -> place_piece m p state = (inl tt, s).
Proof.
  rewrite generate_successors_spec. destruct (drop_phase self state).
  - intros (q & _ & _ & Heq)%elem_of_drop_spec. injection Heq as -> ->. reflexivity.
  - intros (src & dst & _ & _ & _ & _ & _ & Heq)%elem_of_move_spec.
    injection Heq as -> ->. reflexivity.
Qed.

(** X7: applying with [place_piece] the move of a successor that
    [_generate_successors] lists for a piece gives, without error, exactly
    the board of that successor: the board the search has evaluated for a
    move is the board that playing the move produces. *)
Theorem place_piece_replays_successor (self : TeekoPlayer) (state : board) (p : piece)
    (s : board) (m : move) :
  (s, m) ∈ _generate_successors self state p ->
  place_piece m p state = (inl tt, s).
Proof. apply place_piece_generated. Qed.

Lemma place_piece_replays_successor_witness :
  place_piece [(0, 3)] X three_in_row_board
  = (inl tt, set_cell three_in_row_board 0 3 (Piece X)).
Proof.
  apply (place_piece_replays_successor (player X 3) three_in_row_board X
           (set_cell three_in_row_board 0 3 (Piece X)) [(0, 3)]).
  apply (list_elem_of_lookup_2 _ 0%nat). vm_compute. reflexivity.
Defined.

(** ** The validator and the generator *)

(** What the conditions say for the two shapes of a move. *)
Lemma conditions_drop self state q :
  (forall c, condition_holds self state [q] c = true)
  <-> in_bounds q = true /\ is_empty state q = true.
Proof.
  split.
  - intros H. split; [exact (H Destination_in_bounds) | exact (H Destination_empty)].
  - intros [Hb He] []; cbn; done.
Qed.

Lemma conditions_relocation self state dst src :
  (forall c, condition_holds self state [dst; src] c = true)
  <-> in_bounds dst = true /\ is_empty state dst = true
      /\ in_bounds src = true /\ holds state (opp self) src = true
      /\ king_adjacentb src dst = true.
Proof.
  split.
  - intros H.
    repeat split;
      [exact (H Destination_in_bounds) | exact (H Destination_empty)
       | exact (H Source_in_bounds) | exact (H Source_owned) | exact (H Adjacent)].
  - intros (Hb & He & Hsb & Hso & Ha) []; cbn; done.
Qed.

Lemma conditions_shape self state mv :
  (forall c, condition_holds self state mv c = true) ->
  (exists q, mv = [q]) \/ (exists dst src, mv = [dst; src]).
Proof.
  intros H. specialize (H Coordinate_count). cbn in H.
  destruct mv as [|dst [|src [|]]]; try discriminate; eauto.
Qed.

(** X8: every move that [_generate_successors] lists for the opponent's
    piece on a board of the game is accepted by [opponent_move], and the
    board it leaves is the board of that successor: the replies the search
    considers are moves the opponent can really make. *)
Theorem generated_moves_are_accepted (self : TeekoPlayer) (state : board)
    (s : board) (m : move) :
  wf_board state ->
  (s, m) ∈ _generate_successors self state (opp self) ->
  opponent_move self m state = (inl tt, s).
Proof.
  intros Hwf Hin. rewrite opponent_move_result.
  pose proof (place_piece_generated _ _ _ _ _ Hin) as Hpp.
  assert (forall c, condition_holds self state m c = true) as Hc.
  { revert Hin. rewrite generate_successors_spec. destruct (drop_phase self state).
    - intros (q & Hq & He & Heq)%elem_of_drop_spec. injection Heq as -> ->.
      apply conditions_drop. split; [by apply in_bounds_all_coords | exact He].
    - intros (src & dst & Hsrc & Hh & Hn & Hb & He & Heq)%elem_of_move_spec.
      injection Heq as -> ->. apply conditions_relocation.
      repeat split; [done | done | by apply in_bounds_all_coords | done |].
      by apply king_adjacentb_spec, neighbours_king_adjacent. }
  apply first_failure_none in Hc. rewrite Hc, Hpp. reflexivity.
Qed.

Lemma generated_moves_are_accepted_witness :
  opponent_move (player X 3) [(1, 2); (1, 1)] move_phase_board
  = (inl tt, set_cell (set_cell move_phase_board 1 1 Empty) 1 2 (Piece O)).
Proof.
  apply (generated_moves_are_accepted (player X 3) move_phase_board
           (set_cell (set_cell move_phase_board 1 1 Empty) 1 2 (Piece O)) [(1, 2); (1, 1)]).
  - split; [reflexivity | repeat constructor].
  - apply (list_elem_of_lookup_2 _ 3%nat). vm_compute. reflexivity.
Defined.

Lemma accepted_in_successors mp D state mv state' :
  wf_board state ->
  opponent_move (player mp D) mv state = (inl tt, state') ->
  ((length mv = 1%nat) <-> (total_pieces state < 8)) ->
  (state', mv) ∈ _generate_successors (player mp D) state (other mp).
Proof.
  intros Hwf [Hc ->]%opponent_move_accepted Hphase.
  rewrite generate_successors_spec, drop_phase_total by done.
  destruct (conditions_shape _ _ _ Hc) as [[q ->]|(dst & src & ->)].
  - assert ((total_pieces state <? 8) = true) as -> by (apply Z.ltb_lt, Hphase; reflexivity).
    apply conditions_drop in Hc as [Hb He]. rewrite opp_player.
    apply elem_of_drop_spec. exists q.
    split; [by apply in_bounds_all_coords|]. split; [exact He | reflexivity].
  - assert ((total_pieces state <? 8) = false) as ->.
    { apply Z.ltb_ge. destruct (decide (total_pieces state < 8)) as [Hlt|]; [|lia].
      apply Hphase in Hlt. discriminate. }
    apply conditions_relocation in Hc as (Hb & He & Hsb & Hso & Ha). rewrite opp_player in *.
    apply elem_of_move_spec. exists src, dst.
    split; [by apply in_bounds_all_coords|]. split; [exact Hso|].
    split; [by apply king_adjacentb_neighbours|]. done.
Qed.

(** X9: a move that [opponent_move] accepts on a board of the game, and
    whose number of coordinates fits the phase (one coordinate exactly when
    fewer than eight pieces are on the board), is one of the moves that
    [_generate_successors] lists for the opponent's piece, with the board
    that [opponent_move] leaves. *)
Theorem accepted_moves_are_generated (mp : piece) (D : nat) (state : board) (mv : move)
    (state' : board) :
  wf_board state ->
  opponent_move (player mp D) mv state = (inl tt, state') ->
  ((length mv = 1%nat) <-> (total_pieces state < 8)) ->
  (state', mv) ∈ _generate_successors (player mp D) state (other mp).
Proof. apply accepted_in_successors. Qed.

Lemma accepted_moves_are_generated_witness :
  (set_cell (set_cell move_phase_board 1 1 Empty) 1 2 (Piece O), [(1, 2); (1, 1)])
    ∈ _generate_successors (player X 3) move_phase_board (other X).
Proof.
  apply (accepted_moves_are_generated X 3 move_phase_board [(1, 2); (1, 1)]).
  - split; [reflexivity | repeat constructor].
  - reflexivity.
  - split; [discriminate | vm_compute; discriminate].
Defined.

Lemma total_pieces_place state p q :
  wf_board state -> in_bounds q = true -> is_empty state q = true ->
  total_pieces (fst (place state p q)) = total_pieces state + 1.
Proof.
  intros Hwf Hb%in_bounds_all_coords He. unfold total_pieces.
  rewrite !count_cells_place by done. destruct p; cbn; lia.
Qed.

(** X10: [opponent_move] does not look at the phase.  A one-coordinate move
    onto an empty cell of the board is accepted whatever the number of
    pieces, and leaves one piece more; with eight or more pieces on the
    board such a move is none of the moves [_generate_successors] lists, so
    the validator accepts drops that the rules of the move phase exclude. *)
Theorem opponent_move_ignores_phase (mp : piece) (D : nat) (state : board) (q : coord) :
  wf_board state ->
  in_bounds q = true ->
  is_empty state q = true ->
  opponent_move (player mp D) [q] state
  = (inl tt, set_cell state (fst q) (snd q) (Piece (other mp)))
  /\ total_pieces (set_cell state (fst q) (snd q) (Piece (other mp))) = total_pieces state + 1
  /\ (8 <= total_pieces state ->
      forall s, (s, [q]) ∉ _generate_successors (player mp D) state (other mp)).
Proof.
  intros Hwf Hb He. split; [|split].
  - rewrite opponent_move_result.
    assert (forall c, condition_holds (player mp D) state [q] c = true) as Hc
      by (by apply conditions_drop).
    apply first_failure_none in Hc. rewrite Hc, place_piece_drop, opp_player. reflexivity.
  - by apply (total_pieces_place state (other mp) q).
  - intros Hfull s. rewrite generate_successors_spec, drop_phase_total by done.
    assert ((total_pieces state <? 8) = false) as -> by (apply Z.ltb_ge; lia).
    intros (src & dst & _ & _ & _ & _ & _ & Heq)%elem_of_move_spec. discriminate.
Qed.

Lemma opponent_move_ignores_phase_witness :
  opponent_move (player X 3) [(0, 1)] move_phase_board
  = (inl tt, set_cell move_phase_board (fst (0, 1)) (snd (0, 1)) (Piece (other X)))
  /\ total_pieces (set_cell move_phase_board (fst (0, 1)) (snd (0, 1)) (Piece (other X)))
     = total_pieces move_phase_board + 1
  /\ (8 <= total_pieces move_phase_board ->
      forall s, (s, [(0, 1)]) ∉ _generate_successors (player X 3) move_phase_board (other X)).
Proof.
  apply (opponent_move_ignores_phase X 3 move_phase_board (0, 1)).
  - split; [reflexivity | repeat constructor].
  - reflexivity.
  - reflexivity.
Defined.

Lemma other_neq p : other p <> p.
Proof. by destruct p. Qed.

Lemma piece_eqb_other p : piece_eqb (other p) p = false.
Proof. by destruct p. Qed.

Lemma piece_eqb_refl p : piece_eqb p p = true.
Proof. by destruct p. Qed.

(** X11: a move that [opponent_move] accepts never touches the agent's
    pieces: every cell that held the agent's piece still holds it, the
    agent has as many pieces as before, and the opponent has one piece more
    after a one-coordinate move and as many as before after a relocation;
    the board is still five by five. *)
Theorem opponent_move_keeps_agent_pieces (mp : piece) (D : nat) (state : board) (mv : move)
    (state' : board) :
  wf_board state ->
  opponent_move (player mp D) mv state = (inl tt, state') ->
  wf_board state'
  /\ (forall q, in_bounds q = true -> holds state mp q = true -> holds state' mp q = true)
  /\ count_cells state' (Piece mp) = count_cells state (Piece mp)
  /\ count_cells state' (Piece (other mp))
     = count_cells state (Piece (other mp)) + ind (length mv =? 1)%nat.
Proof.
  intros Hwf [Hc ->]%opponent_move_accepted. rewrite opp_player.
  destruct (conditions_shape _ _ _ Hc) as [[dst ->]|(dst & src & ->)].
  - apply conditions_drop in Hc as [Hb He]. rewrite place_piece_place. cbn [snd].
    split; [by apply wf_set_cell|]. split; [|split].
    + intros q Hq Hh. unfold holds, place. cbn [fst].
      rewrite cell_at_set_cell_coord by done.
      destruct (coord_eqb q dst) eqn:E; [|exact Hh].
      apply coord_eqb_eq in E as ->. apply is_empty_spec in He. apply holds_spec in Hh.
      congruence.
    + rewrite count_cells_place by (done || by apply in_bounds_all_coords).
      rewrite piece_eqb_other. cbn. lia.
    + rewrite count_cells_place by (done || by apply in_bounds_all_coords).
      rewrite piece_eqb_refl. reflexivity.
  - apply conditions_relocation in Hc as (Hb & He & Hsb & Hso & Ha). rewrite opp_player in Hso.
    rewrite place_piece_relocate. cbn [snd].
    split; [by do 2 apply wf_set_cell|]. split; [|split].
    + intros q Hq Hh. unfold holds, relocate. cbn [fst].
      rewrite cell_at_set_cell_coord by (done || by apply wf_set_cell).
      destruct (coord_eqb q dst) eqn:E.
      { apply coord_eqb_eq in E as ->. apply is_empty_spec in He. apply holds_spec in Hh.
        congruence. }
      rewrite cell_at_set_cell_coord by done.
      destruct (coord_eqb q src) eqn:E'; [|exact Hh].
      apply coord_eqb_eq in E' as ->. apply holds_spec in Hso. apply holds_spec in Hh.
      rewrite Hso in Hh. injection Hh as Hh. destruct (other_neq _ Hh).
    + by rewrite count_cells_relocate by (done || by apply in_bounds_all_coords).
    + rewrite count_cells_relocate by (done || by apply in_bounds_all_coords).
      cbn. lia.
Qed.

Lemma opponent_move_keeps_agent_pieces_witness :
  wf_board (set_cell (set_cell move_phase_board 1 1 Empty) 1 2 (Piece O))
  /\ (forall q, in_bounds q = true -> holds move_phase_board X q = true ->
        holds (set_cell (set_cell move_phase_board 1 1 Empty) 1 2 (Piece O)) X q = true)
  /\ count_cells (set_cell (set_cell move_phase_board 1 1 Empty) 1 2 (Piece O)) (Piece X)
     = count_cells move_phase_board (Piece X)
  /\ count_cells (set_cell (set_cell move_phase_board 1 1 Empty) 1 2 (Piece O))
       (Piece (other X))
     = count_cells move_phase_board (Piece (other X))
       + ind (length [(1, 2); (1, 1)] =? 1)%nat.
Proof.
  apply (opponent_move_keeps_agent_pieces X 3 move_phase_board [(1, 2); (1, 1)]).
  - split; [reflexivity | repeat constructor].
  - reflexivity.
Defined.

(** ** The successor generator *)

(** The two shapes of a successor. *)
Lemma successor_shape mp D state p s m :
  wf_board state ->
  (s, m) ∈ _generate_successors (player mp D) state p ->
  (total_pieces state < 8
   /\ exists q, q ∈ all_coords /\ is_empty state q = true /\ (s, m) = place state p q)
  \/ (8 <= total_pieces state
      /\ exists src dst, src ∈ all_coords /\ holds state p src = true
                         /\ dst ∈ neighbours src /\ in_bounds dst = true
                         /\ is_empty state dst = true /\ (s, m) = relocate state p src dst).
Proof.
  intros Hwf. rewrite generate_successors_spec, drop_phase_total by done.
  destruct (Z.ltb_spec (total_pieces state) 8) as [Hlt|Hge].
  - intros H%elem_of_drop_spec. left. done.
  - intros H%elem_of_move_spec. right. done.
Qed.

Lemma successor_move_nonempty self state p s m :
  (s, m) ∈ _generate_successors self state p -> m <> [].
Proof.
  rewrite generate_successors_spec. destruct (drop_phase self state).
  - intros (q & _ & _ & Heq)%elem_of_drop_spec. by injection Heq as -> ->.
  - intros (src & dst & _ & _ & _ & _ & _ & Heq)%elem_of_move_spec. by injection Heq as -> ->.
Qed.

Lemma count_cells_other_place state p q :
  wf_board state -> q ∈ all_coords -> is_empty state q = true ->
  count_cells (fst (place state p q)) (Piece (other p)) = count_cells state (Piece (other p))
  /\ count_cells (fst (place state p q)) (Piece p) = count_cells state (Piece p) + 1.
Proof.
  intros Hwf Hq He. rewrite !count_cells_place by done.
  destruct p; cbn; lia.
Qed.

(** What a successor is, in numbers. *)
Lemma successor_counts mp D state p s m :
  wf_board state ->
  (s, m) ∈ _generate_successors (player mp D) state p ->
  wf_board s
  /\ count_cells s (Piece (other p)) = count_cells state (Piece (other p))
  /\ count_cells s (Piece p) = count_cells state (Piece p) + ind (total_pieces state <? 8)
  /\ length m = (if total_pieces state <? 8 then 1%nat else 2%nat)
  /\ Forall (fun q => in_bounds q = true) m.
Proof.
  intros Hwf Hin. split; [by eapply successors_wf|].
  destruct (successor_shape _ _ _ _ _ _ Hwf Hin)
    as [[Hlt (q & Hq & He & Heq)]|[Hge (src & dst & Hsrc & Hh & Hn & Hb & He & Heq)]].
  - assert ((total_pieces state <? 8) = true) as -> by (by apply Z.ltb_lt).
    injection Heq as -> ->.
    destruct (count_cells_other_place state p q Hwf Hq He) as [Ho Hp].
    split; [exact Ho|]. split; [exact Hp|]. split; [reflexivity|].
    constructor; [by apply in_bounds_all_coords | constructor].
  - assert ((total_pieces state <? 8) = false) as -> by (by apply Z.ltb_ge).
    pose proof (count_cells_relocate state p src dst (other p) Hwf Hsrc Hh Hb He) as Ho.
    pose proof (count_cells_relocate state p src dst p Hwf Hsrc Hh Hb He) as Hp.
    injection Heq as -> ->.
    unfold relocate in Ho, Hp. cbn [fst] in Ho, Hp.
    split; [exact Ho|]. split; [cbn [ind]; lia|]. split; [reflexivity|].
    constructor; [done|]. constructor; [by apply in_bounds_all_coords | constructor].
Qed.

(** X12: the successors of a board of the game are boards of the game, and
    a move changes the piece counts as the phase says: in the drop phase
    (fewer than eight pieces) the piece that moves gets one more cell and
    the move is one coordinate, in the move phase its count stays and the
    move is two coordinates; the count of the other piece never changes,
    and every coordinate of a move lies on the board. *)
Theorem successors_keep_counts (mp : piece) (D : nat) (state : board) (p : piece)
    (s : board) (m : move) :
  wf_board state ->
  (s, m) ∈ _generate_successors (player mp D) state p ->
  wf_board s
  /\ count_cells s (Piece (other p)) = count_cells state (Piece (other p))
  /\ count_cells s (Piece p) = count_cells state (Piece p) + ind (total_pieces state <? 8)
  /\ length m = (if total_pieces state <? 8 then 1%nat else 2%nat)
  /\ Forall (fun q => in_bounds q = true) m.
Proof. apply successor_counts. Qed.

Lemma successors_keep_counts_witness :
  wf_board (set_cell three_in_row_board 0 3 (Piece X))
  /\ count_cells (set_cell three_in_row_board 0 3 (Piece X)) (Piece (other X))
     = count_cells three_in_row_board (Piece (other X))
  /\ count_cells (set_cell three_in_row_board 0 3 (Piece X)) (Piece X)
     = count_cells three_in_row_board (Piece X) + ind (total_pieces three_in_row_board <? 8)
  /\ length [(0, 3)] = (if total_pieces three_in_row_board <? 8 then 1%nat else 2%nat)
  /\ Forall (fun q => in_bounds q = true) [(0, 3)].
Proof.
  apply (successors_keep_counts X 3 three_in_row_board X
           (set_cell three_in_row_board 0 3 (Piece X)) [(0, 3)]).
  - split; [reflexivity | repeat constructor].
  - apply (list_elem_of_lookup_2 _ 0%nat). vm_compute. reflexivity.
Defined.

Lemma length_bind_bound {A B : Type} (f : A -> list B) (k : nat) (l : list A) :
  (forall y, y ∈ l -> (length (f y) <= k)%nat) ->
  (length (l ≫= f) <= k * length l)%nat.
Proof.
  induction l as [|y l IH]; intros H; [cbn; lia|].
  rewrite bind_cons, length_app. cbn [length].
  pose proof (H y ltac:(left)) as Hy.
  assert (length (l ≫= f) <= k * length l)%nat as Hl
    by (apply IH; intros z Hz; apply H; by right).
  lia.
Qed.

(** X13: the number of successors.  In the drop phase there is one
    successor for each empty cell, 25 minus the number of pieces on the
    board; in the move phase there are at most eight for each cell that
    holds the piece. *)
Theorem successors_number (mp : piece) (D : nat) (state : board) (p : piece) :
  wf_board state ->
  (total_pieces state < 8 ->
   Z.of_nat (length (_generate_successors (player mp D) state p)) = 25 - total_pieces state)
  /\ (8 <= total_pieces state ->
      Z.of_nat (length (_generate_successors (player mp D) state p))
      <= 8 * count_cells state (Piece p)).
Proof.
  intros Hwf. rewrite generate_successors_spec, drop_phase_total by done.
  split; intros Hph.
  - assert ((total_pieces state <? 8) = true) as -> by (by apply Z.ltb_lt).
    unfold drop_spec. rewrite length_fmap.
    pose proof (count_cells_partition state) as Hpart. unfold total_pieces.
    change (Z.of_nat (length (filter (fun q => is_empty state q = true) all_coords)))
      with (count_cells state Empty). lia.
  - assert ((total_pieces state <? 8) = false) as -> by (by apply Z.ltb_ge).
    unfold move_spec.
    etransitivity; [apply inj_le, (length_bind_bound _ 8)|].
    + intros src _. rewrite length_fmap.
      etransitivity; [apply length_filter|]. reflexivity.
    + unfold count_cells, holds. lia.
Qed.

Lemma successors_number_witness :
  (total_pieces three_in_row_board < 8 ->
   Z.of_nat (length (_generate_successors (player X 3) three_in_row_board X))
   = 25 - total_pieces three_in_row_board)
  /\ (8 <= total_pieces three_in_row_board ->
      Z.of_nat (length (_generate_successors (player X 3) three_in_row_board X))
      <= 8 * count_cells three_in_row_board (Piece X)).
Proof.
  apply (successors_number X 3 three_in_row_board X).
  split; [reflexivity | repeat constructor].
Defined.

(** ** The search and [make_move] *)

(** The move a selection loop returns is the move of one of the
    successors. *)
Lemma node_choice_member is_max eval succs m :
  snd (node_choice is_max eval succs) = Some m -> exists s, (s, m) ∈ succs.
Proof.
  unfold node_choice. destruct is_max.
  - rewrite max_loop_select. intros H.
    destruct (select_loop_inv better_max NegInf score_ltb_irrefl score_le_lt_trans score_lt_le
                eval succs) as [_ Hs].
    rewrite H in Hs. destruct Hs as (i & s & Hlk & _). exists s.
    by eapply list_elem_of_lookup_2.
  - rewrite min_loop_select. intros H.
    destruct (select_loop_inv better_min PosInf score_ltb_irrefl better_min_trans better_min_weak
                eval succs) as [_ Hs].
    rewrite H in Hs. destruct Hs as (i & s & Hlk & _). exists s.
    by eapply list_elem_of_lookup_2.
Qed.

Lemma minimax_move_in_successors self n state is_max m :
  snd (minimax_plies self n state is_max) = Some m ->
  exists s, (s, m) ∈ _generate_successors self state (mover self is_max).
Proof.
  destruct (decide (game_value self state = 0)) as [Hgv|Hgv].
  2: { rewrite minimax_plies_terminal by done. discriminate. }
  destruct n as [|n].
  { rewrite minimax_plies_0 by done. discriminate. }
  rewrite minimax_plies_S by done. apply node_choice_member.
Qed.

Lemma make_move_cases self state rnd :
  (_generate_successors self state (my_piece self) = [] /\ make_move self state rnd = [])
  \/ exists s, (s, make_move self state rnd) ∈ _generate_successors self state (my_piece self).
Proof.
  unfold make_move, deepcopy, _minimax.
  destruct (snd (minimax_plies self (AI_SEARCH_DEPTH self - 0) state true)) as [m|] eqn:E.
  - right. by apply minimax_move_in_successors in E.
  - unfold random_choice.
    destruct (_generate_successors self state (my_piece self)) as [|sm succs] eqn:Hs.
    + left. done.
    + right.
      assert (rnd `mod` length (sm :: succs) < length (sm :: succs))%nat as Hlt
        by (apply Nat.mod_upper_bound; discriminate).
      destruct (lookup_lt_is_Some_2 _ _ Hlt) as [[s m] Hlk]. rewrite Hlk.
      exists s. by eapply list_elem_of_lookup_2.
Qed.

(** X14: [make_move] returns the empty list exactly when the agent's piece
    has no successor on the board, and otherwise the move of one of the
    successors that [_generate_successors] lists for the agent's piece, on
    every board, at every search depth and whatever [random.choice] draws:
    also on a board that is already won, where the search gives no move. *)
Theorem make_move_returns_generated_move (self : TeekoPlayer) (state : board) (rnd : nat) :
  (make_move self state rnd = [] <-> _generate_successors self state (my_piece self) = [])
  /\ (make_move self state rnd <> [] ->
      exists s, (s, make_move self state rnd)
                  ∈ _generate_successors self state (my_piece self)).
Proof.
  destruct (make_move_cases self state rnd) as [[Hnil Hmv]|[s Hin]].
  - rewrite Hnil, Hmv. split; [done|]. intros H. by destruct H.
  - pose proof (successor_move_nonempty _ _ _ _ _ Hin) as Hne. split.
    + split; [done|]. intros Hnil. rewrite Hnil in Hin. by apply elem_of_nil in Hin.
    + intros _. by exists s.
Qed.

(** X15: in a position of alternating play on a board of the game (nobody
    has more than four pieces, the side to move has as many pieces as the
    other side or one less) the side to move has a successor in both phases:
    four pieces always have a free neighbouring cell.  So [make_move] never
    returns the empty list there. *)
Theorem side_to_move_has_a_move (mp : piece) (D : nat) (state : board) (is_max : bool)
    (rnd : nat) :
  wf_board state ->
  turn_consistent (player mp D) state is_max ->
  _generate_successors (player mp D) state (mover (player mp D) is_max) <> []
  /\ (is_max = true -> make_move (player mp D) state rnd <> []).
Proof.
  intros Hwf Htc.
  pose proof (successors_nonempty mp D state is_max Hwf Htc) as Hne.
  split; [exact Hne|]. intros ->.
  destruct (make_move_cases (player mp D) state rnd) as [[Hnil _]|[s Hin]].
  - destruct (Hne Hnil).
  - by eapply successor_move_nonempty.
Qed.

Lemma side_to_move_has_a_move_witness :
  _generate_successors (player X 3) move_phase_board (mover (player X 3) true) <> []
  /\ (true = true -> make_move (player X 3) move_phase_board 0 <> []).
Proof.
  apply (side_to_move_has_a_move X 3 move_phase_board true 0).
  - split; [reflexivity | repeat constructor].
  - vm_compute. repeat split; discriminate.
Defined.

(** X16: in a position of alternating play on a board of the game the
    value that [_minimax] returns is a number between -1 and 1 at every
    depth up to the cutoff (never one of the initial values -inf and inf
    of the loops), and at a board without winner below the cutoff the move
    returned is the move of one of the successors of the side to move. *)
Theorem minimax_bounded_in_play (mp : piece) (D : nat) (state : board) (d : nat)
    (is_max : bool) :
  wf_board state ->
  (d <= D)%nat ->
  turn_consistent (player mp D) state is_max ->
  bounded_score (fst (_minimax (player mp D) state d is_max))
  /\ (game_value (player mp D) state = 0 -> (d < D)%nat ->
      exists s m, (s, m) ∈ children (player mp D) state is_max
                  /\ snd (_minimax (player mp D) state d is_max) = Some m).
Proof.
  intros Hwf Hd Htc. unfold _minimax, children. rewrite depth_player.
  split; [by apply minimax_plies_bounded|].
  intros Hgv Hlt. destruct (D - d)%nat as [|n] eqn:E; [lia|].
  rewrite minimax_plies_S by done.
  destruct (node_choice_bounded is_max
              (fun s => fst (minimax_plies (player mp D) n s (negb is_max)))
              (_generate_successors (player mp D) state (mover (player mp D) is_max)))
    as [_ [m Hm]].
  - by apply successors_nonempty.
  - intros s m Hin. eapply children_bounded; [done | by right | exact Hin].
  - destruct (node_choice_member _ _ _ _ Hm) as [s Hin]. by exists s, m.
Qed.

Lemma minimax_bounded_in_play_witness :
  bounded_score (fst (_minimax (player X 3) three_in_row_board 0 true))
  /\ (game_value (player X 3) three_in_row_board = 0 -> (0 < 3)%nat ->
      exists s m, (s, m) ∈ children (player X 3) three_in_row_board true
                  /\ snd (_minimax (player X 3) three_in_row_board 0 true) = Some m).
Proof.
  apply (minimax_bounded_in_play X 3 three_in_row_board 0 true).
  - split; [reflexivity | repeat constructor].
  - lia.
  - vm_compute. repeat split; discriminate.
Defined.

(** X17: in a position of alternating play on a board of the game without
    winner, with the agent to move and a search depth of at least 1, the
    move [make_move] returns is the move of a successor whose value in the
    search (the value [_minimax] gives to it at depth 1, with the opponent
    to move) is not exceeded by the value of any other successor, and this
    value, a number between -1 and 1, is the value of the board at depth
    0. *)
Theorem make_move_maximizes (mp : piece) (D : nat) (state : board) (rnd : nat) :
  wf_board state ->
  (1 <= D)%nat ->
  game_value (player mp D) state = 0 ->
  turn_consistent (player mp D) state true ->
  exists s,
    (s, make_move (player mp D) state rnd) ∈ children (player mp D) state true
    /\ bounded_score (child_score (player mp D) 0 true s)
    /\ fst (_minimax (player mp D) state 0 true) = child_score (player mp D) 0 true s
    /\ forall s' m', (s', m') ∈ children (player mp D) state true ->
         score_ltb (child_score (player mp D) 0 true s)
                   (child_score (player mp D) 0 true s') = false.
Proof.
  intros Hwf HD Hgv Htc.
  pose proof (_minimax_unfold (player mp D) state 0 true) as Heq.
  rewrite depth_player in Heq. specialize (Heq ltac:(lia)). cbv zeta in Heq.
  rewrite Hgv in Heq. cbn [Z.eqb negb] in Heq.
  destruct (Nat.eqb_spec 0 D) as [<-|_]; [lia|].
  set (succs := children (player mp D) state true) in *.
  set (eval := child_score (player mp D) 0 true) in *.
  change (_minimax (player mp D) state 0 true = select_loop better_max NegInf eval succs) in Heq.
  assert (forall s m, (s, m) ∈ succs -> bounded_score (eval s)) as Hb.
  { intros s m Hin. unfold eval, child_score, _minimax.
    eapply (children_bounded mp D _ state true); [done | by right | exact Hin]. }
  assert (succs <> []) as Hne by (by apply (successors_nonempty mp D state true)).
  destruct (node_choice_bounded true eval succs Hne Hb) as [_ [mv Hmv]].
  unfold node_choice in Hmv. rewrite max_loop_select in Hmv.
  destruct (select_loop_inv better_max NegInf score_ltb_irrefl score_le_lt_trans score_lt_le
              eval succs) as [Hub Hsome].
  rewrite Hmv in Hsome. destruct Hsome as (i & s & Hlk & Hfst & _).
  assert ((s, mv) ∈ succs) as Hin by (by eapply list_elem_of_lookup_2).
  exists s. unfold make_move, deepcopy. rewrite Heq, Hmv.
  split; [exact Hin|]. split; [by eapply Hb|]. split; [exact Hfst|].
  intros s' m' Hin'. specialize (Hub s' m' Hin'). by rewrite Hfst in Hub.
Qed.

Lemma make_move_maximizes_witness :
  exists s,
    (s, make_move (player X 3) three_in_row_board 0) ∈ children (player X 3) three_in_row_board true
    /\ bounded_score (child_score (player X 3) 0 true s)
    /\ fst (_minimax (player X 3) three_in_row_board 0 true) = child_score (player X 3) 0 true s
    /\ forall s' m', (s', m') ∈ children (player X 3) three_in_row_board true ->
         score_ltb (child_score (player X 3) 0 true s)
                   (child_score (player X 3) 0 true s') = false.
Proof.
  apply (make_move_maximizes X 3 three_in_row_board 0).
  - split; [reflexivity | repeat constructor].
  - lia.
  - reflexivity.
  - vm_compute. repeat split; discriminate.
Defined.

(** ** Reading a move *)

(** Induction on the number of lines: a round of [get_human_move] reads one
    line or two. *)
Lemma list_length_induction {A : Type} (P : list A -> Prop) :
  (forall l, (forall l', (length l' < length l)%nat -> P l') -> P l) -> forall l, P l.
Proof.
  intros H l. remember (length l) as n eqn:Hn. revert l Hn.
  induction n as [n IH] using lt_wf_ind. intros l ->. apply H.
  intros l' Hl. by eapply IH.
Qed.

Lemma between_spec a c b : between a c b = true <-> ord a <= ord c <= ord b.
Proof. unfold between. rewrite andb_true_iff, !Z.leb_le. done. Qed.

Lemma upper_char_idem c : upper_char (upper_char c) = upper_char c.
Proof. destruct c as [[] [] [] [] [] [] [] []]; reflexivity. Qed.

Lemma upper_lower_char c : upper_char (lower_char c) = upper_char c.
Proof. destruct c as [[] [] [] [] [] [] [] []]; reflexivity. Qed.

Lemma upper_idem s : upper (upper s) = upper s.
Proof. induction s as [|c s IH]; [reflexivity|]. cbn [upper]. by rewrite upper_char_idem, IH. Qed.

Lemma upper_lower s : upper (lower s) = upper s.
Proof.
  induction s as [|c s IH]; [reflexivity|]. cbn [upper lower]. by rewrite upper_lower_char, IH.
Qed.

(** The lines that pass the format test. *)
Lemma invalid_location_false s :
  invalid_location s = false
  <-> exists c0 c1, s = String.String c0 (String.String c1 String.EmptyString)
                    /\ between "A" c0 "E" = true /\ between "0" c1 "4" = true.
Proof.
  unfold invalid_location. rewrite !orb_false_iff, !negb_false_iff, Z.eqb_eq. split.
  - intros [[Hlen H0] H1].
    destruct s as [|c0 [|c1 [|c2 s]]]; cbn [String.length] in Hlen; try lia.
    exists c0, c1. done.
  - intros (c0 & c1 & -> & H0 & H1). done.
Qed.

Lemma valid_in_bounds s :
  invalid_location s = false -> in_bounds (row_of s, col_of s) = true.
Proof.
  intros (c0 & c1 & -> & H0%between_spec & H1%between_spec)%invalid_location_false.
  apply in_bounds_spec. unfold row_of, col_of, char_at.
  cbn [String.get default from_option id fst snd].
  change (ord "A") with 65 in *. change (ord "E") with 69 in *.
  change (ord "0") with 48 in *. change (ord "4") with 52 in *. lia.
Qed.

(** One round of the loop, in each phase. *)
Lemma get_human_move_drop b line rest :
  get_human_move b true (line :: rest)
  = if acceptable b line then Some ([location_of line], rest)
    else get_human_move b true rest.
Proof.
  cbn [get_human_move]. unfold acceptable, location_of, is_empty. cbn [fst snd].
  destruct (invalid_location (upper line)); [reflexivity|]. cbn [negb andb].
  by destruct (cell_eqb _ Empty).
Qed.

Lemma get_human_move_move b line rest :
  get_human_move b false (line :: rest)
  = if invalid_location (upper line) then get_human_move b false rest
    else match rest with
         | [] => None
         | line' :: rest' =>
             if invalid_location (upper line') then get_human_move b false rest'
             else Some ([location_of line'; location_of line], rest')
         end.
Proof. reflexivity. Qed.

Lemma acceptable_spec b line :
  acceptable b line = true
  <-> invalid_location (upper line) = false /\ is_empty b (location_of line) = true.
Proof. unfold acceptable. by rewrite andb_true_iff, negb_true_iff. Qed.

(** What [get_human_move] returns. *)
Lemma human_move_result b ph inputs mv rest :
  get_human_move b ph inputs = Some (mv, rest) ->
  Forall (fun q => in_bounds q = true) mv
  /\ length mv = (if ph then 1%nat else 2%nat)
  /\ (ph = true -> Forall (fun q => is_empty b q = true) mv)
  /\ (exists k, (0 < k)%nat /\ rest = drop k inputs)
  /\ (length rest < length inputs)%nat.
Proof.
  revert mv rest. induction inputs as [inputs IH] using list_length_induction.
  intros mv rest. destruct inputs as [|line inputs]; [discriminate|].
  assert (forall tl k,
            (length tl < length (line :: inputs))%nat -> tl = drop k (line :: inputs) ->
            get_human_move b ph tl = Some (mv, rest) ->
            Forall (fun q => in_bounds q = true) mv
            /\ length mv = (if ph then 1%nat else 2%nat)
            /\ (ph = true -> Forall (fun q => is_empty b q = true) mv)
            /\ (exists k, (0 < k)%nat /\ rest = drop k (line :: inputs))
            /\ (length rest < length (line :: inputs))%nat) as Hrec.
  { intros tl k Hlen Htl Hget.
    destruct (IH tl Hlen mv rest Hget) as (Hb & Hl & He & (k' & Hk' & ->) & Hlt).
    repeat split; [done..| |lia]. exists (k + k')%nat. rewrite Htl, drop_drop.
    split; [lia | reflexivity]. }
  destruct ph.
  - rewrite get_human_move_drop. destruct (acceptable b line) eqn:Hacc.
    + intros [= <- <-]. apply acceptable_spec in Hacc as [Hv He].
      repeat split.
      * constructor; [by apply valid_in_bounds | constructor].
      * intros _. constructor; [exact He | constructor].
      * exists 1%nat. split; [lia | reflexivity].
      * cbn [length]. lia.
    + apply (Hrec inputs 1%nat); [cbn [length]; lia | reflexivity].
  - rewrite get_human_move_move. destruct (invalid_location (upper line)) eqn:Hv.
    { apply (Hrec inputs 1%nat); [cbn [length]; lia | reflexivity]. }
    destruct inputs as [|line' inputs]; [discriminate|].
    destruct (invalid_location (upper line')) eqn:Hv'.
    { apply (Hrec inputs 2%nat); [cbn [length]; lia | reflexivity]. }
    intros [= <- <-]. repeat split.
    + constructor; [by apply valid_in_bounds|].
      constructor; [by apply valid_in_bounds | constructor].
    + discriminate.
    + exists 2%nat. split; [lia | reflexivity].
    + cbn [length]. lia.
Qed.

(** X18: a move that [get_human_move] returns names cells of the board
    only: one coordinate in the drop phase, which is an empty cell of the
    player's board, and two coordinates otherwise (destination first, as
    [opponent_move] reads them).  The lines left are what follows the lines
    read, and at least one line has been read. *)
Theorem get_human_move_names_cells (b : board) (is_drop_phase : bool) (inputs : list str)
    (mv : move) (rest : list str) :
  get_human_move b is_drop_phase inputs = Some (mv, rest) ->
  Forall (fun q => in_bounds q = true) mv
  /\ length mv = (if is_drop_phase then 1%nat else 2%nat)
  /\ (is_drop_phase = true -> Forall (fun q => is_empty b q = true) mv)
  /\ (exists k, (0 < k)%nat /\ rest = drop k inputs)
  /\ (length rest < length inputs)%nat.
Proof. apply human_move_result. Qed.

Lemma get_human_move_names_cells_witness :
  Forall (fun q => in_bounds q = true) [(4, 2); (3, 1)]
  /\ length [(4, 2); (3, 1)] = (if false then 1%nat else 2%nat)
  /\ (false = true -> Forall (fun q => is_empty move_phase_board q = true) [(4, 2); (3, 1)])
  /\ (exists k, (0 < k)%nat
                /\ ["a0"%string] = drop k ["b3"; "x"; "hello"; "b3"; "C4"; "a0"]%string)
  /\ (length ["a0"%string] < length ["b3"; "x"; "hello"; "b3"; "C4"; "a0"]%string)%nat.
Proof.
  apply (get_human_move_names_cells move_phase_board false
           ["b3"; "x"; "hello"; "b3"; "C4"; "a0"]%string [(4, 2); (3, 1)] ["a0"%string]).
  reflexivity.
Defined.

(** The first acceptable line decides a round of the drop phase. *)
Lemma get_human_move_find b inputs :
  get_human_move b true inputs
  = match list_find (fun line => acceptable b line = true) inputs with
    | Some (i, line) => Some ([location_of line], drop (S i) inputs)
    | None => None
    end.
Proof.
  induction inputs as [|line inputs IH]; [reflexivity|].
  rewrite get_human_move_drop. cbn [list_find].
  destruct (decide (acceptable b line = true)) as [E|E].
  - rewrite E. reflexivity.
  - apply not_true_is_false in E. rewrite E, IH.
    destruct (list_find (fun line0 => acceptable b line0 = true) inputs) as [[i line']|];
      reflexivity.
Qed.

Lemma drop_is_accepted mp D b q :
  in_bounds q = true -> is_empty b q = true ->
  opponent_move (player mp D) [q] b
  = (inl tt, set_cell b (fst q) (snd q) (Piece (other mp))).
Proof.
  intros Hb He. rewrite opponent_move_result.
  assert (forall c, condition_holds (player mp D) b [q] c = true) as Hc
    by (by apply conditions_drop).
  apply first_failure_none in Hc. rewrite Hc, place_piece_drop, opp_player. reflexivity.
Qed.

(** X19: in the drop phase [get_human_move] returns the cell named by the
    first line that names an empty cell of the board (in either case of the
    letter), skips every line before it, and does not return when there is
    no such line; the move it returns is always accepted by
    [opponent_move] on that board, which puts the opponent's piece on the
    cell. *)
Theorem get_human_move_first_acceptable (mp : piece) (D : nat) (b : board)
    (inputs : list str) :
  wf_board b ->
  match list_find (fun line => acceptable b line = true) inputs with
  | Some (i, line) =>
      get_human_move b true inputs = Some ([location_of line], drop (S i) inputs)
      /\ opponent_move (player mp D) [location_of line] b
         = (inl tt,
            set_cell b (fst (location_of line)) (snd (location_of line)) (Piece (other mp)))
  | None => get_human_move b true inputs = None
  end.
Proof.
  intros _. rewrite get_human_move_find.
  destruct (list_find (fun line => acceptable b line = true) inputs) as [[i line]|] eqn:E;
    [|reflexivity].
  split; [reflexivity|].
  apply list_find_Some in E as (_ & [Hv He]%acceptable_spec & _).
  apply drop_is_accepted; [by apply valid_in_bounds | exact He].
Qed.

Lemma get_human_move_first_acceptable_witness :
  match list_find (fun line => acceptable three_in_row_board line = true)
          ["a0"; "F1"; "d0"; "e4"]%string with
  | Some (i, line) =>
      get_human_move three_in_row_board true ["a0"; "F1"; "d0"; "e4"]%string
      = Some ([location_of line], drop (S i) ["a0"; "F1"; "d0"; "e4"]%string)
      /\ opponent_move (player X 3) [location_of line] three_in_row_board
         = (inl tt,
            set_cell three_in_row_board (fst (location_of line)) (snd (location_of line))
              (Piece (other X)))
  | None => get_human_move three_in_row_board true ["a0"; "F1"; "d0"; "e4"]%string = None
  end.
Proof.
  apply (get_human_move_first_acceptable X 3 three_in_row_board
           ["a0"; "F1"; "d0"; "e4"]%string).
  split; [reflexivity | repeat constructor].
Defined.

(** The same round on lines that differ in case only. *)
Lemma get_human_move_same_letters b ph inputs inputs' :
  Forall2 same_letters inputs inputs' ->
  option_Forall2 (fun r r' => fst r = fst r' /\ Forall2 same_letters (snd r) (snd r'))
    (get_human_move b ph inputs) (get_human_move b ph inputs').
Proof.
  revert inputs'. induction inputs as [inputs IH] using list_length_induction.
  intros inputs' H. destruct H as [|line line' inputs inputs' Hl H]; [constructor|].
  unfold same_letters in Hl. destruct ph.
  - rewrite !get_human_move_drop. unfold acceptable, location_of. rewrite <- Hl.
    destruct (negb (invalid_location (upper line))
              && is_empty b (row_of (upper line), col_of (upper line))).
    + constructor. done.
    + apply IH; [cbn [length]; lia | exact H].
  - rewrite !get_human_move_move. unfold location_of. rewrite <- Hl.
    destruct (invalid_location (upper line)).
    { apply IH; [cbn [length]; lia | exact H]. }
    destruct H as [|line2 line2' inputs inputs' Hl2 H]; [constructor|].
    unfold same_letters in Hl2. rewrite <- Hl2.
    destruct (invalid_location (upper line2)).
    { apply IH; [cbn [length]; lia | exact H]. }
    constructor. done.
Qed.

Lemma same_letters_fmap (f : str -> str) inputs :
  (forall s, upper (f s) = upper s) -> Forall2 same_letters inputs (f <$> inputs).
Proof.
  intros Hf. induction inputs as [|line inputs IH]; [constructor|].
  rewrite fmap_cons. constructor; [|exact IH]. unfold same_letters. by rewrite Hf.
Qed.

(** X20: the case of the letters does not matter.  On two inputs whose
    lines differ in case only, [get_human_move] returns the same move and
    leaves lines that again differ in case only, or does not return on
    both; this holds in particular for the input typed in lower case and
    the input typed in upper case. *)
Theorem get_human_move_ignores_case (b : board) (is_drop_phase : bool)
    (inputs inputs' : list str) :
  Forall2 same_letters inputs inputs' ->
  option_Forall2 (fun r r' => fst r = fst r' /\ Forall2 same_letters (snd r) (snd r'))
    (get_human_move b is_drop_phase inputs) (get_human_move b is_drop_phase inputs')
  /\ Forall2 same_letters (lower <$> inputs) (upper <$> inputs)
  /\ fst <$> get_human_move b is_drop_phase (lower <$> inputs)
     = fst <$> get_human_move b is_drop_phase (upper <$> inputs).
Proof.
  intros H. split; [by apply get_human_move_same_letters|].
  assert (Forall2 same_letters (lower <$> inputs) (upper <$> inputs)) as Hlu.
  { clear. induction inputs as [|line inputs IH]; [constructor|].
    rewrite !fmap_cons. constructor; [|exact IH].
    unfold same_letters. by rewrite upper_lower, upper_idem. }
  split; [exact Hlu|].
  pose proof (get_human_move_same_letters b is_drop_phase _ _ Hlu) as Hres.
  destruct Hres as [r r' [Hfst _]|]; [|reflexivity]. cbn. by rewrite Hfst.
Qed.

Lemma get_human_move_ignores_case_witness :
  option_Forall2 (fun r r' => fst r = fst r' /\ Forall2 same_letters (snd r) (snd r'))
    (get_human_move move_phase_board false ["b3"; "c4"; "Stop"]%string)
    (get_human_move move_phase_board false ["B3"; "C4"; "stop"]%string)
  /\ Forall2 same_letters (lower <$> ["b3"; "c4"; "Stop"]%string)
       (upper <$> ["b3"; "c4"; "Stop"]%string)
  /\ fst <$> get_human_move move_phase_board false (lower <$> ["b3"; "c4"; "Stop"]%string)
     = fst <$> get_human_move move_phase_board false (upper <$> ["b3"; "c4"; "Stop"]%string).
Proof.
  apply (get_human_move_ignores_case move_phase_board false
           ["b3"; "c4"; "Stop"]%string ["B3"; "C4"; "stop"]%string).
  repeat constructor.
Defined.

(** The text for a cell of the board, read back. *)
Lemma location_str_valid :
  Forall (fun q => invalid_location (location_str q) = false
                   /\ upper (location_str q) = location_str q
                   /\ location_of (location_str q) = q) all_coords.
Proof. repeat constructor. Qed.

Lemma location_str_read q :
  in_bounds q = true ->
  invalid_location (location_str q) = false
  /\ upper (location_str q) = location_str q
  /\ location_of (location_str q) = q.
Proof.
  intros Hq%in_bounds_all_coords.
  pose proof location_str_valid as H. rewrite Forall_forall in H. by apply H.
Qed.

Lemma chr_ord c : c = chr (ord c).
Proof. unfold chr, ord. by rewrite N2Z.id, Ascii.ascii_N_embedding. Qed.

Lemma location_of_valid line :
  invalid_location (upper line) = false -> location_str (location_of line) = upper line.
Proof.
  intros (c0 & c1 & Heq & H0%between_spec & H1%between_spec)%invalid_location_false.
  unfold location_of. rewrite Heq. clear Heq.
  change (ord "A") with 65 in *. change (ord "E") with 69 in *.
  change (ord "0") with 48 in *. change (ord "4") with 52 in *.
  rewrite (chr_ord c0), (chr_ord c1).
  assert (ord c0 = 65 \/ ord c0 = 66 \/ ord c0 = 67 \/ ord c0 = 68 \/ ord c0 = 69) as Hc0 by lia.
  assert (ord c1 = 48 \/ ord c1 = 49 \/ ord c1 = 50 \/ ord c1 = 51 \/ ord c1 = 52) as Hc1 by lia.
  destruct Hc0 as [->|[->|[->|[->| ->]]]]; destruct Hc1 as [->|[->|[->|[->| ->]]]];
    reflexivity.
Qed.

(** X21: the text with which the program names a cell is the text it reads
    for that cell.  For every cell of the board, [location_str] gives a
    line that passes the format test and is read back as the same cell: in
    the drop phase [get_human_move] returns that cell from this line when
    it is empty, and in the move phase it returns the relocation from two
    such lines (source first, then destination).  In the other direction,
    every line that passes the format test is, in upper case, the text of
    the cell it is read as. *)
Theorem location_text_round_trip (b : board) (q q' : coord) (line : str) (rest : list str) :
  in_bounds q = true ->
  in_bounds q' = true ->
  location_of (location_str q) = q
  /\ (is_empty b q = true ->
      get_human_move b true (location_str q :: rest) = Some ([q], rest))
  /\ get_human_move b false (location_str q' :: location_str q :: rest)
     = Some ([q; q'], rest)
  /\ (invalid_location (upper line) = false ->
      location_str (location_of line) = upper line).
Proof.
  intros Hq Hq'.
  destruct (location_str_read q Hq) as (Hv & Hu & Hl).
  destruct (location_str_read q' Hq') as (Hv' & Hu' & Hl').
  split; [exact Hl|]. split; [|split].
  - intros He. rewrite get_human_move_drop.
    assert (acceptable b (location_str q) = true) as ->; [|by rewrite Hl].
    apply acceptable_spec. by rewrite Hu, Hl.
  - rewrite get_human_move_move, Hu', Hv', Hu, Hv, Hl, Hl'. reflexivity.
  - apply location_of_valid.
Qed.

Lemma location_text_round_trip_witness :
  location_of (location_str (3, 1)) = (3, 1)
  /\ (is_empty move_phase_board (3, 1) = true ->
      get_human_move move_phase_board true (location_str (3, 1) :: ["x"%string])
      = Some ([(3, 1)], ["x"%string]))
  /\ get_human_move move_phase_board false
       (location_str (3, 0) :: location_str (3, 1) :: ["x"%string])
     = Some ([(3, 1); (3, 0)], ["x"%string])
  /\ (invalid_location (upper "b3") = false ->
      location_str (location_of "b3") = upper "b3").
Proof.
  apply (location_text_round_trip move_phase_board (3, 1) (3, 0) "b3"%string ["x"%string]).
  - reflexivity.
  - reflexivity.
Defined.

(** ** The main loop *)

(** *** The turn of the human player *)

(** With more rounds than lines the bound on the rounds is never reached. *)
Lemma human_turn_rounds ai ph r1 r2 inputs b :
  (length inputs < r1)%nat -> (length inputs < r2)%nat ->
  human_turn ai ph r1 inputs b = human_turn ai ph r2 inputs b.
Proof.
  revert r2 inputs b. induction r1 as [|r1 IH]; intros r2 inputs b H1 H2; [lia|].
  destruct r2 as [|r2]; [lia|]. cbn [human_turn].
  destruct (get_human_move b ph inputs) as [[mv rest]|] eqn:E; [|reflexivity].
  destruct (human_move_result _ _ _ _ _ E) as (_ & _ & _ & _ & Hlt).
  destruct (opponent_move ai mv b) as [[u|e] b']; [reflexivity|].
  apply IH; lia.
Qed.

Lemma human_turn_result mp D ph r inputs b :
  wf_board b -> ph = (total_pieces b <? 8) ->
  match human_turn (player mp D) ph r inputs b with
  | Turn_done b' rest =>
      (exists mv, (b', mv) ∈ _generate_successors (player mp D) b (other mp)
                  /\ opponent_move (player mp D) mv b = (inl tt, b'))
      /\ (length rest < length inputs)%nat
  | Never_returns => True
  | _ => False
  end.
Proof.
  intros Hwf Hph. revert inputs. induction r as [|r IH]; intros inputs; [done|].
  cbn [human_turn]. destruct (get_human_move b ph inputs) as [[mv rest]|] eqn:E; [|done].
  destruct (human_move_result _ _ _ _ _ E) as (_ & Hlen & _ & _ & Hlt).
  destruct (opponent_move (player mp D) mv b) as [[[]|e] b'] eqn:Ho.
  - split; [|lia]. exists mv. split; [|exact Ho].
    apply accepted_in_successors; [done | done |].
    rewrite Hlen, Hph. destruct (Z.ltb_spec (total_pieces b) 8); split; (done || lia).
  - apply opponent_move_rejected in Ho as ->. specialize (IH rest).
    destruct (human_turn (player mp D) ph r rest b); try done.
    destruct IH as [Hmv Hlt']. split; [exact Hmv | lia].
Qed.

(** In the drop phase the move that [get_human_move] returns is played. *)
Lemma human_turn_drop mp D r inputs b :
  human_turn (player mp D) true (S r) inputs b = Never_returns ->
  list_find (fun line => acceptable b line = true) inputs = None.
Proof.
  cbn [human_turn]. rewrite get_human_move_find.
  destruct (list_find (fun line => acceptable b line = true) inputs) as [[i line]|] eqn:E;
    [|done].
  apply list_find_Some in E as (_ & [Hv He]%acceptable_spec & _).
  rewrite (drop_is_accepted mp D b (location_of line)) by (by apply valid_in_bounds || done).
  discriminate.
Qed.

(** X22: the turn of the human player in [main], on a board of the game and
    with the phase that the board is in: when a move is made, it is one of
    the moves that [_generate_successors] lists for the opponent's piece,
    it is the move that [opponent_move] has accepted, the new board is the
    board of that successor, and at least one line has been read; no other
    change of the board is possible, whatever is typed.  Otherwise the
    input has run out, which in the drop phase happens only when no line
    names an empty cell.  With more rounds than lines the result does not
    depend on the bound on the rounds. *)
Theorem human_turn_plays_legal_move (mp : piece) (D : nat) (b : board)
    (is_drop_phase : bool) (rounds rounds' : nat) (inputs : list str) :
  wf_board b ->
  is_drop_phase = (total_pieces b <? 8) ->
  (length inputs < rounds)%nat ->
  (length inputs < rounds')%nat ->
  human_turn (player mp D) is_drop_phase rounds inputs b
  = human_turn (player mp D) is_drop_phase rounds' inputs b
  /\ match human_turn (player mp D) is_drop_phase rounds inputs b with
     | Turn_done b' rest =>
         (exists mv, (b', mv) ∈ _generate_successors (player mp D) b (other mp)
                     /\ opponent_move (player mp D) mv b = (inl tt, b'))
         /\ (length rest < length inputs)%nat
     | Never_returns =>
         is_drop_phase = true ->
         list_find (fun line => acceptable b line = true) inputs = None
     | _ => False
     end.
Proof.
  intros Hwf Hph H1 H2. split; [by apply human_turn_rounds|].
  pose proof (human_turn_result mp D is_drop_phase rounds inputs b Hwf Hph) as H.
  destruct (human_turn (player mp D) is_drop_phase rounds inputs b) eqn:E; try done.
  intros ->. destruct rounds as [|r]; [lia|]. by eapply human_turn_drop.
Qed.

Lemma human_turn_plays_legal_move_witness :
  human_turn (player X 3) false 5 ["b1"; "b1"; "b1"; "c1"]%string move_phase_board
  = human_turn (player X 3) false 7 ["b1"; "b1"; "b1"; "c1"]%string move_phase_board
  /\ match human_turn (player X 3) false 5 ["b1"; "b1"; "b1"; "c1"]%string
             move_phase_board with
     | Turn_done b' rest =>
         (exists mv, (b', mv) ∈ _generate_successors (player X 3) move_phase_board (other X)
                     /\ opponent_move (player X 3) mv move_phase_board = (inl tt, b'))
         /\ (length rest < length ["b1"; "b1"; "b1"; "c1"]%string)%nat
     | Never_returns =>
         false = true ->
         list_find (fun line => acceptable move_phase_board line = true)
           ["b1"; "b1"; "b1"; "c1"]%string = None
     | _ => False
     end.
Proof.
  apply (human_turn_plays_legal_move X 3 move_phase_board false 5 7
           ["b1"; "b1"; "b1"; "c1"]%string).
  - split; [reflexivity | repeat constructor].
  - reflexivity.
  - cbn [length]. lia.
  - cbn [length]. lia.
Defined.

(** *** The turn of the agent *)

Lemma ai_turn_result mp D ph rnd inputs b :
  wf_board b -> ph = (total_pieces b <? 8) -> turn_consistent (player mp D) b true ->
  exists s, ai_turn (player mp D) ph rnd inputs b = Turn_done s inputs
            /\ (s, make_move (player mp D) b rnd) ∈ _generate_successors (player mp D) b mp.
Proof.
  intros Hwf -> Htc. unfold ai_turn.
  destruct (make_move_cases (player mp D) b rnd) as [[Hnil _]|[s Hin]].
  { destruct (successors_nonempty mp D b true Hwf Htc Hnil). }
  rewrite my_piece_player in Hin |- *.
  destruct (successor_counts _ _ _ _ _ _ Hwf Hin) as (_ & _ & _ & Hlen & _).
  rewrite (place_piece_generated _ _ _ _ _ Hin). cbn [snd].
  exists s. split; [|exact Hin].
  unfold len. rewrite Hlen. destruct (total_pieces b <? 8); reflexivity.
Qed.

(** *** One pass of the loop *)

Lemma main_iteration_unfold ai rnd inputs g :
  main_iteration ai rnd inputs g
  = let res :=
      if agent_to_move ai g
      then ai_turn ai (piece_count g <? 8) rnd inputs (the_board g)
      else human_turn ai (piece_count g <? 8) (S (length inputs)) inputs (the_board g) in
    match res with
    | Turn_done b' rest =>
        inl ({| the_board := b';
                piece_count :=
                  if piece_count g <? 8 then piece_count g + 1 else piece_count g;
                turn := 1 - turn g |}, rest)
    | _ => inr res
    end.
Proof. reflexivity. Qed.

Lemma agent_to_move_next ai g g' :
  turn g = 0 \/ turn g = 1 -> turn g' = 1 - turn g ->
  agent_to_move ai g' = negb (agent_to_move ai g).
Proof.
  unfold agent_to_move, current_piece. intros [H|H] ->; rewrite H; by destruct (my_piece ai).
Qed.

Lemma mover_current mp D g :
  turn g = 0 \/ turn g = 1 ->
  mover (player mp D) (agent_to_move (player mp D) g) = current_piece g.
Proof.
  unfold mover, agent_to_move, current_piece. intros [H|H]; rewrite H; by destruct mp.
Qed.

Lemma total_pieces_successor mp D state p s m :
  wf_board state -> (s, m) ∈ _generate_successors (player mp D) state p ->
  total_pieces s = total_pieces state + ind (total_pieces state <? 8).
Proof.
  intros Hwf Hin.
  destruct (successor_counts _ _ _ _ _ _ Hwf Hin) as (_ & Ho & Hp & _ & _).
  pose proof (count_pieces_total s p) as H1.
  pose proof (count_pieces_total state p) as H2. lia.
Qed.

Lemma game_inv_next mp D g s mv :
  game_inv (player mp D) g ->
  (s, mv) ∈ _generate_successors (player mp D) (the_board g) (current_piece g) ->
  game_inv (player mp D)
    {| the_board := s;
       piece_count := if piece_count g <? 8 then piece_count g + 1 else piece_count g;
       turn := 1 - turn g |}.
Proof.
  intros (Hwf & Hturn & Hpc & Htc) Hin.
  split; [by eapply successors_wf|]. cbn [the_board piece_count turn].
  split; [lia|]. split.
  - rewrite (total_pieces_successor _ _ _ _ _ _ Hwf Hin), Hpc.
    destruct (total_pieces (the_board g) <? 8); cbn [ind]; lia.
  - erewrite agent_to_move_next; [|exact Hturn | reflexivity].
    rewrite <- (mover_current mp D g Hturn) in Hin.
    by eapply turn_consistent_successor.
Qed.

Lemma main_iteration_step mp D rnd inputs g :
  game_inv (player mp D) g ->
  match main_iteration (player mp D) rnd inputs g with
  | inl (g', rest) =>
      game_inv (player mp D) g'
      /\ turn g' = 1 - turn g
      /\ piece_count g' = piece_count g + ind (piece_count g <? 8)
      /\ (exists mv, (the_board g', mv)
                       ∈ _generate_successors (player mp D) (the_board g) (current_piece g))
      /\ (length rest <= length inputs)%nat
  | inr Never_returns => agent_to_move (player mp D) g = false
  | inr _ => False
  end.
Proof.
  intros Hinv. pose proof Hinv as (Hwf & Hturn & Hpc & Htc).
  pose proof (mover_current mp D g Hturn) as Hmover.
  rewrite main_iteration_unfold. cbv zeta.
  destruct (agent_to_move (player mp D) g) eqn:Hag.
  - destruct (ai_turn_result mp D (piece_count g <? 8) rnd inputs (the_board g))
      as (s & Hai & Hin); [exact Hwf | by rewrite Hpc | exact Htc |].
    rewrite Hai.
    unfold mover in Hmover. rewrite my_piece_player in Hmover.
    assert ((s, make_move (player mp D) (the_board g) rnd)
              ∈ _generate_successors (player mp D) (the_board g) (current_piece g)) as Hin'
      by (rewrite <- Hmover; exact Hin).
    split; [exact (game_inv_next mp D g s _ Hinv Hin')|]. cbn [the_board piece_count turn].
    split; [reflexivity|]. split; [destruct (piece_count g <? 8); cbn [ind]; lia|].
    split; [by eexists | lia].
  - pose proof (human_turn_result mp D (piece_count g <? 8) (S (length inputs)) inputs
                  (the_board g) Hwf ltac:(by rewrite Hpc)) as Hh.
    unfold mover in Hmover. rewrite opp_player in Hmover. rewrite Hmover in Hh.
    destruct (human_turn (player mp D) (piece_count g <? 8) (S (length inputs)) inputs
                (the_board g)) as [b' rest| | |]; try done.
    destruct Hh as [(mv & Hin & _) Hlt].
    split; [exact (game_inv_next mp D g b' mv Hinv Hin)|]. cbn [the_board piece_count turn].
    split; [reflexivity|]. split; [destruct (piece_count g <? 8); cbn [ind]; lia|].
    split; [by eexists | lia].
Qed.

(** X23: one pass of the loop of [main], from variables as the loop keeps
    them (the board five by five, [turn] 0 or 1, [piece_count] the number
    of pieces on the board, piece counts of alternating play).  The pass
    never ends with the message that the agent cannot move and never
    raises the [IndexError] of the message about the agent's move.  When
    it completes, the new board is one of the successors that
    [_generate_successors] lists for the piece [pieces[turn]], [turn] has
    changed sides, [piece_count] has grown by one in the drop phase, and
    the variables are again as the loop keeps them.  It stays in
    [get_human_move] only on a turn of the human player. *)
Theorem main_iteration_plays_legal_move (mp : piece) (D : nat) (rnd : nat)
    (inputs : list str) (g : game) :
  game_inv (player mp D) g ->
  match main_iteration (player mp D) rnd inputs g with
  | inl (g', rest) =>
      game_inv (player mp D) g'
      /\ turn g' = 1 - turn g
      /\ piece_count g' = piece_count g + ind (piece_count g <? 8)
      /\ (exists mv, (the_board g', mv)
                       ∈ _generate_successors (player mp D) (the_board g) (current_piece g))
      /\ (length rest <= length inputs)%nat
  | inr Never_returns => agent_to_move (player mp D) g = false
  | inr _ => False
  end.
Proof. apply main_iteration_step. Qed.

Lemma game_inv_initial mp D : game_inv (player mp D) (initial_game TeekoPlayer_board).
Proof.
  split; [split; [reflexivity | repeat constructor]|].
  split; [by left|]. split; [reflexivity|].
  destruct mp; vm_compute; repeat split; discriminate.
Qed.

Lemma main_iteration_plays_legal_move_witness :
  match main_iteration (player O 3) 0 ["c2"%string] (initial_game TeekoPlayer_board) with
  | inl (g', rest) =>
      game_inv (player O 3) g'
      /\ turn g' = 1 - turn (initial_game TeekoPlayer_board)
      /\ piece_count g'
         = piece_count (initial_game TeekoPlayer_board)
           + ind (piece_count (initial_game TeekoPlayer_board) <? 8)
      /\ (exists mv, (the_board g', mv)
                       ∈ _generate_successors (player O 3)
                           (the_board (initial_game TeekoPlayer_board))
                           (current_piece (initial_game TeekoPlayer_board)))
      /\ (length rest <= length ["c2"%string])%nat
  | inr Never_returns => agent_to_move (player O 3) (initial_game TeekoPlayer_board) = false
  | inr _ => False
  end.
Proof.
  apply (main_iteration_plays_legal_move O 3 0 ["c2"%string] (initial_game TeekoPlayer_board)).
  split; [split; [reflexivity | repeat constructor]|].
  split; [by left|]. split; [reflexivity|].
  vm_compute. repeat split; discriminate.
Defined.

(** *** The loop *)

Lemma game_loop_inv mp D rnd n :
  forall k inputs g,
    game_inv (player mp D) g ->
    match game_loop n (player mp D) rnd k inputs g with
    | Finished g' msg =>
        game_inv (player mp D) g'
        /\ game_value (player mp D) (the_board g') <> 0
        /\ msg = final_message (player mp D) (the_board g')
    | IndexError_raised => False
    | Waiting_for_input => True
    | Running g' _ =>
        game_inv (player mp D) g' /\ game_value (player mp D) (the_board g') = 0
    end.
Proof.
  induction n as [|n IH]; intros k inputs g Hinv; cbn [game_loop].
  - destruct (Z.eqb_spec (game_value (player mp D) (the_board g)) 0) as [E|E]; cbn [negb]; done.
  - destruct (Z.eqb_spec (game_value (player mp D) (the_board g)) 0) as [E|E]; cbn [negb];
      [|done].
    pose proof (main_iteration_step mp D (rnd k) inputs g Hinv) as Hstep.
    destruct (main_iteration (player mp D) (rnd k) inputs g) as [[g' rest]|[]]; try done.
    destruct Hstep as [Hinv' _]. by apply IH.
Qed.

Lemma final_message_winner mp D b :
  wf_board b -> game_value (player mp D) b <> 0 ->
  final_message (player mp D) b <> Its_a_draw
  /\ (final_message (player mp D) b = AI_wins -> has_pattern b mp)
  /\ (final_message (player mp D) b = You_win -> has_pattern b (other mp)).
Proof.
  intros Hwf Hgv. destruct (game_value_sides mp D b Hwf) as [H1 Hm1].
  unfold final_message.
  destruct (game_value_cases (player mp D) b) as [H0|[H|H]]; [done| |]; rewrite H in *;
    cbn; repeat split; try done; auto.
Qed.

Lemma game_inv_facts mp D g :
  game_inv (player mp D) g ->
  wf_board (the_board g)
  /\ piece_count g = total_pieces (the_board g)
  /\ 0 <= piece_count g <= 8
  /\ count_cells (the_board g) (Piece X) <= 4
  /\ count_cells (the_board g) (Piece O) <= 4
  /\ (piece_count g <? 8) = drop_phase (player mp D) (the_board g).
Proof.
  intros (Hwf & Hturn & Hpc & Htc).
  split; [exact Hwf|]. split; [exact Hpc|].
  rewrite drop_phase_total, Hpc by done.
  unfold turn_consistent in Htc. rewrite my_piece_player, opp_player in Htc.
  pose proof (count_pieces_total (the_board g) mp) as Htot.
  assert (0 <= count_cells (the_board g) (Piece mp)) as Hn1 by (unfold count_cells; lia).
  assert (0 <= count_cells (the_board g) (Piece (other mp))) as Hn2
    by (unfold count_cells; lia).
  assert (count_cells (the_board g) (Piece mp) <= 4
          /\ count_cells (the_board g) (Piece (other mp)) <= 4) as [Ha Hb]
    by (destruct (agent_to_move (player mp D) g); lia).
  split; [lia|]. split; [by destruct mp|]. split; [by destruct mp | reflexivity].
Qed.

(** X24: in a run of [main] that starts on the empty board of the class,
    whatever the piece drawn for the agent, the draws of [random.choice]
    and the lines typed, the variables of the loop always fit the board:
    the board is five by five, [piece_count] is the number of pieces on it
    and at most 8, no side has more than four pieces, and the phase that
    [main] computes from [piece_count] is the phase that
    [_generate_successors] computes from the board. *)
Theorem main_counts_pieces (choice : piece) (rnd : nat -> nat) (inputs : list str) (n : nat)
    (o : outcome) (g : game) :
  main choice rnd inputs TeekoPlayer_board n = Some o ->
  state_of o = Some g ->
  wf_board (the_board g)
  /\ piece_count g = total_pieces (the_board g)
  /\ 0 <= piece_count g <= 8
  /\ count_cells (the_board g) (Piece X) <= 4
  /\ count_cells (the_board g) (Piece O) <= 4
  /\ (piece_count g <? 8) = drop_phase (__init__ choice) (the_board g).
Proof.
  unfold main. destruct (show_help_loop inputs) as [rest|]; [|discriminate].
  intros [= <-] Hst. apply game_inv_facts.
  pose proof (game_loop_inv choice 3 rnd n 0%nat rest (initial_game TeekoPlayer_board)
                (game_inv_initial choice 3)) as H.
  unfold __init__, initial_game in *.
  destruct (game_loop n (player choice 3) rnd 0 rest _) as [g' msg| | |g' rest'];
    try discriminate; injection Hst as <-; apply H.
Qed.

Lemma main_counts_pieces_witness :
  wf_board (set_cell TeekoPlayer_board 2 2 (Piece X))
  /\ 1 = total_pieces (set_cell TeekoPlayer_board 2 2 (Piece X))
  /\ 0 <= 1 <= 8
  /\ count_cells (set_cell TeekoPlayer_board 2 2 (Piece X)) (Piece X) <= 4
  /\ count_cells (set_cell TeekoPlayer_board 2 2 (Piece X)) (Piece O) <= 4
  /\ (1 <? 8) = drop_phase (__init__ O) (set_cell TeekoPlayer_board 2 2 (Piece X)).
Proof.
  apply (main_counts_pieces O (fun _ => 0%nat) ["maybe"; "No"; "c2"]%string 1
           (Running {| the_board := set_cell TeekoPlayer_board 2 2 (Piece X);
                       piece_count := 1; turn := 1 |} [])
           {| the_board := set_cell TeekoPlayer_board 2 2 (Piece X);
              piece_count := 1; turn := 1 |}).
  - reflexivity.
  - reflexivity.
Defined.

(** X25: a run of [main] that starts on the empty board of the class never
    raises the [IndexError] of the message about the agent's move and never
    takes the [break] of an agent without move: when the loop is left,
    [game_value] is not 0, the final message is never the draw, and the
    side it names as winner has a filled window on the final board. *)
Theorem main_ends_with_a_winner (choice : piece) (rnd : nat -> nat) (inputs : list str)
    (n : nat) (o : outcome) :
  main choice rnd inputs TeekoPlayer_board n = Some o ->
  o <> IndexError_raised
  /\ forall g msg, o = Finished g msg ->
       game_value (__init__ choice) (the_board g) <> 0
       /\ msg <> Its_a_draw
       /\ (msg = AI_wins -> has_pattern (the_board g) choice)
       /\ (msg = You_win -> has_pattern (the_board g) (other choice)).
Proof.
  unfold main. destruct (show_help_loop inputs) as [rest|]; [|discriminate].
  intros [= <-].
  pose proof (game_loop_inv choice 3 rnd n 0%nat rest (initial_game TeekoPlayer_board)
                (game_inv_initial choice 3)) as H.
  unfold __init__, initial_game in *.
  destruct (game_loop n (player choice 3) rnd 0 rest _) as [g' msg'| | |g' rest'];
    try done.
  split; [done|]. intros g msg [= <- <-]. destruct H as ((Hwf & _) & Hgv & ->).
  split; [exact Hgv|]. by apply final_message_winner.
Qed.

(** A game: the agent has X and moves first, the human player answers on
    A1, A2 and A3, and the fourth piece of the agent fills the first row. *)
Lemma main_ends_with_a_winner_witness :
  Finished {| the_board :=
                with_pieces O [(1, 0); (2, 0); (3, 0)]
                  (with_pieces X [(0, 0); (0, 1); (0, 2); (0, 3)] empty_board);
              piece_count := 7; turn := 1 |} AI_wins <> IndexError_raised
  /\ forall g msg,
       Finished {| the_board :=
                     with_pieces O [(1, 0); (2, 0); (3, 0)]
                       (with_pieces X [(0, 0); (0, 1); (0, 2); (0, 3)] empty_board);
                   piece_count := 7; turn := 1 |} AI_wins = Finished g msg ->
       game_value (__init__ X) (the_board g) <> 0
       /\ msg <> Its_a_draw
       /\ (msg = AI_wins -> has_pattern (the_board g) X)
       /\ (msg = You_win -> has_pattern (the_board g) (other X)).
Proof.
  apply (main_ends_with_a_winner X (fun _ => 0%nat) ["n"; "a1"; "a2"; "a3"; "a4"]%string 7).
  vm_compute. reflexivity.
Defined.

(** ** The board on the screen *)

Lemma wf_board_cells state :
  wf_board state ->
  exists r0 r1 r2 r3 r4, state = [r0; r1; r2; r3; r4]
    /\ Forall (fun row => exists a b c d e, row = [a; b; c; d; e]) state.
Proof.
  intros [Hlen Hrows]. destruct (length_5_inv state Hlen) as (r0 & r1 & r2 & r3 & r4 & ->).
  exists r0, r1, r2, r3, r4. split; [reflexivity|].
  eapply Forall_impl; [exact Hrows|]. intros row Hrow. by apply length_5_inv.
Qed.

(** X26: what [print_board] prints for a board of the game fits the names
    of the cells.  It prints twelve lines; the first holds the column
    letters, and the line of row [r] is the line number [2 + 2 r].  For
    every cell [(r, c)], the line of row [r] starts with the digit of [r],
    the character at position [4 + 4 c] of that line is the content of the
    cell, and the character at the same position of the first line is the
    column letter: together they are the text that [main] prints, and
    [get_human_move] reads, for that cell. *)
Theorem print_board_shows_cells (b : board) (q : coord) :
  wf_board b ->
  in_bounds q = true ->
  length (print_board b) = 12%nat
  /\ exists header line,
       print_board b !! 0%nat = Some header
       /\ print_board b !! (2 + 2 * Z.to_nat (fst q))%nat = Some line
       /\ String.String (char_at header (4 + 4 * Z.to_nat (snd q)))
            (String.String (char_at line 0) String.EmptyString)
          = location_str q
       /\ char_at line (4 + 4 * Z.to_nat (snd q)) = cell_char (cell_at b (fst q) (snd q)).
Proof.
  intros Hwf Hq%in_bounds_all_coords.
  destruct (wf_board_cells b Hwf) as (r0 & r1 & r2 & r3 & r4 & -> & Hrows).
  apply Forall_cons in Hrows as [(c00 & c01 & c02 & c03 & c04 & ->) Hrows].
  apply Forall_cons in Hrows as [(c10 & c11 & c12 & c13 & c14 & ->) Hrows].
  apply Forall_cons in Hrows as [(c20 & c21 & c22 & c23 & c24 & ->) Hrows].
  apply Forall_cons in Hrows as [(c30 & c31 & c32 & c33 & c34 & ->) Hrows].
  apply Forall_cons in Hrows as [(c40 & c41 & c42 & c43 & c44 & ->) _].
  split; [reflexivity|].
  unfold all_coords in Hq. cbn in Hq.
  repeat (apply elem_of_cons in Hq as [->|Hq];
          [eexists _, _; split; [reflexivity|]; split; [reflexivity|];
           split; reflexivity|]).
  by apply elem_of_nil in Hq.
Qed.

Lemma print_board_shows_cells_witness :
  length (print_board move_phase_board) = 12%nat
  /\ exists header line,
       print_board move_phase_board !! 0%nat = Some header
       /\ print_board move_phase_board !! 6%nat = Some line
       /\ String.String (char_at header 16)
            (String.String (char_at line 0) String.EmptyString)
          = location_str (2, 3)
       /\ char_at line 16 = cell_char (cell_at move_phase_board 2 3).
Proof.
  apply (print_board_shows_cells move_phase_board (2, 3)).
  - split; [reflexivity | repeat constructor].
  - reflexivity.
Defined.

(** ** The search over the store and the search on board values *)

(** X27: the program with its list objects computes what the functions on
    board values say.  From a store in which [state] refers to a board
    object with distinct rows that holds the board [b]:
    [_generate_successors] returns new board objects that hold, in the same
    order and with the same moves, the successors of [b]; [_minimax] returns
    the value and the move of the search on [b], at every depth and for both
    players; and [make_move] returns the move [make_move] returns on [b]. *)
Theorem store_search_agrees_with_values (self : TeekoPlayer) (h : Store.store)
    (state : Store.loc) (b : board) (rnd : nat) (p : piece) (d : nat) (is_max : bool) :
  Store.is_board h state b ->
  Store.same_successors
    (snd (Store._generate_successors self state p h))
    (fst (Store._generate_successors self state p h))
    (_generate_successors self b p)
  /\ fst (Store._minimax self state d is_max h) = _minimax self b d is_max
  /\ fst (Store.make_move self state rnd h) = make_move self b rnd.
Proof.
  intros Hb. split; [|split].
  - by destruct (StoreProofs.generate_successors_store self h state b p Hb) as [_ H].
  - unfold Store._minimax, _minimax.
    by destruct (StoreProofs.minimax_plies_store self (AI_SEARCH_DEPTH self - d) h state b
                   is_max Hb) as [_ H].
  - by destruct (StoreProofs.make_move_store self h state b rnd Hb) as (_ & _ & H).
Qed.

Lemma store_search_agrees_with_values_witness :
  Store.same_successors
    (snd (Store._generate_successors (player X 3) 5%nat X (Store.load three_in_row_board)))
    (fst (Store._generate_successors (player X 3) 5%nat X (Store.load three_in_row_board)))
    (_generate_successors (player X 3) three_in_row_board X)
  /\ fst (Store._minimax (player X 3) 5%nat 0 true (Store.load three_in_row_board))
     = _minimax (player X 3) three_in_row_board 0 true
  /\ fst (Store.make_move (player X 3) 5%nat 0 (Store.load three_in_row_board))
     = make_move (player X 3) three_in_row_board 0.
Proof.
  apply (store_search_agrees_with_values (player X 3) (Store.load three_in_row_board) 5%nat
           three_in_row_board 0 X 0 true).
  exists [0; 1; 2; 3; 4]%nat. split; [reflexivity|]. split.
  - apply (bool_decide_eq_true_1 (NoDup [0; 1; 2; 3; 4]%nat)). reflexivity.
  - repeat constructor.
Defined.
